(** * Neutron language front end: tokenizer, parser and type checker

    A shallow embedding of the JavaScript sources

      - server/parser.js      (class NeutronParser: tokenize, parse, ...;
                               the class is listed in src/test_type_checking.js)
      - server/typeChecker.js (class TypeChecker: check, inferType, ...)
      - server/server.js      (analyzeTypeSafety, getPositionFromIndex)

    and the properties of these that the specification states.

    Modelling conventions.
      - A source text is a [string]; a character is one code unit in the
        range 0..255, an offset is a [nat] index into the text.
      - The parser object's mutable fields [position] and [errors] are
        threaded explicitly as a [pstate]; [tokens] and [input] are set once
        per parse and are section variables.
      - A JavaScript exception is the [Throw] outcome, which carries the
        state at the point of the throw (the fields keep their values when
        the exception is caught).
      - The recursive-descent functions are not structurally recursive, so
        they take a [fuel] argument; [OutOfFuel] is the outcome of a run that
        is still going when the fuel is used up.  Loops over the text or the
        token list whose iteration count is bounded by the remaining length
        carry exactly that bound. *)

From Stdlib Require Import String Ascii List Arith Lia Bool NArith DecimalString.
From stdpp Require Import gmap strings.

Infix "=s" := String.eqb (at level 70, no associativity).

(** Decimal rendering of a number inside a template literal. *)
Definition show (n : nat) : string := NilEmpty.string_of_uint (Nat.to_uint n).

(* ================================================================== *)
(** * Tokens *)

Inductive token_type : Type :=
  NUMBER | STRING | IDENTIFIER | KEYWORD | OPERATOR | SYMBOL.

Definition token_type_eqb (a b : token_type) : bool :=
  match a, b with
  | NUMBER, NUMBER | STRING, STRING | IDENTIFIER, IDENTIFIER
  | KEYWORD, KEYWORD | OPERATOR, OPERATOR | SYMBOL, SYMBOL => true
  | _, _ => false
  end.

Record token : Type := Token {
  tok_type : token_type;
  tok_value : string;
  tok_start : nat;
  tok_end : nat
}.

(* ================================================================== *)
(** * Character classes *)

Module Char.

Definition code (c : ascii) : nat := nat_of_ascii c.

(** [/\s/]: TAB, LF, VT, FF, CR, SPACE and NBSP are the white space and
    line terminator code units below 256. *)
Definition is_space (c : ascii) : bool :=
  ((9 <=? code c) && (code c <=? 13)) || (code c =? 32) || (code c =? 160).

(** [/[0-9]/] *)
Definition is_digit (c : ascii) : bool :=
  (48 <=? code c) && (code c <=? 57).

(** [/[0-9.]/] *)
Definition is_digit_or_dot (c : ascii) : bool :=
  is_digit c || (code c =? 46).

Definition is_alpha (c : ascii) : bool :=
  ((97 <=? code c) && (code c <=? 122)) || ((65 <=? code c) && (code c <=? 90)).

(** [/[a-zA-Z_$]/] *)
Definition is_ident_start (c : ascii) : bool :=
  is_alpha c || (code c =? 95) || (code c =? 36).

(** [/[a-zA-Z0-9_$]/] *)
Definition is_ident_char (c : ascii) : bool :=
  is_ident_start c || is_digit c.

Definition newline : ascii := ascii_of_nat 10.
Definition carriage_return : ascii := ascii_of_nat 13.
Definition slash : ascii := "/"%char.
Definition star : ascii := "*"%char.
Definition backslash : ascii := "\"%char.
Definition dquote : ascii := ascii_of_nat 34.
Definition squote : ascii := "'"%char.

Definition is_quote (c : ascii) : bool :=
  Ascii.eqb c dquote || Ascii.eqb c squote.

End Char.

(** [keywords.includes(value)] and friends. *)
Definition includes (l : list string) (v : string) : bool :=
  existsb (fun k => k =s v) l.

Definition keywords : list string :=
  [ "var"; "int"; "float"; "string"; "bool"; "array"; "object"; "any";
    "if"; "elif"; "else"; "while"; "for"; "return"; "break"; "continue";
    "class"; "fun"; "this"; "and"; "or"; "not"; "in"; "new"; "match";
    "case"; "default"; "use"; "using"; "true"; "false"; "nil" ].

Definition isKeyword (value : string) : bool := includes keywords value.

(* ================================================================== *)
(** * The tokenizer (NeutronParser.tokenize) *)

Inductive tokenize_result : Type :=
| Tokens (tokens : list token)
| TokenizeError (msg : string)     (* [throw new Error(...)] *)
| TokenizeFuel.

(** One iteration of the main [while (current < input.length)] loop. *)
Inductive scan_step : Type :=
| Skip (next : nat)                  (* [continue] without a token *)
| Emit (t : token) (next : nat)      (* [tokens.push(t)] *)
| Abort (msg : string).              (* [throw] *)

Section Tokenizer.

Variable input : string.

Definition char_at (i : nat) : option ascii := String.get i input.
Definition len : nat := String.length input.
(** [input.slice(a, b)] for [a <= b <= input.length]. *)
Definition slice (a b : nat) : string := String.substring a (b - a) input.

Definition char_is (i : nat) (c : ascii) : bool :=
  match char_at i with
  | Some d => Ascii.eqb d c
  | None => false
  end.

(** [while (current < input.length && p(input[current])) current++;]
    with [fuel] an upper bound of [input.length - current]. *)
Fixpoint scan_while (p : ascii -> bool) (fuel current : nat) : nat :=
  match fuel with
  | 0 => current
  | S fuel' =>
      match char_at current with
      | Some c => if p c then scan_while p fuel' (S current) else current
      | None => current
      end
  end.

(** The body of a block comment:
    [while (current < input.length - 1 &&
            !(input[current] === '*' && input[current + 1] === '/')) current++;]
    (the loop is entered with [input.length >= 1]). *)
Fixpoint scan_block_comment (fuel current : nat) : nat :=
  match fuel with
  | 0 => current
  | S fuel' =>
      if (current <? len - 1)
         && negb (char_is current Char.star && char_is (current + 1) Char.slash)
      then scan_block_comment fuel' (S current)
      else current
  end.

(** The body of a string literal:
    [while (current < input.length && input[current] !== quote)
       if (input[current] === '\\') current += 2; else current++;] *)
Fixpoint scan_string (quote : ascii) (fuel current : nat) : nat :=
  match fuel with
  | 0 => current
  | S fuel' =>
      match char_at current with
      | Some c =>
          if Ascii.eqb c quote then current
          else if Ascii.eqb c Char.backslash
               then scan_string quote fuel' (current + 2)
               else scan_string quote fuel' (S current)
      | None => current
      end
  end.

Definition two_char_operator (c : ascii) (current : nat) : option string :=
  if Ascii.eqb c "="%char && char_is (current + 1) "="%char then Some "=="
  else if Ascii.eqb c "!"%char && char_is (current + 1) "="%char then Some "!="
  else if Ascii.eqb c ">"%char && char_is (current + 1) "="%char then Some ">="
  else if Ascii.eqb c "<"%char && char_is (current + 1) "="%char then Some "<="
  else if Ascii.eqb c "&"%char && char_is (current + 1) "&"%char then Some "and"
  else if Ascii.eqb c "|"%char && char_is (current + 1) "|"%char then Some "or"
  else None.

Definition tokenize_step (current : nat) (char : ascii) : scan_step :=
  if Char.is_space char then Skip (S current)
  else if Ascii.eqb char Char.slash && char_is (current + 1) Char.slash then
    Skip (scan_while (fun c => negb (Ascii.eqb c Char.newline)) (len - current) current)
  else if Ascii.eqb char Char.slash && char_is (current + 1) Char.star then
    Skip (scan_block_comment (len - current) (current + 2) + 2)
  else if Char.is_quote char then
    let start := current in
    let close := scan_string char (len - current) (S current) in
    if len <=? close
    then Abort ("Unterminated string at position " +:+ show start)
    else Emit (Token STRING (slice start (S close)) start (S close)) (S close)
  else if Char.is_digit char then
    let start := current in
    let stop := scan_while Char.is_digit_or_dot (len - current) current in
    Emit (Token NUMBER (slice start stop) start stop) stop
  else if Char.is_ident_start char then
    let start := current in
    let stop := scan_while Char.is_ident_char (len - current) current in
    let value := slice start stop in
    Emit (Token (if isKeyword value then KEYWORD else IDENTIFIER) value start stop) stop
  else
    match two_char_operator char current with
    | Some value => Emit (Token OPERATOR value current (current + 2)) (current + 2)
    | None => Emit (Token SYMBOL (String char EmptyString) current (S current)) (S current)
    end.

Fixpoint tokenize_loop (fuel current : nat) (tokens : list token) : tokenize_result :=
  match fuel with
  | 0 => TokenizeFuel
  | S fuel' =>
      match char_at current with
      | None => Tokens tokens                       (* current >= input.length *)
      | Some char =>
          match tokenize_step current char with
          | Skip next => tokenize_loop fuel' next tokens
          | Emit t next => tokenize_loop fuel' next (tokens ++ [t])
          | Abort msg => TokenizeError msg
          end
      end
  end.

(** Every iteration moves [current] forward, so [input.length + 1] rounds
    are enough (lemma [tokenize_total]). *)
Definition tokenize : tokenize_result := tokenize_loop (S len) 0 [].

End Tokenizer.

(* ================================================================== *)
(** * Abstract syntax *)

(** The [value] field of a [Literal].  For a numeric literal the parser
    stores [Number(token.value)]; the type checker observes it only through
    [typeof] and, when the raw text has no ['.'], through
    [Number.isInteger].  A raw text made of digits only denotes the natural
    number [n] kept in [LNumber (Some n)]; a raw text with a ['.'] is kept
    as [LNumber None] (its fractional value is never inspected). *)
Inductive literal_value : Type :=
| LNumber (digits : option N)
| LString (s : string)
| LBoolean (b : bool)
| LNull.

(** Object literals of the parser, one constructor per [type] tag; the
    arguments are the remaining fields in the order they are written.
    [BlockStatement] is the one node built without [start]/[end]. *)
#[warnings="-register-all"]
Inductive node : Type :=
| Identifier (name : string) (start end_ : nat)
| Literal (value : literal_value) (raw : string) (start end_ : nat)
| BinaryExpression (operator : string) (left right : node) (start end_ : nat)
| LogicalExpression (operator : string) (left right : node) (start end_ : nat)
| UnaryExpression (operator : string) (argument : node) (start end_ : nat)
| CallExpression (callee : node) (arguments : list node) (start end_ : nat)
| MemberExpression (object property : node) (start end_ : nat)
| ArrayExpression (elements : list node) (start end_ : nat)
| ObjectExpression (properties : list node) (start end_ : nat)
| Property (key : token) (value : node) (start end_ : nat)
| VariableDeclaration (declaredType : option string) (name : string)
    (init : option node) (start end_ : nat)
| IfStatement (test consequent : node) (alternate : option node) (start end_ : nat)
| WhileStatement (test body : node) (start end_ : nat)
| ForStatement (init test update : option node) (body : node) (start end_ : nat)
| BlockStatement (body : list (option node))
| FunctionDeclaration (id : node) (params : list string) (body : node) (start end_ : nat)
| ClassDeclaration (id : node) (body : node) (start end_ : nat)
| ReturnStatement (argument : option node) (start end_ : nat)
| ExpressionStatement (expression : node) (start end_ : nat)
| AssignmentExpression (operator : string) (left right : node) (start end_ : nat).

(** [node.start] and [node.end]; [None] is JavaScript's [undefined]. *)
Definition node_start (n : node) : option nat :=
  match n with
  | Identifier _ a _ | Literal _ _ a _ | BinaryExpression _ _ _ a _
  | LogicalExpression _ _ _ a _ | UnaryExpression _ _ a _
  | CallExpression _ _ a _ | MemberExpression _ _ a _ | ArrayExpression _ a _
  | ObjectExpression _ a _ | Property _ _ a _ | VariableDeclaration _ _ _ a _
  | IfStatement _ _ _ a _ | WhileStatement _ _ a _ | ForStatement _ _ _ _ a _
  | FunctionDeclaration _ _ _ a _ | ClassDeclaration _ _ a _
  | ReturnStatement _ a _ | ExpressionStatement _ a _
  | AssignmentExpression _ _ _ a _ => Some a
  | BlockStatement _ => None
  end.

Definition node_end (n : node) : option nat :=
  match n with
  | Identifier _ _ b | Literal _ _ _ b | BinaryExpression _ _ _ _ b
  | LogicalExpression _ _ _ _ b | UnaryExpression _ _ _ b
  | CallExpression _ _ _ b | MemberExpression _ _ _ b | ArrayExpression _ _ b
  | ObjectExpression _ _ b | Property _ _ _ b | VariableDeclaration _ _ _ _ b
  | IfStatement _ _ _ _ b | WhileStatement _ _ _ b | ForStatement _ _ _ _ _ b
  | FunctionDeclaration _ _ _ _ b | ClassDeclaration _ _ _ b
  | ReturnStatement _ _ b | ExpressionStatement _ _ b
  | AssignmentExpression _ _ _ _ b => Some b
  | BlockStatement _ => None
  end.

(** The parser reads [expr.start] and [expr.end] of expression results only;
    those always carry both fields (lemma [parseExpression_offsets]), so the
    default is never used. *)
Definition start_of (n : node) : nat :=
  match node_start n with Some a => a | None => 0 end.
Definition end_of (n : node) : nat :=
  match node_end n with Some b => b | None => 0 end.
Arguments start_of !n /.
Arguments end_of !n /.

Definition is_Identifier (n : node) : bool :=
  match n with Identifier _ _ _ => true | _ => false end.

(** [Number(raw)] for a token matched by [[0-9][0-9.]*]. *)
Fixpoint digits_value (raw : string) (acc : N) : option N :=
  match raw with
  | EmptyString => Some acc
  | String c rest =>
      if Char.is_digit c
      then digits_value rest (acc * 10 + N.of_nat (Char.code c - 48))%N
      else None
  end.

Definition Number (raw : string) : literal_value := LNumber (digits_value raw 0%N).

(** A decimal integer converts to a finite double exactly when it is below
    [2^1024 - 2^970]; anything larger becomes [Infinity]. *)
Definition double_overflow : N := (2 ^ 1024 - 2 ^ 970)%N.

(** [Number.isInteger(value)] on the value of a numeric literal. *)
Definition Number_isInteger (digits : option N) : bool :=
  match digits with
  | Some n => (n <? double_overflow)%N
  | None => false
  end.

(* ================================================================== *)
(** * The parser (class NeutronParser) *)

Record syntaxError : Type := SyntaxError {
  message : string;
  err_start : nat;
  err_end : nat
}.

(** The mutable fields of a parser object. *)
Record pstate : Type := PState {
  position : nat;
  errors : list syntaxError
}.

Inductive result (A : Type) : Type :=
| Ok (a : A) (s : pstate)
| Throw (msg : string) (s : pstate)
| OutOfFuel.
Arguments Ok {A} a s.
Arguments Throw {A} msg s.
Arguments OutOfFuel {A}.

Definition bind {A B : Type} (r : result A) (k : A -> pstate -> result B) : result B :=
  match r with
  | Ok a s => k a s
  | Throw msg s => Throw msg s
  | OutOfFuel => OutOfFuel
  end.

Notation "'let*' ( x , s ) := r 'in' k" :=
  (bind r (fun x s => k))
  (at level 10, x name, s name, r at level 100, k at level 200).

(** The message of the [TypeError] raised by reading a property of [null]. *)
Definition null_read (prop : string) : string :=
  "Cannot read properties of null (reading '" +:+ prop +:+ "')".

(** The precedence levels of binary operators, loosest first.  The six
    functions parseLogicalOr, parseLogicalAnd, parseEquality,
    parseRelational, parseAdditive and parseMultiplicative have one body up
    to the operand parser, the operator set and the node tag. *)
Inductive level : Type := LOr | LAnd | LEquality | LRelational | LAdditive | LMultiplicative.

Definition level_operators (lv : level) : list string :=
  match lv with
  | LOr => ["or"]
  | LAnd => ["and"]
  | LEquality => ["=="; "!="]
  | LRelational => ["<"; "<="; ">"; ">="]
  | LAdditive => ["+"; "-"]
  | LMultiplicative => ["*"; "/"; "%"]
  end.

(** The node built by one round of the loop at level [lv]. *)
Definition level_node (lv : level) (operator : string) (left right : node) : node :=
  match lv with
  | LOr | LAnd => LogicalExpression operator left right (start_of left) (end_of right)
  | _ => BinaryExpression operator left right (start_of left) (end_of right)
  end.

Definition isTypeKeyword (value : string) : bool :=
  includes ["int"; "float"; "string"; "bool"; "array"; "object"; "any"] value.

Definition statementStarters : list string :=
  ["var"; "if"; "while"; "for"; "fun"; "class"; "return"].

Definition isStatementStart (t : token) : bool :=
  includes statementStarters (tok_value t) || token_type_eqb (tok_type t) IDENTIFIER.

Section Parser.

Variable input : string.          (* this.input *)
Variable tokens : list token.     (* this.tokens *)

Definition currentToken (s : pstate) : option token := tokens !! position s.

Definition nextToken (s : pstate) : pstate :=
  if position s <? length tokens
  then PState (S (position s)) (errors s)
  else s.

Definition addError (msg : string) (a b : nat) (s : pstate) : pstate :=
  PState (position s) (errors s ++ [SyntaxError msg a b]).

(** [for (let i = pos; i < this.input.length; i++) ...] *)
Fixpoint findEndOfLine_from (fuel i : nat) : nat :=
  match fuel with
  | 0 => String.length input
  | S fuel' =>
      match String.get i input with
      | Some c =>
          if Ascii.eqb c Char.newline || Ascii.eqb c Char.carriage_return
          then i
          else findEndOfLine_from fuel' (S i)
      | None => String.length input
      end
  end.

Definition findEndOfLine (pos : nat) : nat :=
  findEndOfLine_from (String.length input - pos) pos.

(** [this.currentToken() && this.currentToken().value === v] *)
Definition at_value (v : string) (s : pstate) : bool :=
  match currentToken s with
  | Some t => tok_value t =s v
  | None => false
  end.

(** [this.currentToken() && this.currentToken().value !== v] *)
Definition at_other_than (v : string) (s : pstate) : bool :=
  match currentToken s with
  | Some t => negb (tok_value t =s v)
  | None => false
  end.

(** [this.currentToken() && this.currentToken().type === ty] *)
Definition at_type (ty : token_type) (s : pstate) : bool :=
  match currentToken s with
  | Some t => token_type_eqb (tok_type t) ty
  | None => false
  end.

(** [throw new Error(`<text>${this.currentToken().start}`)]: with no
    current token the template itself raises the [TypeError]. *)
Definition throw_at {A : Type} (text : string) (s : pstate) : result A :=
  match currentToken s with
  | Some t => Throw (text +:+ show (tok_start t)) s
  | None => Throw (null_read "start") s
  end.

(** [while (this.currentToken()) ...] of skipToNextStatement; each round
    that continues consumes a token, so [fuel] is the number of tokens
    left. *)
Fixpoint skip_loop (fuel : nat) (s : pstate) : pstate :=
  match fuel with
  | 0 => s
  | S fuel' =>
      match currentToken s with
      | None => s
      | Some t =>
          if tok_value t =s ";" then nextToken s
          else if (tok_value t =s "}") || (tok_value t =s "{") then s
          else if isStatementStart t then s
          else skip_loop fuel' (nextToken s)
      end
  end.

Definition skipToNextStatement (s : pstate) : pstate :=
  skip_loop (length tokens - position s) s.

(* ---------------------------------------------------------------- *)
(** ** Expressions

    The methods call one another recursively.  Each body is written once,
    over the callees it uses; the callees stand for the methods running
    with the fuel that is left, and the fixpoint below closes the knot. *)

Section ExpressionBodies.

Variable parseLevel : level -> pstate -> result node.
Variable parseLevel_loop : level -> node -> pstate -> result node.
Variable parseUnary : pstate -> result node.
Variable parsePrimary : pstate -> result node.
Variable parseCallExpression : node -> pstate -> result node.
Variable parseArguments_loop : list node -> pstate -> result (list node).
Variable parseMemberExpression : node -> pstate -> result node.
Variable parseArrayExpression : pstate -> result node.
Variable parseObjectExpression : pstate -> result node.
Variable parseProperties_loop : list node -> pstate -> result (list node).
Variable parseObjectProperty : pstate -> result node.

(** parseExpression is parseLogicalOr. *)
Local Abbreviation parseExpression := (parseLevel LOr).

(** The operand parser of a level: the next tighter level. *)
Definition parseOperand (lv : level) (s : pstate) : result node :=
  match lv with
  | LOr => parseLevel LAnd s
  | LAnd => parseLevel LEquality s
  | LEquality => parseLevel LRelational s
  | LRelational => parseLevel LAdditive s
  | LAdditive => parseLevel LMultiplicative s
  | LMultiplicative => parseUnary s
  end.

Definition parseLevel_body (lv : level) (s : pstate) : result node :=
  let* (expr, s1) := parseOperand lv s in
  parseLevel_loop lv expr s1.

(** [while (this.currentToken() && <operator of the level>) ...] *)
Definition parseLevel_loop_body (lv : level) (expr : node) (s : pstate)
  : result node :=
  match currentToken s with
  | Some opToken =>
      if includes (level_operators lv) (tok_value opToken) then
        let* (right, s2) := parseOperand lv (nextToken s) in
        parseLevel_loop lv (level_node lv (tok_value opToken) expr right) s2
      else Ok expr s
  | None => Ok expr s
  end.

Definition parseUnary_body (s : pstate) : result node :=
  match currentToken s with
  | Some opToken =>
      if tok_value opToken =s "not" then
        let* (argument, s1) := parseUnary (nextToken s) in
        Ok (UnaryExpression "not" argument (tok_start opToken) (end_of argument)) s1
      else parsePrimary s
  | None => parsePrimary s
  end.

Definition parsePrimary_body (s : pstate) : result node :=
  match currentToken s with
  | None => Throw "Unexpected end of input" s
  | Some token =>
      if token_type_eqb (tok_type token) NUMBER then
        Ok (Literal (Number (tok_value token)) (tok_value token)
              (tok_start token) (tok_end token)) (nextToken s)
      else if token_type_eqb (tok_type token) STRING then
        Ok (Literal (LString (tok_value token)) (tok_value token)
              (tok_start token) (tok_end token)) (nextToken s)
      else if (tok_value token =s "true") || (tok_value token =s "false") then
        Ok (Literal (LBoolean (tok_value token =s "true")) (tok_value token)
              (tok_start token) (tok_end token)) (nextToken s)
      else if tok_value token =s "nil" then
        Ok (Literal LNull (tok_value token)
              (tok_start token) (tok_end token)) (nextToken s)
      else if token_type_eqb (tok_type token) IDENTIFIER then
        let identifier :=
          Identifier (tok_value token) (tok_start token) (tok_end token) in
        let s1 := nextToken s in
        if at_value "(" s1 then parseCallExpression identifier s1
        else if at_value "." s1 then parseMemberExpression identifier s1
        else Ok identifier s1
      else if tok_value token =s "(" then
        let* (expr, s1) := parseExpression (nextToken s) in
        if at_value ")" s1 then Ok expr (nextToken s1)
        else throw_at "Expected ')' at position " s1
      else if tok_value token =s "[" then parseArrayExpression s
      else if tok_value token =s "{" then parseObjectExpression s
      else Throw ("Unexpected token '" +:+ tok_value token +:+ "' at position "
                    +:+ show (tok_start token)) s
  end.

Definition parseCallExpression_body (callee : node) (s : pstate) : result node :=
  if negb (at_value "(" s)
  then throw_at "Expected '(' for function call at position " s
  else
    let s1 := nextToken s in
    let* (args, s2) :=
      if at_other_than ")" s1 then
        let* (first, s') := parseExpression s1 in
        parseArguments_loop [first] s'
      else Ok [] s1 in
    match currentToken s2 with
    | Some endToken =>
        if tok_value endToken =s ")" then
          Ok (CallExpression callee args (start_of callee) (tok_end endToken))
             (nextToken s2)
        else throw_at "Expected ')' to close function call at position " s2
    | None => throw_at "Expected ')' to close function call at position " s2
    end.

(** [while (this.currentToken() && this.currentToken().value === ',')
      { this.nextToken(); args.push(this.parseExpression()); }]
    (the same loop fills [elements] in parseArrayExpression). *)
Definition parseArguments_loop_body (args : list node) (s : pstate)
  : result (list node) :=
  if at_value "," s then
    let* (arg, s1) := parseExpression (nextToken s) in
    parseArguments_loop (args ++ [arg]) s1
  else Ok args s.

Definition parseMemberExpression_body (object : node) (s : pstate) : result node :=
  if negb (at_value "." s)
  then throw_at "Expected '.' for member access at position " s
  else
    let s1 := nextToken s in
    match currentToken s1 with
    | Some t =>
        if token_type_eqb (tok_type t) IDENTIFIER then
          let property := Identifier (tok_value t) (tok_start t) (tok_end t) in
          let member :=
            MemberExpression object property (start_of object) (end_of property) in
          let s2 := nextToken s1 in
          if at_value "(" s2 then parseCallExpression member s2
          else Ok member s2
        else throw_at "Expected identifier after '.' at position " s1
    | None => throw_at "Expected identifier after '.' at position " s1
    end.

Definition parseArrayExpression_body (s : pstate) : result node :=
  match currentToken s with
  | None => Throw (null_read "start") s     (* not reached: called at '[' *)
  | Some startToken =>
      let s1 := nextToken s in
      let* (elements, s2) :=
        if at_other_than "]" s1 then
          let* (first, s') := parseExpression s1 in
          parseArguments_loop [first] s'
        else Ok [] s1 in
      match currentToken s2 with
      | Some endToken =>
          if tok_value endToken =s "]" then
            Ok (ArrayExpression elements (tok_start startToken) (tok_end endToken))
               (nextToken s2)
          else throw_at "Expected ']' to close array at position " s2
      | None => throw_at "Expected ']' to close array at position " s2
      end
  end.

Definition parseObjectExpression_body (s : pstate) : result node :=
  match currentToken s with
  | None => Throw (null_read "start") s     (* not reached: called at '{' *)
  | Some startToken =>
      let s1 := nextToken s in
      let* (properties, s2) :=
        if at_other_than "}" s1 then
          let* (first, s') := parseObjectProperty s1 in
          parseProperties_loop [first] s'
        else Ok [] s1 in
      match currentToken s2 with
      | Some endToken =>
          if tok_value endToken =s "}" then
            Ok (ObjectExpression properties (tok_start startToken) (tok_end endToken))
               (nextToken s2)
          else throw_at "Expected '}' to close object at position " s2
      | None => throw_at "Expected '}' to close object at position " s2
      end
  end.

Definition parseProperties_loop_body (properties : list node) (s : pstate)
  : result (list node) :=
  if at_value "," s then
    let* (property, s1) := parseObjectProperty (nextToken s) in
    parseProperties_loop (properties ++ [property]) s1
  else Ok properties s.

Definition parseObjectProperty_body (s : pstate) : result node :=
  match currentToken s with
  | Some key =>
      if token_type_eqb (tok_type key) STRING then
        let s1 := nextToken s in
        if negb (at_value ":" s1)
        then throw_at "Expected ':' after object property key at position " s1
        else
          let* (value, s2) := parseExpression (nextToken s1) in
          Ok (Property key value (tok_start key) (end_of value)) s2
      else throw_at "Expected string key for object property at position " s
  | None => throw_at "Expected string key for object property at position " s
  end.

End ExpressionBodies.

Fixpoint parseLevel (fuel : nat) (lv : level) (s : pstate) {struct fuel}
  : result node :=
  match fuel with
  | 0 => OutOfFuel
  | S fuel' =>
      parseLevel_body (parseLevel fuel') (parseLevel_loop fuel') (parseUnary fuel') lv s
  end
with parseLevel_loop (fuel : nat) (lv : level) (expr : node) (s : pstate)
  {struct fuel} : result node :=
  match fuel with
  | 0 => OutOfFuel
  | S fuel' =>
      parseLevel_loop_body (parseLevel fuel') (parseLevel_loop fuel')
        (parseUnary fuel') lv expr s
  end
with parseUnary (fuel : nat) (s : pstate) {struct fuel} : result node :=
  match fuel with
  | 0 => OutOfFuel
  | S fuel' => parseUnary_body (parseUnary fuel') (parsePrimary fuel') s
  end
with parsePrimary (fuel : nat) (s : pstate) {struct fuel} : result node :=
  match fuel with
  | 0 => OutOfFuel
  | S fuel' =>
      parsePrimary_body (parseLevel fuel') (parseCallExpression fuel')
        (parseMemberExpression fuel') (parseArrayExpression fuel')
        (parseObjectExpression fuel') s
  end
with parseCallExpression (fuel : nat) (callee : node) (s : pstate) {struct fuel}
  : result node :=
  match fuel with
  | 0 => OutOfFuel
  | S fuel' =>
      parseCallExpression_body (parseLevel fuel') (parseArguments_loop fuel') callee s
  end
with parseArguments_loop (fuel : nat) (args : list node) (s : pstate) {struct fuel}
  : result (list node) :=
  match fuel with
  | 0 => OutOfFuel
  | S fuel' =>
      parseArguments_loop_body (parseLevel fuel') (parseArguments_loop fuel') args s
  end
with parseMemberExpression (fuel : nat) (object : node) (s : pstate) {struct fuel}
  : result node :=
  match fuel with
  | 0 => OutOfFuel
  | S fuel' => parseMemberExpression_body (parseCallExpression fuel') object s
  end
with parseArrayExpression (fuel : nat) (s : pstate) {struct fuel} : result node :=
  match fuel with
  | 0 => OutOfFuel
  | S fuel' =>
      parseArrayExpression_body (parseLevel fuel') (parseArguments_loop fuel') s
  end
with parseObjectExpression (fuel : nat) (s : pstate) {struct fuel} : result node :=
  match fuel with
  | 0 => OutOfFuel
  | S fuel' =>
      parseObjectExpression_body (parseProperties_loop fuel')
        (parseObjectProperty fuel') s
  end
with parseProperties_loop (fuel : nat) (properties : list node) (s : pstate)
  {struct fuel} : result (list node) :=
  match fuel with
  | 0 => OutOfFuel
  | S fuel' =>
      parseProperties_loop_body (parseProperties_loop fuel')
        (parseObjectProperty fuel') properties s
  end
with parseObjectProperty (fuel : nat) (s : pstate) {struct fuel} : result node :=
  match fuel with
  | 0 => OutOfFuel
  | S fuel' => parseObjectProperty_body (parseLevel fuel') s
  end.

Definition parseLogicalOr (fuel : nat) := parseLevel fuel LOr.
Definition parseLogicalAnd (fuel : nat) := parseLevel fuel LAnd.
Definition parseEquality (fuel : nat) := parseLevel fuel LEquality.
Definition parseRelational (fuel : nat) := parseLevel fuel LRelational.
Definition parseAdditive (fuel : nat) := parseLevel fuel LAdditive.
Definition parseMultiplicative (fuel : nat) := parseLevel fuel LMultiplicative.
Definition parseExpression (fuel : nat) (s : pstate) : result node :=
  parseLogicalOr fuel s.

(* ---------------------------------------------------------------- *)
(** ** Statements that contain no nested statement *)

Definition parseVariableDeclaration (fuel : nat) (s : pstate) : result node :=
  match currentToken s with
  | None => Throw (null_read "start") s       (* not reached: called at a token *)
  | Some startToken =>
      let s1 := nextToken s in                                   (* skip 'var' *)
      let '(declaredType, s2) :=
        match currentToken s1 with
        | Some t =>
            if isTypeKeyword (tok_value t)
            then (Some (tok_value t), nextToken s1)
            else (None, s1)
        | None => (None, s1)
        end in
      match currentToken s2 with
      | Some nameToken =>
          if token_type_eqb (tok_type nameToken) IDENTIFIER then
            let name := tok_value nameToken in
            let s3 := nextToken s2 in
            let* (init, s4) :=
              if at_value "=" s3 then
                let* (e, s') := parseExpression fuel (nextToken s3) in Ok (Some e) s'
              else Ok None s3 in
            if at_value ";" s4 then
              let s5 := nextToken s4 in
              Ok (VariableDeclaration declaredType name init (tok_start startToken)
                    match currentToken s5 with
                    | Some t => tok_start t
                    | None => tok_end nameToken + 1
                    end) s5
            else
              let lineEnd := findEndOfLine (tok_end nameToken) in
              Ok (VariableDeclaration declaredType name init (tok_start startToken)
                    (tok_end nameToken))
                 (addError "Missing semicolon at end of variable declaration"
                    (tok_end nameToken) lineEnd s4)
          else throw_at "Expected identifier at position " s2
      | None => throw_at "Expected identifier at position " s2
      end
  end.

Definition parseAssignmentExpression (fuel : nat) (left : node) (s : pstate)
  : result node :=
  if negb (at_value "=" s)
  then throw_at "Expected '=' in assignment at position " s
  else
    let* (right, s1) := parseExpression fuel (nextToken s) in
    if at_value ";" s1 then
      let s2 := nextToken s1 in
      Ok (AssignmentExpression "=" left right (start_of left)
            match currentToken s2 with
            | Some t => tok_start t
            | None => end_of right + 1
            end) s2
    else
      let lineEnd := findEndOfLine (end_of right) in
      Ok (AssignmentExpression "=" left right (start_of left) (end_of right))
         (addError "Missing semicolon at end of assignment" (end_of right) lineEnd s1).

Definition parseExpressionStatement (fuel : nat) (s : pstate) : result node :=
  let* (expr, s1) := parseExpression fuel s in
  if is_Identifier expr && at_value "=" s1 then parseAssignmentExpression fuel expr s1
  else if at_value ";" s1 then
    let s2 := nextToken s1 in
    Ok (ExpressionStatement expr (start_of expr)
          match currentToken s2 with
          | Some t => tok_start t
          | None => end_of expr + 1
          end) s2
  else
    let lineEnd := findEndOfLine (end_of expr) in
    Ok (ExpressionStatement expr (start_of expr) (end_of expr))
       (addError "Missing semicolon at end of statement" (end_of expr) lineEnd s1).

Definition parseReturnStatement (fuel : nat) (s : pstate) : result node :=
  match currentToken s with
  | None => Throw (null_read "start") s       (* not reached: called at a token *)
  | Some startToken =>
      let s1 := nextToken s in                                (* skip 'return' *)
      let* (argument, s2) :=
        if at_other_than ";" s1 && at_other_than "}" s1
           && at_other_than (String Char.newline EmptyString) s1
        then let* (e, s') := parseExpression fuel s1 in Ok (Some e) s'
        else Ok None s1 in
      let s3 := if at_value ";" s2 then nextToken s2 else s2 in
      Ok (ReturnStatement argument (tok_start startToken)
            match argument with
            | Some a => end_of a
            | None => tok_end startToken + 6
            end) s3
  end.

(** The parameter list of parseFunctionDeclaration:
    [while (cur && cur.value === ',') { next; if (cur && cur.type === 'IDENTIFIER') { push; next } }];
    every round consumes the comma, so [fuel] is the number of tokens left. *)
Fixpoint parseParams_loop (fuel : nat) (params : list string) (s : pstate)
  : list string * pstate :=
  match fuel with
  | 0 => (params, s)
  | S fuel' =>
      if at_value "," s then
        let s1 := nextToken s in
        match currentToken s1 with
        | Some t =>
            if token_type_eqb (tok_type t) IDENTIFIER
            then parseParams_loop fuel' (params ++ [tok_value t]) (nextToken s1)
            else parseParams_loop fuel' params s1
        | None => parseParams_loop fuel' params s1
        end
      else (params, s)
  end.

Definition parseParams (s : pstate) : list string * pstate :=
  if at_other_than ")" s then
    let '(params, s1) :=
      match currentToken s with
      | Some t =>
          if token_type_eqb (tok_type t) IDENTIFIER
          then ([tok_value t], nextToken s)
          else ([], s)
      | None => ([], s)
      end in
    parseParams_loop (length tokens - position s1) params s1
  else ([], s).

(* ---------------------------------------------------------------- *)
(** ** Statements

    Written like the expressions: the bodies of the mutually recursive
    methods range over their callees, which run with the fuel [fuel]. *)

(** [cur ? cur.end : startToken.end] *)
Definition end_at (s : pstate) (startToken : token) : nat :=
  match currentToken s with
  | Some t => tok_end t
  | None => tok_end startToken
  end.

Section StatementBodies.

Variable fuel : nat.
Variable parseStatement : pstate -> result (option node).
Variable parseBlock : pstate -> result node.
Variable parseBlock_loop : list (option node) -> pstate -> result (list (option node)).
Variable parseIfStatement : pstate -> result node.
Variable parseWhileStatement : pstate -> result node.
Variable parseForStatement : pstate -> result node.
Variable parseFunctionDeclaration : pstate -> result node.
Variable parseClassDeclaration : pstate -> result node.

(** The body of the [try] block of parseStatement. *)
Definition statement_attempt (token : token) (s : pstate) : result (option node) :=
  if tok_value token =s "var" then
    let* (n, s') := parseVariableDeclaration fuel s in Ok (Some n) s'
  else if tok_value token =s "if" then
    let* (n, s') := parseIfStatement s in Ok (Some n) s'
  else if tok_value token =s "while" then
    let* (n, s') := parseWhileStatement s in Ok (Some n) s'
  else if tok_value token =s "for" then
    let* (n, s') := parseForStatement s in Ok (Some n) s'
  else if tok_value token =s "fun" then
    let* (n, s') := parseFunctionDeclaration s in Ok (Some n) s'
  else if tok_value token =s "class" then
    let* (n, s') := parseClassDeclaration s in Ok (Some n) s'
  else if tok_value token =s "return" then
    let* (n, s') := parseReturnStatement fuel s in Ok (Some n) s'
  else if token_type_eqb (tok_type token) IDENTIFIER then
    let* (n, s') := parseExpressionStatement fuel s in Ok (Some n) s'
  else Ok None (skipToNextStatement s).

Definition parseStatement_body (s : pstate) : result (option node) :=
  match currentToken s with
  | None => Ok None s
  | Some token =>
      match statement_attempt token s with
      | Ok stmt s' => Ok stmt s'
      | Throw msg s' =>                                     (* catch (e) *)
          Ok None (skipToNextStatement
                     (addError msg (tok_start token) (tok_end token) s'))
      | OutOfFuel => OutOfFuel
      end
  end.

Definition parseBlock_body (s : pstate) : result node :=
  if at_value "{" s then
    let* (body, s1) := parseBlock_loop [] (nextToken s) in
    let s2 := match currentToken s1 with
              | Some _ => nextToken s1                         (* skip '}' *)
              | None => s1
              end in
    Ok (BlockStatement body) s2
  else
    let* (stmt, s1) := parseStatement s in
    Ok (BlockStatement [stmt]) s1.

(** [while (this.position < this.tokens.length && this.currentToken().value !== '}')] *)
Definition parseBlock_loop_body (body : list (option node)) (s : pstate)
  : result (list (option node)) :=
  if at_other_than "}" s then
    let* (stmt, s1) := parseStatement s in
    parseBlock_loop
      match stmt with
      | Some n => body ++ [Some n]
      | None => body
      end s1
  else Ok body s.

Definition parseIfStatement_body (s : pstate) : result node :=
  match currentToken s with
  | None => Throw (null_read "start") s     (* not reached: called at 'if' *)
  | Some startToken =>
      let s1 := nextToken s in                                  (* skip 'if' *)
      if negb (at_value "(" s1)
      then throw_at "Expected '(' after 'if' at position " s1
      else
        let* (test, s2) := parseExpression fuel (nextToken s1) in
        if negb (at_value ")" s2)
        then throw_at "Expected ')' after if condition at position " s2
        else
          let* (consequent, s3) := parseBlock (nextToken s2) in
          let* (alternate, s4) :=
            if at_value "else" s3 then
              let s' := nextToken s3 in
              if at_value "if" s'
              then let* (a, s'') := parseIfStatement s' in Ok (Some a) s''
              else let* (a, s'') := parseBlock s' in Ok (Some a) s''
            else Ok None s3 in
          Ok (IfStatement test consequent alternate
                (tok_start startToken) (end_at s4 startToken)) s4
  end.

Definition parseWhileStatement_body (s : pstate) : result node :=
  match currentToken s with
  | None => Throw (null_read "start") s  (* not reached: called at 'while' *)
  | Some startToken =>
      let s1 := nextToken s in                               (* skip 'while' *)
      if negb (at_value "(" s1)
      then throw_at "Expected '(' after 'while' at position " s1
      else
        let* (test, s2) := parseExpression fuel (nextToken s1) in
        if negb (at_value ")" s2)
        then throw_at "Expected ')' after while condition at position " s2
        else
          let* (body, s3) := parseBlock (nextToken s2) in
          Ok (WhileStatement test body
                (tok_start startToken) (end_at s3 startToken)) s3
  end.

Definition parseForStatement_body (s : pstate) : result node :=
  match currentToken s with
  | None => Throw (null_read "start") s    (* not reached: called at 'for' *)
  | Some startToken =>
      let s1 := nextToken s in                                 (* skip 'for' *)
      if negb (at_value "(" s1)
      then throw_at "Expected '(' after 'for' at position " s1
      else
        let s2 := nextToken s1 in
        let* (init, s3) :=
          match currentToken s2 with
          | None => Throw (null_read "value") s2
          | Some t =>
              if tok_value t =s ";" then Ok None s2
              else if tok_value t =s "var"
              then let* (n, s') := parseVariableDeclaration fuel s2 in Ok (Some n) s'
              else let* (n, s') := parseExpression fuel s2 in Ok (Some n) s'
          end in
        if negb (at_value ";" s3)
        then throw_at "Expected ';' after for init at position " s3
        else
          let s4 := nextToken s3 in
          let* (test, s5) :=
            match currentToken s4 with
            | None => Throw (null_read "value") s4
            | Some t =>
                if tok_value t =s ";" then Ok None s4
                else let* (n, s') := parseExpression fuel s4 in Ok (Some n) s'
            end in
          if negb (at_value ";" s5)
          then throw_at "Expected ';' after for test at position " s5
          else
            let s6 := nextToken s5 in
            let* (update, s7) :=
              match currentToken s6 with
              | None => Throw (null_read "value") s6
              | Some t =>
                  if tok_value t =s ")" then Ok None s6
                  else let* (n, s') := parseExpression fuel s6 in Ok (Some n) s'
              end in
            if negb (at_value ")" s7)
            then throw_at "Expected ')' after for update at position " s7
            else
              let* (body, s8) := parseBlock (nextToken s7) in
              Ok (ForStatement init test update body
                    (tok_start startToken) (end_at s8 startToken)) s8
  end.

Definition parseFunctionDeclaration_body (s : pstate) : result node :=
  match currentToken s with
  | None => Throw (null_read "start") s    (* not reached: called at 'fun' *)
  | Some startToken =>
      let s1 := nextToken s in                                 (* skip 'fun' *)
      match currentToken s1 with
      | Some nameToken =>
          if token_type_eqb (tok_type nameToken) IDENTIFIER then
            let s2 := nextToken s1 in
            if negb (at_value "(" s2)
            then throw_at "Expected '(' after function name at position " s2
            else
              let '(params, s3) := parseParams (nextToken s2) in
              if negb (at_value ")" s3)
              then throw_at "Expected ')' after function parameters at position " s3
              else
                let* (body, s4) := parseBlock (nextToken s3) in
                Ok (FunctionDeclaration
                      (Identifier (tok_value nameToken)
                         (tok_start nameToken) (tok_end nameToken))
                      params body
                      (tok_start startToken) (end_at s4 startToken)) s4
          else throw_at "Expected function name after 'fun' at position " s1
      | None => throw_at "Expected function name after 'fun' at position " s1
      end
  end.

Definition parseClassDeclaration_body (s : pstate) : result node :=
  match currentToken s with
  | None => Throw (null_read "start") s  (* not reached: called at 'class' *)
  | Some startToken =>
      let s1 := nextToken s in                               (* skip 'class' *)
      match currentToken s1 with
      | Some nameToken =>
          if token_type_eqb (tok_type nameToken) IDENTIFIER then
            let s2 := nextToken s1 in
            if negb (at_value "{" s2)
            then throw_at "Expected '{' to start class body at position " s2
            else
              let* (body, s3) := parseBlock s2 in
              Ok (ClassDeclaration
                    (Identifier (tok_value nameToken)
                       (tok_start nameToken) (tok_end nameToken))
                    body
                    (tok_start startToken) (end_at s3 startToken)) s3
          else throw_at "Expected class name after 'class' at position " s1
      | None => throw_at "Expected class name after 'class' at position " s1
      end
  end.

End StatementBodies.

Fixpoint parseStatement (fuel : nat) (s : pstate) {struct fuel}
  : result (option node) :=
  match fuel with
  | 0 => OutOfFuel
  | S fuel' =>
      parseStatement_body fuel' (parseIfStatement fuel') (parseWhileStatement fuel')
        (parseForStatement fuel') (parseFunctionDeclaration fuel')
        (parseClassDeclaration fuel') s
  end
with parseBlock (fuel : nat) (s : pstate) {struct fuel} : result node :=
  match fuel with
  | 0 => OutOfFuel
  | S fuel' => parseBlock_body (parseStatement fuel') (parseBlock_loop fuel') s
  end
with parseBlock_loop (fuel : nat) (body : list (option node)) (s : pstate)
  {struct fuel} : result (list (option node)) :=
  match fuel with
  | 0 => OutOfFuel
  | S fuel' =>
      parseBlock_loop_body (parseStatement fuel') (parseBlock_loop fuel') body s
  end
with parseIfStatement (fuel : nat) (s : pstate) {struct fuel} : result node :=
  match fuel with
  | 0 => OutOfFuel
  | S fuel' =>
      parseIfStatement_body fuel' (parseBlock fuel') (parseIfStatement fuel') s
  end
with parseWhileStatement (fuel : nat) (s : pstate) {struct fuel} : result node :=
  match fuel with
  | 0 => OutOfFuel
  | S fuel' => parseWhileStatement_body fuel' (parseBlock fuel') s
  end
with parseForStatement (fuel : nat) (s : pstate) {struct fuel} : result node :=
  match fuel with
  | 0 => OutOfFuel
  | S fuel' => parseForStatement_body fuel' (parseBlock fuel') s
  end
with parseFunctionDeclaration (fuel : nat) (s : pstate) {struct fuel} : result node :=
  match fuel with
  | 0 => OutOfFuel
  | S fuel' => parseFunctionDeclaration_body (parseBlock fuel') s
  end
with parseClassDeclaration (fuel : nat) (s : pstate) {struct fuel} : result node :=
  match fuel with
  | 0 => OutOfFuel
  | S fuel' => parseClassDeclaration_body (parseBlock fuel') s
  end.

(** The loop of parse: [while (this.position < this.tokens.length) ...]. *)
Fixpoint parse_loop (fuel : nat) (statements : list node) (s : pstate)
  : result (list node) :=
  match fuel with
  | 0 => OutOfFuel
  | S fuel' =>
      if position s <? length tokens then
        let* (stmt, s1) := parseStatement fuel' s in
        parse_loop fuel'
          match stmt with
          | Some n => statements ++ [n]
          | None => statements
          end s1
      else Ok statements s
  end.

End Parser.

(** The [try] block of parseStatement when parseStatement runs with fuel
    [S fuel]. *)
Definition statement_try (input : string) (tokens : list token) (fuel : nat)
    (token : token) (s : pstate) : result (option node) :=
  statement_attempt input tokens fuel
    (parseIfStatement input tokens fuel) (parseWhileStatement input tokens fuel)
    (parseForStatement input tokens fuel) (parseFunctionDeclaration input tokens fuel)
    (parseClassDeclaration input tokens fuel) token s.

(** The object returned by parse; [prog_errors] is absent ([undefined]) on
    the early return for a blank text. *)
Record program : Type := Program {
  prog_body : list node;
  prog_errors : option (list syntaxError)
}.

Inductive outcome (A : Type) : Type :=
| Returned (a : A)
| Thrown (msg : string)       (* an exception leaves the function *)
| Diverged.                   (* still running when the fuel is used up *)
Arguments Returned {A} a.
Arguments Thrown {A} msg.
Arguments Diverged {A}.

(** [!input || input.trim() === '']: trim removes exactly the characters
    matched by [\s]. *)
Fixpoint blank (input : string) : bool :=
  match input with
  | EmptyString => true
  | String c rest => Char.is_space c && blank rest
  end.

(** parse on a fresh parser object ([position = 0], [errors = []]), as
    analyzeTypeSafety calls it. *)
Definition parse (fuel : nat) (input : string) : outcome program :=
  if blank input then Returned (Program [] None)
  else
    match tokenize input with
    | TokenizeError msg => Thrown msg
    | TokenizeFuel => Diverged
    | Tokens tokens =>
        match parse_loop input tokens fuel [] (PState 0 []) with
        | Ok statements s => Returned (Program statements (Some (errors s)))
        | Throw msg _ => Thrown msg
        | OutOfFuel => Diverged
        end
    end.

(* ================================================================== *)
(** * The type checker (class TypeChecker) *)

Record text_position : Type := Position { line : nat; character : nat }.

Record text_range : Type := Range { range_start : text_position; range_end : text_position }.

Record diagnostic : Type := Diagnostic {
  severity : nat;
  range : text_range;
  diag_message : string
}.

(** [for (let i = 0; i < index && i < text.length; i++) ...] *)
Fixpoint position_scan (text : string) (index line char : nat) : text_position :=
  match index, text with
  | S index', String c rest =>
      if Ascii.eqb c Char.newline
      then position_scan rest index' (S line) 0
      else position_scan rest index' line (S char)
  | _, _ => Position line char
  end.

(** getPositionFromIndex of typeChecker.js and of server.js (the two are the
    same function); [document] stands for [document.getText()]. *)
Definition getPositionFromIndex (document : string) (index : nat) : text_position :=
  position_scan document index 0 0.

(** The mutable fields of a TypeChecker object. *)
Record cstate : Type := CState {
  symbolTable : gmap string string;
  diagnostics : list diagnostic       (* this.errors *)
}.

(** [x || 'any'] on a string or [undefined]. *)
Definition or_any (x : option string) : string :=
  match x with
  | Some t => if t =s "" then "any" else t
  | None => "any"
  end.

(** [raw && raw.includes('.')] *)
Fixpoint includes_dot (raw : string) : bool :=
  match raw with
  | EmptyString => false
  | String c rest => Ascii.eqb c "."%char || includes_dot rest
  end.

(** [raw && (raw.startsWith(dq) || raw.startsWith(sq))] for the two quote
    characters. *)
Definition starts_with_quote (raw : string) : bool :=
  match raw with
  | EmptyString => false
  | String c _ => Char.is_quote c
  end.

Definition comparison_operators : list string :=
  ["=="; "!="; "<"; "<="; ">"; ">="; "and"; "or"].

Definition arithmetic_operators : list string := ["+"; "-"; "*"; "/"; "%"].

Fixpoint inferType (table : gmap string string) (n : node) : string :=
  match n with
  | Literal value raw _ _ =>
      match value with
      | LNumber digits =>
          if includes_dot raw then "float"
          else if Number_isInteger digits then "int" else "float"
      | LString _ => if starts_with_quote raw then "string" else "any"
      | LBoolean _ => "bool"
      | LNull => "any"                    (* nil can be assigned to any type *)
      end
  | ArrayExpression _ _ _ => "array"
  | ObjectExpression _ _ _ => "object"
  | Identifier name _ _ => or_any (table !! name)
  | BinaryExpression operator lhs rhs _ _
  | LogicalExpression operator lhs rhs _ _ =>
      if includes comparison_operators operator then "bool"
      else if includes arithmetic_operators operator then
        let leftType := or_any (Some (inferType table lhs)) in
        let rightType := or_any (Some (inferType table rhs)) in
        if (leftType =s "int") && (rightType =s "int") && negb (operator =s "/")
        then "int"
        else "float"
      else "any"
  | UnaryExpression operator argument _ _ =>
      if operator =s "not" then "bool"
      else or_any (Some (inferType table argument))
  | CallExpression _ _ _ _ => "any"
  | MemberExpression _ _ _ _ => "any"
  | _ => "any"
  end.

Definition isCompatibleType (expected actual : string) : bool :=
  if expected =s actual then true
  else if (expected =s "any") || (actual =s "any") then true
  else if (expected =s "float") && (actual =s "int") then true
  else if actual =s "nil" then true
  else false.

Definition set_type (name type : string) (st : cstate) : cstate :=
  CState (<[name := type]> (symbolTable st)) (diagnostics st).

Definition push_diagnostic (d : diagnostic) (st : cstate) : cstate :=
  CState (symbolTable st) (diagnostics st ++ [d]).

Definition node_range (document : string) (n : node) : text_range :=
  Range (getPositionFromIndex document (start_of n))
        (getPositionFromIndex document (end_of n)).

Definition declaration_mismatch (document declaredType actualType name : string)
    (init : node) : diagnostic :=
  Diagnostic 1 (node_range document init)
    ("Type mismatch: expected " +:+ declaredType +:+ " but got " +:+ actualType
       +:+ " for variable '" +:+ name +:+ "'").

Definition assignment_mismatch (document declaredType actualType name : string)
    (rhs : node) : diagnostic :=
  Diagnostic 1 (node_range document rhs)
    ("Type mismatch: expected " +:+ declaredType +:+ " but got " +:+ actualType
       +:+ " when assigning to '" +:+ name +:+ "'").

(** The typed branch of checkVariableDeclaration, which does not recurse. *)
Definition checkTypedDeclaration (document declaredType name : string)
    (init : option node) (st : cstate) : cstate :=
  match init with
  | Some i =>
      let actualType := inferType (symbolTable st) i in
      if negb (isCompatibleType declaredType actualType)
      then push_diagnostic (declaration_mismatch document declaredType actualType name i) st
      else set_type name declaredType st
  | None => set_type name declaredType st
  end.

(** The comparison made by checkAssignmentExpression before it recurses into
    the rhs-hand side. *)
Definition checkAssignedType (document varName : string) (rhs : node)
    (st : cstate) : cstate :=
  match symbolTable st !! varName with
  | Some declaredType =>
      if negb (declaredType =s "") && negb (declaredType =s "any") then
        let actualType := inferType (symbolTable st) rhs in
        if negb (isCompatibleType declaredType actualType)
        then push_diagnostic
               (assignment_mismatch document declaredType actualType varName rhs) st
        else st
      else st
  | None => st
  end.

(** checkNode with the methods it dispatches to.  The [default] case,
    checkChildren, visits the object- and array-valued fields in the order
    the parser writes them; string, number, boolean and [null] fields, the
    [params] strings and the [key] token of a [Property] contribute
    nothing. *)
Fixpoint checkNode (document : string) (n : node) (st : cstate) {struct n} : cstate :=
  let each := fold_left (fun st' child => checkNode document child st') in
  let optional (child : option node) (st' : cstate) :=
    match child with
    | Some c => checkNode document c st'
    | None => st'
    end in
  match n with
  (* checkVariableDeclaration *)
  | VariableDeclaration declaredType name init _ _ =>
      match declaredType with
      | Some t =>
          if t =s "" then
            optional init (if name =s "" then st else set_type name "any" st)
          else checkTypedDeclaration document t name init st
      | None =>
          optional init (if name =s "" then st else set_type name "any" st)
      end
  (* checkAssignmentExpression *)
  | AssignmentExpression _ lhs rhs _ _ =>
      match lhs with
      | Identifier varName _ _ =>
          checkNode document rhs (checkAssignedType document varName rhs st)
      | _ => st
      end
  (* checkBinaryExpression *)
  | BinaryExpression _ lhs rhs _ _ =>
      checkNode document rhs (checkNode document lhs st)
  (* checkIfStatement *)
  | IfStatement test consequent alternate _ _ =>
      optional alternate (checkNode document consequent (checkNode document test st))
  (* checkWhileStatement *)
  | WhileStatement test body _ _ =>
      checkNode document body (checkNode document test st)
  (* checkForStatement *)
  | ForStatement init test update body _ _ =>
      checkNode document body (optional update (optional test (optional init st)))
  | ExpressionStatement expression _ _ => checkNode document expression st
  (* checkCallExpression *)
  | CallExpression callee arguments _ _ =>
      each arguments (checkNode document callee st)
  | ReturnStatement argument _ _ => optional argument st
  (* default: checkChildren *)
  | Identifier _ _ _ => st
  | Literal _ _ _ _ => st
  | LogicalExpression _ lhs rhs _ _ =>
      checkNode document rhs (checkNode document lhs st)
  | UnaryExpression _ argument _ _ => checkNode document argument st
  | MemberExpression object property _ _ =>
      checkNode document property (checkNode document object st)
  | ArrayExpression elements _ _ => each elements st
  | ObjectExpression properties _ _ => each properties st
  | Property _ value _ _ => checkNode document value st
  | BlockStatement body =>
      fold_left (fun st' child => optional child st') body st
  | FunctionDeclaration id _ body _ _ =>
      checkNode document body (checkNode document id st)
  | ClassDeclaration id body _ _ =>
      checkNode document body (checkNode document id st)
  end.

Definition checkVariableDeclaration (document : string) (declaredType : option string)
    (name : string) (init : option node) (st : cstate) : cstate :=
  checkNode document (VariableDeclaration declaredType name init 0 0) st.

Definition checkAssignmentExpression (document : string) (left right : node)
    (st : cstate) : cstate :=
  checkNode document (AssignmentExpression "=" left right 0 0) st.

(** check: [errors] is the caller's array, which the checker appends to; the
    symbol table starts empty. *)
Definition check_from (document : string) (body : list node) (st : cstate) : cstate :=
  fold_left (fun st' n => checkNode document n st') body st.

Definition check (ast : program) (document : string) (errs : list diagnostic)
  : list diagnostic :=
  diagnostics (check_from document (prog_body ast) (CState ∅ errs)).

(* ================================================================== *)
(** * The validation entry point (server.js, analyzeTypeSafety) *)

Definition syntax_diagnostic (document : string) (e : syntaxError) : diagnostic :=
  Diagnostic 1
    (Range (getPositionFromIndex document (err_start e))
           (getPositionFromIndex document (err_end e)))
    (message e).

(** [None] when the run does not finish within the fuel.  An exception from
    parse is caught and logged; [errors] is still empty then. *)
Definition analyzeTypeSafety (fuel : nat) (text : string) : option (list diagnostic) :=
  match parse fuel text with
  | Returned result =>
      let errs :=
        match prog_errors result with
        | Some es => map (syntax_diagnostic text) es
        | None => []
        end in
      Some (check result text errs)
  | Thrown _ => Some []
  | Diverged => None
  end.

(* ================================================================== *)
(** * Vocabulary of the properties

    The predicates and relations in which the lemmas and theorems below are
    stated. *)

(** ** Tokenizer *)

(** Where the main loop goes on after one round, unless the round throws. *)
Definition step_next (st : scan_step) : option nat :=
  match st with
  | Skip next | Emit _ next => Some next
  | Abort _ => None
  end.

(** [frontier tokens p]: the largest end offset among the first [p] tokens
    (0 when there is none). *)
Definition frontier (tokens : list token) (p : nat) : nat :=
  list_max (map tok_end (take p tokens)).

(** Tokens are non-empty and lie one after the other in the text. *)
Definition ordered (tokens : list token) : Prop :=
  forall p t, tokens !! p = Some t ->
    frontier tokens p <= tok_start t /\ tok_start t < tok_end t.

(** The positions at which the main loop of tokenize starts a round. *)
Inductive reaches (input : string) : nat -> Prop :=
| reaches_start : reaches input 0
| reaches_next (current : nat) (char : ascii) (next : nat) :
    reaches input current ->
    char_at input current = Some char ->
    step_next (tokenize_step input current char) = Some next ->
    reaches input next.

(** A string literal opens at [start] and the scan for its closing quote
    runs to the end of the text. *)
Definition unterminated_string_at (input : string) (start : nat) : Prop :=
  reaches input start /\
  exists quote, char_at input start = Some quote /\ Char.is_quote quote = true /\
    len input <= scan_string input quote (len input - start) (S start).

Definition unterminated_message (start : nat) : string :=
  "Unterminated string at position " +:+ show start.

(** *** Lexical items, as the rules of the tokenizer describe them

    The definitions below say where the lexical items of a text lie
    without running the tokenizer: they follow the eight rules of the
    tokenizer one by one and are relations on offsets of the text. *)

(** The characters at [i] and [i + 1] are [a] and [b]. *)
Definition pair_at (input : string) (i : nat) (a b : ascii) : Prop :=
  char_at input i = Some a /\ char_at input (S i) = Some b.

(** The characters from [i] up to [j] all satisfy [p], and the character
    at [j] does not, when the text goes that far: [i .. j) is the longest
    run of [p] from [i]. *)
Definition longest_run (input : string) (p : ascii -> bool) (i j : nat) : Prop :=
  i <= j
  /\ (forall m, i <= m < j -> exists c, char_at input m = Some c /\ p c = true)
  /\ (forall c, char_at input j = Some c -> p c = false).

(** The inside of a string literal quoted by [quote]: from [i] up to [j] no
    character is the quote, except after a backslash, which takes the next
    character with it whatever it is. *)
Inductive string_body (input : string) (quote : ascii) : nat -> nat -> Prop :=
| body_end (i : nat) : string_body input quote i i
| body_char (i j : nat) (c : ascii) :
    char_at input i = Some c -> c <> quote -> c <> Char.backslash ->
    string_body input quote (S i) j ->
    string_body input quote i j
| body_escape (i j : nat) :
    char_at input i = Some Char.backslash ->
    string_body input quote (i + 2) j ->
    string_body input quote i j.

(** The pairs of characters that open a comment, and those that make a
    two-character operator. *)
Definition comment_pairs : list (ascii * ascii) :=
  [ ("/", "/"); ("/", "*") ]%char.

Definition operator_pairs : list (ascii * ascii) :=
  [ ("=", "="); ("!", "="); (">", "="); ("<", "="); ("&", "&"); ("|", "|") ]%char.

(** [lexeme input i j]: a lexical item (white space, a comment or a token)
    starts at offset [i], and what follows it starts at [j]. *)
Inductive lexeme (input : string) : nat -> nat -> Prop :=
| lexeme_space (i : nat) (c : ascii) :                       (* rule 1 *)
    char_at input i = Some c -> Char.is_space c = true ->
    lexeme input i (S i)
| lexeme_line_comment (i j : nat) :                          (* rule 2 *)
    pair_at input i "/" "/" ->
    longest_run input (fun c => negb (Ascii.eqb c Char.newline)) i j ->
    lexeme input i j
| lexeme_block_comment (i k : nat) :                         (* rule 3, closed *)
    pair_at input i "/" "*" ->
    i + 2 <= k -> pair_at input k "*" "/" ->
    (forall m, i + 2 <= m < k -> ~ pair_at input m "*" "/") ->
    lexeme input i (k + 2)
| lexeme_open_comment (i : nat) :                            (* rule 3, unterminated *)
    pair_at input i "/" "*" ->
    (forall m, i + 2 <= m -> ~ pair_at input m "*" "/") ->
    lexeme input i (len input)
| lexeme_string (i k : nat) (quote : ascii) :                (* rule 4, closed *)
    char_at input i = Some quote -> Char.is_quote quote = true ->
    string_body input quote (S i) k -> char_at input k = Some quote ->
    lexeme input i (S k)
| lexeme_number (i j : nat) (c : ascii) :                    (* rule 5 *)
    char_at input i = Some c -> Char.is_digit c = true ->
    longest_run input Char.is_digit_or_dot i j ->
    lexeme input i j
| lexeme_word (i j : nat) (c : ascii) :                      (* rule 6 *)
    char_at input i = Some c -> Char.is_ident_start c = true ->
    longest_run input Char.is_ident_char i j ->
    lexeme input i j
| lexeme_operator (i : nat) (a b : ascii) :                  (* rule 7 *)
    pair_at input i a b -> In (a, b) operator_pairs ->
    lexeme input i (i + 2)
| lexeme_symbol (i : nat) (c : ascii) :                      (* rule 8 *)
    char_at input i = Some c ->
    Char.is_space c = false -> Char.is_quote c = false ->
    Char.is_digit c = false -> Char.is_ident_start c = false ->
    (forall b, char_at input (S i) = Some b ->
       ~ In (c, b) (comment_pairs ++ operator_pairs)) ->
    lexeme input i (S i).

(** The offsets at which a lexical item starts, reading the text from its
    first character. *)
Inductive begins (input : string) : nat -> Prop :=
| begins_text : begins input 0
| begins_next (i j : nat) :
    begins input i -> lexeme input i j -> begins input j.

(** The text contains a string literal that never closes: a quote stands
    where a lexical item starts, and the inside of the string runs to the
    end of the text (or past it, when the last character is a backslash). *)
Definition string_never_closes (input : string) (start : nat) : Prop :=
  begins input start /\
  exists quote, char_at input start = Some quote /\ Char.is_quote quote = true /\
    exists k, string_body input quote (S start) k /\ len input <= k.

(** ** Syntax trees *)

Definition is_BlockStatement (n : node) : bool :=
  match n with BlockStatement _ => true | _ => false end.

(** A node other than a block carries [start] and [end], in this order; a
    block carries neither. *)
Definition offsets_in_order (n : node) : bool :=
  match node_start n, node_end n with
  | Some a, Some b => a <=? b
  | None, None => is_BlockStatement n
  | _, _ => false
  end.

(** The type annotation of a declaration, when present, is a type keyword. *)
Definition declared_type_known (n : node) : bool :=
  match n with
  | VariableDeclaration (Some t) _ _ _ _ => isTypeKeyword t
  | _ => true
  end.

(** The trees parseExpression builds: expression nodes all the way down,
    with [Property] nodes directly below an [ObjectExpression] only. *)
Fixpoint expression (n : node) : bool :=
  match n with
  | Identifier _ _ _ | Literal _ _ _ _ => true
  | BinaryExpression _ l r _ _ | LogicalExpression _ l r _ _ =>
      expression l && expression r
  | UnaryExpression _ a _ _ => expression a
  | CallExpression c args _ _ => expression c && forallb expression args
  | MemberExpression o f _ _ => expression o && expression f
  | ArrayExpression es _ _ => forallb expression es
  | ObjectExpression ps _ _ =>
      forallb (fun p => match p with
                        | Property _ v _ _ => expression v
                        | _ => false
                        end) ps
  | _ => false
  end.

Definition property (n : node) : bool :=
  match n with
  | Property _ v _ _ => expression v
  | _ => false
  end.

(** The target of an assignment is an identifier and its source an
    expression. *)
Definition assignment_shape (n : node) : bool :=
  match n with
  | AssignmentExpression _ l r _ _ => is_Identifier l && expression r
  | _ => true
  end.

(** What the parser guarantees of each node it builds. *)
Definition sound (n : node) : bool :=
  offsets_in_order n && declared_type_known n && assignment_shape n.

(** [all_nodes p n]: [p] holds of [n] and of every node below it. *)
Fixpoint all_nodes (p : node -> bool) (n : node) : bool :=
  let optional (child : option node) :=
    match child with
    | Some c => all_nodes p c
    | None => true
    end in
  p n &&
  match n with
  | Identifier _ _ _ | Literal _ _ _ _ => true
  | BinaryExpression _ l r _ _ | LogicalExpression _ l r _ _ =>
      all_nodes p l && all_nodes p r
  | UnaryExpression _ a _ _ => all_nodes p a
  | CallExpression c args _ _ => all_nodes p c && forallb (all_nodes p) args
  | MemberExpression o f _ _ => all_nodes p o && all_nodes p f
  | ArrayExpression es _ _ => forallb (all_nodes p) es
  | ObjectExpression ps _ _ => forallb (all_nodes p) ps
  | Property _ v _ _ => all_nodes p v
  | VariableDeclaration _ _ init _ _ => optional init
  | IfStatement t c a _ _ => all_nodes p t && all_nodes p c && optional a
  | WhileStatement t b _ _ => all_nodes p t && all_nodes p b
  | ForStatement i t u b _ _ => optional i && optional t && optional u && all_nodes p b
  | BlockStatement body => forallb optional body
  | FunctionDeclaration f _ b _ _ => all_nodes p f && all_nodes p b
  | ClassDeclaration f b _ _ => all_nodes p f && all_nodes p b
  | ReturnStatement a _ _ => optional a
  | ExpressionStatement e _ _ => all_nodes p e
  | AssignmentExpression _ l r _ _ => all_nodes p l && all_nodes p r
  end.

(** A node of kind [kind], sound throughout, lying between the offsets [lo]
    and [hi]. *)
Definition spans (kind : node -> bool) (lo hi : nat) (n : node) : Prop :=
  kind n = true /\ all_nodes sound n = true
  /\ lo <= start_of n /\ start_of n <= end_of n /\ end_of n <= hi.

Definition sound_list (kind : node -> bool) (l : list node) : Prop :=
  Forall (fun n => kind n = true /\ all_nodes sound n = true) l.

(** [P] holds of an optional child when there is one. *)
Definition on_option (P : node -> Prop) (o : option node) : Prop :=
  match o with
  | Some n => P n
  | None => True
  end.

(** ** Parser runs *)

(** What a run from state [s] guarantees: the expression and statement
    parsers only move forward, and an expression parser leaves [errors]
    alone. *)
Definition post {A : Type} (Q : A -> pstate -> Prop) (s : pstate) (r : result A) : Prop :=
  match r with
  | Ok a s' => errors s' = errors s /\ position s <= position s' /\ Q a s'
  | Throw _ s' => errors s' = errors s /\ position s <= position s'
  | OutOfFuel => True
  end.

(** The guarantees of the expression parsers, by the shape of the function:
    a parser of an expression or of an object property, one that extends an
    expression already parsed, and a loop that collects nodes. *)
Definition expression_spec (tokens : list token) (f : pstate -> result node) : Prop :=
  forall s,
    post (fun n s' =>
            spans expression (frontier tokens (position s)) (frontier tokens (position s')) n)
      s (f s).

Definition property_spec (tokens : list token) (f : pstate -> result node) : Prop :=
  forall s,
    post (fun n s' =>
            spans property (frontier tokens (position s)) (frontier tokens (position s')) n)
      s (f s).

Definition continuation_spec (tokens : list token) (f : node -> pstate -> result node)
  : Prop :=
  forall lo e s, spans expression lo (frontier tokens (position s)) e ->
    post (fun n s' => spans expression lo (frontier tokens (position s')) n) s (f e s).

Definition list_spec (tokens : list token) (kind : node -> bool)
    (f : list node -> pstate -> result (list node)) : Prop :=
  forall l s, sound_list kind l -> post (fun l' _ => sound_list kind l') s (f l s).

(** What a statement parser guarantees: it only moves forward; [errors] may
    grow. *)
Definition post_statement {A : Type} (Q : A -> pstate -> Prop) (s : pstate)
    (r : result A) : Prop :=
  match r with
  | Ok a s' => position s <= position s' /\ Q a s'
  | Throw _ s' => position s <= position s'
  | OutOfFuel => True
  end.

Definition sound_option (o : option node) : Prop :=
  forall n, o = Some n -> all_nodes sound n = true.

Definition statement_spec (f : pstate -> result node) : Prop :=
  forall s, post_statement (fun n _ => all_nodes sound n = true) s (f s).

Definition optional_statement_spec (f : pstate -> result (option node)) : Prop :=
  forall s, post_statement (fun o _ => sound_option o) s (f s).

Definition block_loop_spec
    (f : list (option node) -> pstate -> result (list (option node))) : Prop :=
  forall body s, Forall sound_option body ->
    post_statement (fun body' _ => Forall sound_option body') s (f body s).

(** [recovers tokens s s']: starting at [s], tokens are dropped one by one
    until a [;] (which is consumed), a brace (which is left in place), the
    start of a statement (left in place) or the end of the tokens; [s'] is
    the state reached.  Nothing else changes. *)
Inductive recovers (tokens : list token) : pstate -> pstate -> Prop :=
| recovers_exhausted (s : pstate) :
    currentToken tokens s = None -> recovers tokens s s
| recovers_semicolon (s : pstate) (t : token) :
    currentToken tokens s = Some t -> tok_value t = ";" ->
    recovers tokens s (PState (S (position s)) (errors s))
| recovers_brace (s : pstate) (t : token) :
    currentToken tokens s = Some t -> tok_value t = "{" \/ tok_value t = "}" ->
    recovers tokens s s
| recovers_statement (s : pstate) (t : token) :
    currentToken tokens s = Some t -> isStatementStart t = true ->
    recovers tokens s s
| recovers_skip (s s' : pstate) (t : token) :
    currentToken tokens s = Some t ->
    tok_value t <> ";" -> tok_value t <> "{" -> tok_value t <> "}" ->
    isStatementStart t = false ->
    recovers tokens (PState (S (position s)) (errors s)) s' ->
    recovers tokens s s'.

(** ** Type checker *)

Definition infer_binary (table : gmap string string) (op : string) (l r : node)
  : string :=
  if includes comparison_operators op then "bool"
  else if includes arithmetic_operators op then
    if (or_any (Some (inferType table l)) =s "int")
       && (or_any (Some (inferType table r)) =s "int") && negb (op =s "/")
    then "int" else "float"
  else "any".

Definition type_tags : list string :=
  ["int"; "float"; "string"; "bool"; "array"; "object"; "any"].

(** Every entry of the symbol table is one of the seven tags. *)
Definition tagged (table : gmap string string) : Prop :=
  forall name t, table !! name = Some t -> In t type_tags.

(** isCompatibleType without its last test, [actual === 'nil']. *)
Definition isCompatibleType_without_nil (expected actual : string) : bool :=
  if expected =s actual then true
  else if (expected =s "any") || (actual =s "any") then true
  else if (expected =s "float") && (actual =s "int") then true
  else false.

Definition keeps_tagged (document : string) (n : node) : Prop :=
  all_nodes declared_type_known n = true ->
  forall st, tagged (symbolTable st) -> tagged (symbolTable (checkNode document n st)).

(** ** Tokens and offsets *)

(** What the first character of a token says about its type. *)
Definition token_class (c : ascii) (t : token) : Prop :=
  match tok_type t with
  | NUMBER => Char.is_digit c = true
  | STRING => Char.is_quote c = true
  | IDENTIFIER => Char.is_ident_start c = true /\ isKeyword (tok_value t) = false
  | KEYWORD => Char.is_ident_start c = true /\ isKeyword (tok_value t) = true
  | OPERATOR | SYMBOL =>
      Char.is_space c = false /\ Char.is_quote c = false
      /\ Char.is_digit c = false /\ Char.is_ident_start c = false
  end.

(** The text of a token is the slice of the source it covers, except for
    the operators [&&] and [||], which are renamed. *)
Definition token_text (input : string) (t : token) : Prop :=
  tok_value t = slice input (tok_start t) (tok_end t)
  \/ (tok_type t = OPERATOR /\ tok_value t = "and"
      /\ slice input (tok_start t) (tok_end t) = "&&")
  \/ (tok_type t = OPERATOR /\ tok_value t = "or"
      /\ slice input (tok_start t) (tok_end t) = "||").

(** The number of line feeds in a text. *)
Fixpoint newlines (text : string) : nat :=
  match text with
  | EmptyString => 0
  | String c rest => (if Ascii.eqb c Char.newline then 1 else 0) + newlines rest
  end.

(** ** Outcomes of parser runs *)

(** What holds of the state in which a run ends: [Pok] when it returns,
    [Pthrow] when it throws. *)
Definition outcome_in {A : Type} (Pok Pthrow : pstate -> Prop) (r : result A) : Prop :=
  match r with
  | Ok _ s => Pok s
  | Throw _ s => Pthrow s
  | OutOfFuel => True
  end.

(** [s'] is [s] after some tokens (maybe none) were consumed. *)
Definition forward (s s' : pstate) : Prop :=
  position s <= position s' /\ errors s' = errors s.

(** [s'] is [s] after at least one token was consumed. *)
Definition onward (s s' : pstate) : Prop :=
  position s < position s' /\ errors s' = errors s.

(** The parser never moves back: it consumes at least one token when it
    returns. *)
Definition advances (f : pstate -> result node) : Prop :=
  forall s, outcome_in (onward s) (forward s) (f s).

Definition steady {A : Type} (f : pstate -> result A) : Prop :=
  forall s, outcome_in (forward s) (forward s) (f s).

(** A recorded range lies inside the text, its start not after its end. *)
Definition error_in_text (input : string) (e : syntaxError) : Prop :=
  err_start e <= err_end e /\ err_end e <= String.length input.

(** Every error recorded so far has its range inside the text. *)
Definition errors_in_text (input : string) (s : pstate) : Prop :=
  Forall (error_in_text input) (errors s).

(** The parser stands at the token number [p0] or later; it is past it. *)
Definition reached (p0 : nat) (s : pstate) : Prop := p0 <= position s.
Definition passed (p0 : nat) (s : pstate) : Prop := p0 < position s.

(** A run that ends, in a state of which [Pok] or [Pthrow] holds. *)
Definition finishes {A : Type} (Pok Pthrow : pstate -> Prop) (r : result A) : Prop :=
  match r with
  | Ok _ s => Pok s
  | Throw _ s => Pthrow s
  | OutOfFuel => False
  end.

(** The number of tokens not yet consumed. *)
Definition remaining (tokens : list token) (s : pstate) : nat :=
  length tokens - position s.

(** The fuel that lets a parser function run to its end from [s]: ten units
    for each token left, and [extra]. *)
Definition enough (tokens : list token) (extra fuel : nat) (s : pstate) : Prop :=
  10 * remaining tokens s + extra <= fuel.

Definition level_extra (lv : level) : nat :=
  match lv with
  | LOr => 9
  | LAnd => 8
  | LEquality => 7
  | LRelational => 6
  | LAdditive => 5
  | LMultiplicative => 4
  end.

(** [s'] is not before [s] in the token list (the error list may differ). *)
Definition ahead (s s' : pstate) : Prop := position s <= position s'.

(** No token is a brace. *)
Definition brace_free (tokens : list token) : Prop :=
  forall p t, tokens !! p = Some t -> tok_value t <> "{" /\ tok_value t <> "}".

(** [if (stmt)]: what parseStatement returned is a node, not [null]. *)
Definition is_node (o : option node) : bool :=
  match o with
  | Some _ => true
  | None => false
  end.

(** The statements of a block in braces: from the state [s] on,
    parseStatement is called again and again, as long as there is a token
    and it is not a [}]; [results] is what the calls returned, in this
    order, and [s'] is the state in which the last of them left the
    parser. *)
Inductive block_run (input : string) (tokens : list token)
  : pstate -> list (option node) -> pstate -> Prop :=
| block_run_end (s : pstate) :
    at_other_than tokens "}" s = false ->
    block_run input tokens s [] s
| block_run_next (fuel : nat) (s : pstate) (stmt : option node) (s1 : pstate)
    (results : list (option node)) (s' : pstate) :
    at_other_than tokens "}" s = true ->
    parseStatement input tokens fuel s = Ok stmt s1 ->
    block_run input tokens s1 results s' ->
    block_run input tokens s (stmt :: results) s'.

(** ** Diagnostics *)

(** The diagnostics of the type checker. *)
Definition type_mismatch (d : diagnostic) : Prop :=
  severity d = 1
  /\ exists rest, diag_message d = "Type mismatch: expected " +:+ rest.

(** [st'] has the diagnostics of [st] and, after them, type mismatches. *)
Definition reports_after (st st' : cstate) : Prop :=
  exists new, diagnostics st' = diagnostics st ++ new /\ Forall type_mismatch new.

(** A node other than a declaration with a type annotation. *)
Definition untyped (n : node) : bool :=
  match n with
  | VariableDeclaration (Some _) _ _ _ _ => false
  | _ => true
  end.

(** Every variable tracked is tracked as [any]. *)
Definition all_any (table : gmap string string) : Prop :=
  forall name t, table !! name = Some t -> t = "any".

Definition stays_untyped (st st' : cstate) : Prop :=
  all_any (symbolTable st) ->
  all_any (symbolTable st') /\ diagnostics st' = diagnostics st.

(** ** Proof steps *)

(** An [Ok] or [Throw] outcome of an expression parser reached without a
    further call. *)
Ltac finish :=
  simpl; split; [first [reflexivity | congruence]|];
  first [split; [simpl; lia|] | simpl; lia].

(** The same for a statement parser. *)
Ltac finish_statement := simpl; first [split; [simpl; lia|] | simpl; lia].

(** A goal about a freshly built node, from the boolean facts about its
    parts. *)
Ltac built :=
  cbv beta in *; unfold spans; simpl;
  repeat match goal with H : _ = true |- _ => rewrite H end;
  unfold sound, offsets_in_order; simpl;
  repeat match goal with H : _ = true |- _ => rewrite H end;
  simpl; repeat split; auto; try lia.

(* ================================================================== *)
(** * Properties of the tokenizer *)

Section TokenizerFacts.

Variable input : string.

Lemma get_Some_lt (i : nat) (s : string) (c : ascii) :
  String.get i s = Some c -> i < String.length s.
Proof.
  revert i; induction s as [|d s IH]; intros [|i] H; simpl in *; try discriminate.
  - lia.
  - apply IH in H. lia.
Qed.

Lemma get_None_ge (i : nat) (s : string) :
  String.get i s = None -> String.length s <= i.
Proof.
  revert i; induction s as [|d s IH]; intros [|i] H; simpl in *; try discriminate.
  - lia.
  - lia.
  - apply IH in H. lia.
Qed.

Lemma char_at_lt (i : nat) (c : ascii) : char_at input i = Some c -> i < len input.
Proof. apply get_Some_lt. Qed.

Lemma scan_while_ge (p : ascii -> bool) (fuel current : nat) :
  current <= scan_while input p fuel current.
Proof.
  revert current; induction fuel as [|fuel IH]; intros current; simpl; [lia|].
  destruct (char_at input current) as [c|]; [|lia].
  destruct (p c); [|lia]. specialize (IH (S current)). lia.
Qed.

Lemma scan_while_first (p : ascii -> bool) (fuel current : nat) (c : ascii) :
  char_at input current = Some c -> p c = true ->
  current < scan_while input p (S fuel) current.
Proof.
  intros Hc Hp. simpl. rewrite Hc, Hp.
  pose proof (scan_while_ge p fuel (S current)). lia.
Qed.

(** With enough fuel the loop stops on its own condition. *)
Lemma scan_while_stop (p : ascii -> bool) (fuel current : nat) (c : ascii) :
  len input - current <= fuel ->
  char_at input (scan_while input p fuel current) = Some c -> p c = false.
Proof.
  revert current; induction fuel as [|fuel IH]; intros current Hf; simpl.
  - intros H. apply char_at_lt in H. lia.
  - destruct (char_at input current) as [d|] eqn:Hd.
    + destruct (p d) eqn:Hp.
      * apply IH. apply char_at_lt in Hd. lia.
      * rewrite Hd. intros [= <-]. exact Hp.
    + rewrite Hd. discriminate.
Qed.

Lemma scan_block_comment_ge (fuel current : nat) :
  current <= scan_block_comment input fuel current.
Proof.
  revert current; induction fuel as [|fuel IH]; intros current; simpl; [lia|].
  destruct (_ && _); [|lia]. specialize (IH (S current)). lia.
Qed.

Lemma scan_string_ge (quote : ascii) (fuel current : nat) :
  current <= scan_string input quote fuel current.
Proof.
  revert current; induction fuel as [|fuel IH]; intros current; simpl; [lia|].
  destruct (char_at input current) as [c|]; [|lia].
  destruct (Ascii.eqb c quote); [lia|].
  destruct (Ascii.eqb c Char.backslash).
  - specialize (IH (current + 2)). lia.
  - specialize (IH (S current)). lia.
Qed.

(** With enough fuel the string scan stops at the closing quote or at the
    end of the text. *)
Lemma scan_string_stop (quote : ascii) (fuel current : nat) :
  len input - current <= fuel ->
  scan_string input quote fuel current < len input ->
  char_at input (scan_string input quote fuel current) = Some quote.
Proof.
  revert current; induction fuel as [|fuel IH]; intros current Hf; simpl.
  - lia.
  - destruct (char_at input current) as [d|] eqn:Hd.
    + destruct (Ascii.eqb d quote) eqn:Hq.
      * intros _. apply Ascii.eqb_eq in Hq. congruence.
      * apply char_at_lt in Hd.
        destruct (Ascii.eqb d Char.backslash); apply IH; lia.
    + apply get_None_ge in Hd. unfold len. lia.
Qed.

Lemma is_digit_digit_or_dot (c : ascii) :
  Char.is_digit c = true -> Char.is_digit_or_dot c = true.
Proof. unfold Char.is_digit_or_dot. intros ->. reflexivity. Qed.

Lemma is_ident_start_char (c : ascii) :
  Char.is_ident_start c = true -> Char.is_ident_char c = true.
Proof. unfold Char.is_ident_char. intros ->. reflexivity. Qed.

(** Every round of the main loop moves forward, and a token covers
    exactly the characters the round consumed. *)
Lemma tokenize_step_progress (current : nat) (char : ascii) :
  char_at input current = Some char ->
  match tokenize_step input current char with
  | Skip next => current < next
  | Emit t next => tok_start t = current /\ tok_end t = next /\ current < next
  | Abort _ => True
  end.
Proof.
  intros Hc. pose proof (char_at_lt _ _ Hc) as Hlt.
  assert (Hfuel : len input - current = S (len input - current - 1)) by lia.
  unfold tokenize_step.
  destruct (Char.is_space char); [lia|].
  destruct (Ascii.eqb char Char.slash && char_is input (current + 1) Char.slash)
    eqn:Hline.
  { rewrite Hfuel. apply (scan_while_first _ _ _ char); [exact Hc|].
    apply andb_true_iff in Hline as [Hs _]. apply Ascii.eqb_eq in Hs. subst char.
    reflexivity. }
  destruct (Ascii.eqb char Char.slash && char_is input (current + 1) Char.star).
  { pose proof (scan_block_comment_ge (len input - current) (current + 2)). lia. }
  destruct (Char.is_quote char).
  { destruct (len input <=? _); [exact I|]. simpl.
    pose proof (scan_string_ge char (len input - current) (S current)). lia. }
  destruct (Char.is_digit char) eqn:Hd.
  { simpl. repeat split. rewrite Hfuel.
    apply (scan_while_first _ _ _ char); [exact Hc|].
    apply is_digit_digit_or_dot, Hd. }
  destruct (Char.is_ident_start char) eqn:Hi.
  { simpl. repeat split. rewrite Hfuel.
    apply (scan_while_first _ _ _ char); [exact Hc|].
    apply is_ident_start_char, Hi. }
  destruct (two_char_operator input char current); simpl; lia.
Qed.

Lemma tokenize_loop_total (fuel current : nat) (acc : list token) :
  len input - current < fuel ->
  tokenize_loop input fuel current acc <> TokenizeFuel.
Proof.
  revert current acc; induction fuel as [|fuel IH]; intros current acc Hf; [lia|].
  simpl. destruct (char_at input current) as [c|] eqn:Hc; [|discriminate].
  pose proof (tokenize_step_progress _ _ Hc) as Hp.
  pose proof (char_at_lt _ _ Hc).
  destruct (tokenize_step input current c) as [next|t next|msg].
  - apply IH. lia.
  - apply IH. lia.
  - discriminate.
Qed.

(** tokenize always finishes: it returns the tokens or throws. *)
Lemma tokenize_total : tokenize input <> TokenizeFuel.
Proof. apply tokenize_loop_total. lia. Qed.

End TokenizerFacts.

(** ** Token order *)

Lemma frontier_S (tokens : list token) (p : nat) (t : token) :
  tokens !! p = Some t ->
  frontier tokens (S p) = Nat.max (frontier tokens p) (tok_end t).
Proof.
  intros H. unfold frontier. rewrite (take_S_r _ _ _ H), map_app, list_max_app.
  simpl. lia.
Qed.

Lemma frontier_mono (tokens : list token) (p q : nat) :
  p <= q -> frontier tokens p <= frontier tokens q.
Proof.
  intros Hpq. unfold frontier.
  replace q with (p + (q - p)) by lia.
  rewrite <- take_take_drop, map_app, list_max_app. lia.
Qed.

Lemma frontier_app_l (l k : list token) (p : nat) :
  p <= length l -> frontier (l ++ k) p = frontier l p.
Proof. intros H. unfold frontier. rewrite take_app_le by exact H. reflexivity. Qed.

(** What the parser learns when it looks at the token at position [p]. *)
Lemma ordered_lookup (tokens : list token) (p : nat) (t : token) :
  ordered tokens -> tokens !! p = Some t ->
  frontier tokens p <= tok_start t /\ tok_start t < tok_end t
  /\ frontier tokens (S p) = tok_end t.
Proof.
  intros Hord H. destruct (Hord p t H) as [H1 H2].
  rewrite (frontier_S _ _ _ H). lia.
Qed.

Lemma ordered_nil : ordered [].
Proof. intros p t H. rewrite lookup_nil in H. discriminate. Qed.

Lemma ordered_snoc (acc : list token) (t : token) :
  ordered acc -> frontier acc (length acc) <= tok_start t ->
  tok_start t < tok_end t -> ordered (acc ++ [t]).
Proof.
  intros Hord Hf Ht p u Hu.
  destruct (Nat.lt_ge_cases p (length acc)) as [Hp|Hp].
  - rewrite lookup_app_l in Hu by exact Hp.
    rewrite frontier_app_l by lia. apply Hord, Hu.
  - rewrite lookup_app_r in Hu by exact Hp.
    destruct (p - length acc) as [|k] eqn:Hk; simpl in Hu; [|rewrite lookup_nil in Hu; discriminate].
    injection Hu as <-. assert (p = length acc) as -> by lia.
    rewrite frontier_app_l by lia. lia.
Qed.

Section TokenOrder.

Variable input : string.

Lemma tokenize_loop_ordered (fuel current : nat) (acc tokens : list token) :
  ordered acc -> frontier acc (length acc) <= current ->
  tokenize_loop input fuel current acc = Tokens tokens ->
  ordered tokens.
Proof.
  revert current acc; induction fuel as [|fuel IH]; intros current acc Hord Hf; simpl;
    [discriminate|].
  destruct (char_at input current) as [c|] eqn:Hc; [|intros [= <-]; exact Hord].
  pose proof (tokenize_step_progress _ _ _ Hc) as Hp.
  destruct (tokenize_step input current c) as [next|t next|msg]; [| |discriminate].
  - apply IH; [exact Hord|lia].
  - destruct Hp as (Hs & He & Hlt). apply IH.
    + apply ordered_snoc; [exact Hord|lia|lia].
    + rewrite length_app. simpl.
      replace (length acc + 1) with (S (length acc)) by lia.
      rewrite (frontier_S _ _ t).
      * rewrite frontier_app_l by lia. lia.
      * rewrite lookup_app_r by lia. rewrite Nat.sub_diag. reflexivity.
Qed.

(** The token sequence is strictly ordered by offset. *)
Lemma tokenize_ordered (tokens : list token) :
  tokenize input = Tokens tokens -> ordered tokens.
Proof.
  apply tokenize_loop_ordered; [apply ordered_nil|]. unfold frontier. simpl. lia.
Qed.

End TokenOrder.

(** ** The fatal tokenizer error *)

Section FatalError.

Variable input : string.

Lemma tokenize_step_abort (current : nat) (char : ascii) (msg : string) :
  tokenize_step input current char = Abort msg ->
  Char.is_quote char = true
  /\ len input <= scan_string input char (len input - current) (S current)
  /\ msg = unterminated_message current.
Proof.
  unfold tokenize_step.
  destruct (Char.is_space char); [discriminate|].
  destruct (Ascii.eqb char Char.slash && char_is input (current + 1) Char.slash);
    [discriminate|].
  destruct (Ascii.eqb char Char.slash && char_is input (current + 1) Char.star);
    [discriminate|].
  destruct (Char.is_quote char) eqn:Hq.
  - destruct (len input <=? _) eqn:Hle; [|discriminate].
    intros [= <-]. apply Nat.leb_le in Hle. auto.
  - destruct (Char.is_digit char); [discriminate|].
    destruct (Char.is_ident_start char); [discriminate|].
    destruct (two_char_operator input char current); discriminate.
Qed.

Lemma is_quote_not_space (c : ascii) :
  Char.is_quote c = true -> Char.is_space c = false.
Proof.
  unfold Char.is_quote. intros H. apply orb_true_iff in H as [H|H];
    apply Ascii.eqb_eq in H; subst c; reflexivity.
Qed.

Lemma is_quote_not_slash (c : ascii) :
  Char.is_quote c = true -> Ascii.eqb c Char.slash = false.
Proof.
  unfold Char.is_quote. intros H. apply orb_true_iff in H as [H|H];
    apply Ascii.eqb_eq in H; subst c; reflexivity.
Qed.

Lemma tokenize_step_unterminated (current : nat) (char : ascii) :
  Char.is_quote char = true ->
  len input <= scan_string input char (len input - current) (S current) ->
  tokenize_step input current char = Abort (unterminated_message current).
Proof.
  intros Hq Hle. unfold tokenize_step.
  rewrite (is_quote_not_space _ Hq), (is_quote_not_slash _ Hq), Hq. simpl.
  apply Nat.leb_le in Hle. rewrite Hle. reflexivity.
Qed.

Lemma tokenize_loop_error (fuel current : nat) (acc : list token) (msg : string) :
  reaches input current ->
  tokenize_loop input fuel current acc = TokenizeError msg ->
  exists start, unterminated_string_at input start /\ msg = unterminated_message start.
Proof.
  revert current acc; induction fuel as [|fuel IH]; intros current acc Hr; simpl;
    [discriminate|].
  destruct (char_at input current) as [c|] eqn:Hc; [|discriminate].
  destruct (tokenize_step input current c) as [next|t next|m] eqn:Hs.
  - apply IH. apply (reaches_next _ current c); [exact Hr|exact Hc|rewrite Hs; reflexivity].
  - apply IH. apply (reaches_next _ current c); [exact Hr|exact Hc|rewrite Hs; reflexivity].
  - intros [= <-]. apply tokenize_step_abort in Hs as (Hq & Hle & ->).
    exists current. split; [|reflexivity]. split; [exact Hr|]. eauto.
Qed.

(** The main loop arrives at every position of [reaches]. *)
Lemma reaches_loop (current : nat) :
  reaches input current ->
  exists fuel acc, len input - current < fuel
    /\ tokenize input = tokenize_loop input fuel current acc.
Proof.
  induction 1 as [|current char next Hr (fuel & acc & Hf & IH) Hc Hs].
  - exists (S (len input)), []. split; [lia|reflexivity].
  - destruct fuel as [|fuel]; [lia|].
    pose proof (tokenize_step_progress _ _ _ Hc) as Hp.
    pose proof (char_at_lt _ _ _ Hc).
    rewrite IH. simpl. rewrite Hc.
    destruct (tokenize_step input current char) as [n|t n|m]; simpl in Hs;
      [injection Hs as ->|injection Hs as ->|discriminate].
    + exists fuel, acc. split; [lia|reflexivity].
    + exists fuel, (acc ++ [t]). split; [lia|reflexivity].
Qed.

Lemma unterminated_string_throws (start : nat) :
  unterminated_string_at input start ->
  tokenize input = TokenizeError (unterminated_message start).
Proof.
  intros (Hr & quote & Hc & Hq & Hle).
  destruct (reaches_loop _ Hr) as (fuel & acc & Hf & ->).
  destruct fuel as [|fuel]; [lia|]. simpl. rewrite Hc.
  rewrite (tokenize_step_unterminated _ _ Hq Hle). reflexivity.
Qed.

Lemma tokenize_error_inv (msg : string) :
  tokenize input = TokenizeError msg ->
  exists start, unterminated_string_at input start /\ msg = unterminated_message start.
Proof. apply tokenize_loop_error. constructor. Qed.

Lemma blank_is_space (s : string) (i : nat) (c : ascii) :
  blank s = true -> String.get i s = Some c -> Char.is_space c = true.
Proof.
  revert i; induction s as [|d s IH]; intros [|i] Hb H; simpl in *; try discriminate;
    apply andb_true_iff in Hb as [Hd Hb].
  - congruence.
  - eapply IH; eauto.
Qed.

(** A text that parse treats as empty holds no string literal. *)
Lemma blank_not_unterminated (start : nat) :
  blank input = true -> ~ unterminated_string_at input start.
Proof.
  intros Hb (_ & quote & Hc & Hq & _).
  apply (blank_is_space _ _ _ Hb) in Hc.
  rewrite (is_quote_not_space _ Hq) in Hc. discriminate.
Qed.

End FatalError.

(** ** Strings that never close *)

Section LexicalItems.

Variable input : string.

Lemma char_at_None (i : nat) : len input <= i -> char_at input i = None.
Proof.
  intros H. destruct (char_at input i) as [c|] eqn:Hc; [|reflexivity].
  apply char_at_lt in Hc. lia.
Qed.

Lemma char_is_true (i : nat) (c : ascii) :
  char_is input i c = true <-> char_at input i = Some c.
Proof.
  unfold char_is. destruct (char_at input i) as [d|].
  - rewrite Ascii.eqb_eq. split; congruence.
  - split; discriminate.
Qed.

Lemma pair_test (i : nat) (c a b : ascii) :
  char_at input i = Some c ->
  Ascii.eqb c a && char_is input (i + 1) b = true <-> pair_at input i a b.
Proof.
  intros Hc. unfold pair_at. rewrite andb_true_iff, Ascii.eqb_eq, char_is_true.
  rewrite Nat.add_1_r, Hc. split; intros [H1 H2]; split; congruence.
Qed.

Lemma quote_not_backslash (quote : ascii) :
  Char.is_quote quote = true -> Char.backslash <> quote.
Proof.
  unfold Char.is_quote. intros H <-. discriminate.
Qed.

(** *** The scan of a string literal *)

Lemma scan_string_body (quote : ascii) (fuel current : nat) :
  len input - current <= fuel ->
  string_body input quote current (scan_string input quote fuel current).
Proof.
  revert current; induction fuel as [|fuel IH]; intros current Hf; simpl.
  - apply body_end.
  - destruct (char_at input current) as [c|] eqn:Hc; [|apply body_end].
    destruct (Ascii.eqb c quote) eqn:Hq; [apply body_end|].
    apply Ascii.eqb_neq in Hq.
    destruct (Ascii.eqb c Char.backslash) eqn:Hb.
    + apply Ascii.eqb_eq in Hb. subst c.
      apply body_escape; [exact Hc|]. apply IH. lia.
    + apply Ascii.eqb_neq in Hb.
      apply (body_char _ _ _ _ c); [exact Hc|exact Hq|exact Hb|]. apply IH. lia.
Qed.

Lemma string_body_scan (quote : ascii) (i k : nat) :
  Char.is_quote quote = true ->
  string_body input quote i k ->
  char_at input k = Some quote \/ len input <= k ->
  forall fuel, len input - i <= fuel -> scan_string input quote fuel i = k.
Proof.
  intros Hquote Hbody Hk.
  induction Hbody as [i|i j c Hc Hq Hb Hbody IH|i j Hc Hbody IH]; intros fuel Hf.
  - destruct fuel as [|fuel]; [reflexivity|]. simpl.
    destruct Hk as [Hk|Hk].
    + rewrite Hk, Ascii.eqb_refl. reflexivity.
    + rewrite (char_at_None _ Hk). reflexivity.
  - pose proof (char_at_lt _ _ _ Hc).
    destruct fuel as [|fuel]; [lia|]. simpl. rewrite Hc.
    apply Ascii.eqb_neq in Hq, Hb. rewrite Hq, Hb. apply (IH Hk). lia.
  - pose proof (char_at_lt _ _ _ Hc).
    destruct fuel as [|fuel]; [lia|]. simpl. rewrite Hc.
    pose proof (quote_not_backslash _ Hquote) as Hq. apply Ascii.eqb_neq in Hq.
    rewrite Hq, Ascii.eqb_refl. apply (IH Hk). lia.
Qed.

(** *** Runs of characters *)

Lemma scan_while_longest_run (p : ascii -> bool) (fuel current : nat) :
  len input - current <= fuel ->
  longest_run input p current (scan_while input p fuel current).
Proof.
  intros Hf. split; [apply scan_while_ge|]. split.
  - revert current Hf; induction fuel as [|fuel IH]; intros current Hf m; simpl.
    + lia.
    + destruct (char_at input current) as [c|] eqn:Hc; [|lia].
      destruct (p c) eqn:Hp; [|lia].
      intros Hm. destruct (Nat.eq_dec m current) as [->|Hne]; [eauto|].
      apply char_at_lt in Hc. apply (IH (S current)); lia.
  - intros c. exact (scan_while_stop input p fuel current c Hf).
Qed.

Lemma longest_run_scan_while (p : ascii -> bool) (i j : nat) :
  longest_run input p i j ->
  forall fuel, len input - i <= fuel -> scan_while input p fuel i = j.
Proof.
  intros (Hle & Hin & Hstop) fuel. revert i Hle Hin.
  induction fuel as [|fuel IH]; intros i Hle Hin Hf; simpl.
  - destruct (Nat.eq_dec i j) as [Heq|Hne]; [exact Heq|].
    destruct (Hin i) as (c & Hc & _); [lia|]. apply char_at_lt in Hc. lia.
  - destruct (Nat.eq_dec i j) as [->|Hne].
    + destruct (char_at input j) as [c|] eqn:Hc; [|reflexivity].
      rewrite (Hstop c eq_refl). reflexivity.
    + destruct (Hin i) as (c & Hc & Hp); [lia|]. rewrite Hc, Hp.
      apply char_at_lt in Hc.
      apply IH; [lia| |lia]. intros m Hm. apply Hin. lia.
Qed.

(** *** The scan of a block comment *)

Lemma block_test (m : nat) :
  char_is input m Char.star && char_is input (m + 1) Char.slash = true
  <-> pair_at input m "*" "/".
Proof.
  unfold pair_at. rewrite andb_true_iff, !char_is_true, Nat.add_1_r. reflexivity.
Qed.

Lemma scan_block_comment_closes (fuel current : nat) :
  len input - current <= fuel ->
  let k := scan_block_comment input fuel current in
  (forall m, current <= m < k -> ~ pair_at input m "*" "/")
  /\ (k + 2 <= len input -> current + 2 <= len input -> pair_at input k "*" "/").
Proof.
  revert current; induction fuel as [|fuel IH]; intros current Hf; simpl.
  - split; [intros m Hm; lia|]. lia.
  - destruct (current <? len input - 1) eqn:Hlt; simpl.
    + apply Nat.ltb_lt in Hlt.
      destruct (char_is input current Char.star && char_is input (current + 1) Char.slash)
        eqn:Hpair; simpl.
      * split; [intros m Hm; lia|]. intros _ _. apply block_test. exact Hpair.
      * destruct (IH (S current)) as (Hnone & Hk); [lia|].
        pose proof (scan_block_comment_ge input fuel (S current)) as Hge.
        split.
        -- intros m Hm. destruct (Nat.eq_dec m current) as [->|Hne].
           ++ rewrite <- block_test, Hpair. discriminate.
           ++ apply Hnone. lia.
        -- intros H1 _. apply Hk; lia.
    + apply Nat.ltb_ge in Hlt. split; [intros m Hm; lia|]. lia.
Qed.

Lemma block_comment_scan (current k : nat) :
  current <= k -> pair_at input k "*" "/" ->
  (forall m, current <= m < k -> ~ pair_at input m "*" "/") ->
  forall fuel, len input - current <= fuel -> scan_block_comment input fuel current = k.
Proof.
  intros Hle Hk Hnone fuel. revert current Hle Hnone.
  assert (Hlen : S k < len input) by (destruct Hk as [_ Hk]; exact (char_at_lt _ _ _ Hk)).
  induction fuel as [|fuel IH]; intros current Hle Hnone Hf; simpl; [lia|].
  destruct (Nat.eq_dec current k) as [->|Hne].
  - apply block_test in Hk. rewrite Hk.
    replace (k <? len input - 1) with true by (symmetry; apply Nat.ltb_lt; lia).
    reflexivity.
  - replace (current <? len input - 1) with true by (symmetry; apply Nat.ltb_lt; lia).
    destruct (char_is input current Char.star && char_is input (current + 1) Char.slash)
      eqn:Hpair.
    + apply block_test in Hpair. exfalso. apply (Hnone current); [lia|exact Hpair].
    + simpl. apply IH; [lia| |lia]. intros m Hm. apply Hnone. lia.
Qed.

(** *** Character classes *)

Lemma is_digit_class (c : ascii) :
  Char.is_digit c = true ->
  Char.is_space c = false /\ Ascii.eqb c Char.slash = false /\ Char.is_quote c = false.
Proof.
  unfold Char.is_digit, Char.is_space, Char.is_quote, Char.slash, Char.dquote, Char.squote.
  intros H. apply andb_true_iff in H as [H1 H2].
  apply Nat.leb_le in H1, H2.
  assert (Hne : forall d, Char.code d < 48 \/ 57 < Char.code d -> Ascii.eqb c d = false).
  { intros d Hd. apply Ascii.eqb_neq. intros ->. lia. }
  repeat split.
  - repeat (apply orb_false_iff; split); try (apply andb_false_iff; right);
      first [apply Nat.leb_gt | apply Nat.eqb_neq]; lia.
  - apply Hne. vm_compute. lia.
  - apply orb_false_iff. split; apply Hne; vm_compute; lia.
Qed.

Lemma is_ident_start_class (c : ascii) :
  Char.is_ident_start c = true ->
  Char.is_space c = false /\ Ascii.eqb c Char.slash = false /\ Char.is_quote c = false
  /\ Char.is_digit c = false.
Proof.
  unfold Char.is_ident_start, Char.is_alpha, Char.is_digit, Char.is_space, Char.is_quote,
    Char.slash, Char.dquote, Char.squote.
  intros H.
  assert (Hc : 97 <= Char.code c <= 122 \/ 65 <= Char.code c <= 90
               \/ Char.code c = 95 \/ Char.code c = 36).
  { repeat (apply orb_true_iff in H as [H|H]).
    - apply andb_true_iff in H as [H1 H2]. apply Nat.leb_le in H1, H2. lia.
    - apply andb_true_iff in H as [H1 H2]. apply Nat.leb_le in H1, H2. lia.
    - apply Nat.eqb_eq in H. lia.
    - apply Nat.eqb_eq in H. lia. }
  clear H.
  assert (Hne : forall d, Char.code d < 36 \/ 36 < Char.code d < 65 -> Ascii.eqb c d = false).
  { intros d Hd. apply Ascii.eqb_neq. intros ->. lia. }
  repeat split.
  - repeat (apply orb_false_iff; split); try (apply andb_false_iff);
      first [ apply Nat.eqb_neq; lia
            | destruct (Nat.leb_spec 9 (Char.code c));
                [right; apply Nat.leb_gt; lia|left; reflexivity] ].
  - apply Hne. vm_compute. lia.
  - apply orb_false_iff. split; apply Hne; vm_compute; lia.
  - apply andb_false_iff.
    destruct (Nat.leb_spec 48 (Char.code c)); [right; apply Nat.leb_gt; lia|left; reflexivity].
Qed.

Lemma two_char_operator_pair (c : ascii) (i : nat) (value : string) :
  char_at input i = Some c ->
  two_char_operator input c i = Some value ->
  exists b, pair_at input i c b /\ In (c, b) operator_pairs.
Proof.
  intros Hc. unfold two_char_operator, operator_pairs.
  repeat match goal with
  | |- context [Ascii.eqb c ?a && char_is input (i + 1) ?b] =>
      let H := fresh "H" in
      destruct (Ascii.eqb c a && char_is input (i + 1) b) eqn:H;
        [apply (pair_test _ _ _ _ Hc) in H; intros _;
         assert (c = a) as -> by (destruct H; congruence);
         exists b; split; [exact H|simpl; tauto]|]
  end.
  discriminate.
Qed.

Lemma two_char_operator_none (c : ascii) (i : nat) (b : ascii) :
  char_at input i = Some c -> char_at input (S i) = Some b ->
  two_char_operator input c i = None -> ~ In (c, b) operator_pairs.
Proof.
  intros Hc Hb. unfold two_char_operator.
  assert (Hpair : pair_at input i c b) by (split; assumption).
  intros Hnone Hin. simpl in Hin.
  repeat (destruct Hin as [Hin|Hin];
          [injection Hin as <- <-;
           repeat match type of Hnone with
           | context [Ascii.eqb ?a ?a' && char_is input (i + 1) ?b'] =>
               let H := fresh "H" in
               destruct (Ascii.eqb a a' && char_is input (i + 1) b') eqn:H;
                 [discriminate|]
           end;
           match goal with
           | H : _ && _ = false |- _ =>
               apply (pair_test _ _ _ _ Hc) in Hpair; congruence
           end|]).
  exact Hin.
Qed.

(** *** One round of the tokenizer and one lexical item *)

Lemma lexeme_char (i j : nat) : lexeme input i j -> exists c, char_at input i = Some c.
Proof.
  destruct 1; unfold pair_at in *; try (eexists; eassumption);
    match goal with H : _ /\ _ |- _ => destruct H; eexists; eassumption end.
Qed.

(** What a round of the main loop consumes is a lexical item. *)
Lemma tokenize_step_lexeme (current : nat) (char : ascii) (next : nat) :
  char_at input current = Some char ->
  step_next (tokenize_step input current char) = Some next ->
  next < len input ->
  lexeme input current next.
Proof.
  intros Hc. pose proof (char_at_lt _ _ _ Hc) as Hlt. unfold tokenize_step.
  destruct (Char.is_space char) eqn:Hspace.
  { intros [= <-] _. apply (lexeme_space _ _ char); assumption. }
  destruct (Ascii.eqb char Char.slash && char_is input (current + 1) Char.slash)
    eqn:Hline.
  { intros [= <-] _. apply lexeme_line_comment.
    - apply (pair_test _ _ _ _ Hc). exact Hline.
    - apply scan_while_longest_run. lia. }
  destruct (Ascii.eqb char Char.slash && char_is input (current + 1) Char.star)
    eqn:Hblock.
  { intros [= <-] Hnext. apply (pair_test _ _ _ _ Hc) in Hblock.
    pose proof (scan_block_comment_ge input (len input - current) (current + 2)) as Hge.
    destruct (scan_block_comment_closes (len input - current) (current + 2)) as (Hnone & Hk);
      [lia|].
    apply lexeme_block_comment; [exact Hblock|exact Hge|apply Hk; lia|exact Hnone]. }
  destruct (Char.is_quote char) eqn:Hquote.
  { destruct (len input <=? _) eqn:Hle; [discriminate|]. intros [= <-] _.
    apply Nat.leb_gt in Hle.
    apply (lexeme_string _ _ _ char); [exact Hc|exact Hquote| |].
    - apply scan_string_body. lia.
    - apply scan_string_stop; [lia|exact Hle]. }
  destruct (Char.is_digit char) eqn:Hdigit.
  { intros [= <-] _. apply (lexeme_number _ _ _ char); [exact Hc|exact Hdigit|].
    apply scan_while_longest_run. lia. }
  destruct (Char.is_ident_start char) eqn:Hident.
  { intros [= <-] _. apply (lexeme_word _ _ _ char); [exact Hc|exact Hident|].
    apply scan_while_longest_run. lia. }
  destruct (two_char_operator input char current) as [value|] eqn:Hop.
  - intros [= <-] _.
    destruct (two_char_operator_pair _ _ _ Hc Hop) as (b & Hpair & Hin).
    apply (lexeme_operator _ _ char b); assumption.
  - intros [= <-] _. apply (lexeme_symbol _ _ char); try assumption.
    intros b Hb Hin. apply in_app_or in Hin as [Hin|Hin].
    + simpl in Hin. destruct Hin as [Hin|[Hin|[]]]; injection Hin as <- <-.
      * assert (H : pair_at input current "/" "/") by (split; assumption).
        apply (pair_test _ _ _ _ Hc) in H. unfold Char.slash in Hline. congruence.
      * assert (H : pair_at input current "/" "*") by (split; assumption).
        apply (pair_test _ _ _ _ Hc) in H. unfold Char.slash, Char.star in Hblock.
        congruence.
    + exact (two_char_operator_none _ _ _ Hc Hb Hop Hin).
Qed.

(** A lexical item that ends inside the text is what a round of the main
    loop consumes. *)
Lemma lexeme_tokenize_step (i j : nat) (c : ascii) :
  lexeme input i j -> j < len input ->
  char_at input i = Some c ->
  step_next (tokenize_step input i c) = Some j.
Proof.
  intros Hitem Hj Hc. pose proof (char_at_lt _ _ _ Hc) as Hlt. unfold tokenize_step.
  destruct Hitem as [i d Hd Hspace|i j Hpair Hrun|i k Hpair Hle Hk Hnone|i Hpair Hnone
                    |i k quote Hq Hquote Hbody Hk|i j d Hd Hdigit Hrun
                    |i j d Hd Hstart Hrun|i a b Hpair Hin|i d Hd Hs Hq Hn Hi Hpairs].
  - assert (d = c) as -> by congruence. rewrite Hspace. reflexivity.
  - assert (c = "/"%char) as -> by (destruct Hpair; congruence).
    apply (pair_test _ _ _ _ Hc) in Hpair. unfold Char.slash. rewrite Hpair.
    simpl. f_equal. apply longest_run_scan_while; [exact Hrun|lia].
  - assert (c = "/"%char) as -> by (destruct Hpair; congruence).
    assert (Hline : Ascii.eqb "/" Char.slash && char_is input (i + 1) Char.slash = false).
    { destruct (_ && _) eqn:H; [|reflexivity].
      apply (pair_test _ _ _ _ Hc) in H. destruct H, Hpair. congruence. }
    apply (pair_test _ _ _ _ Hc) in Hpair. unfold Char.star.
    rewrite Hline. unfold Char.slash at 1. rewrite Hpair. simpl. f_equal.
    rewrite (block_comment_scan (i + 2) k Hle Hk Hnone); [reflexivity|lia].
  - lia.
  - assert (quote = c) as -> by congruence.
    rewrite (is_quote_not_space _ Hquote), (is_quote_not_slash _ Hquote), Hquote. simpl.
    rewrite (string_body_scan c (S i) k Hquote Hbody (or_introl Hk)) by lia.
    replace (len input <=? k) with false by (symmetry; apply Nat.leb_gt; lia).
    reflexivity.
  - assert (d = c) as -> by congruence.
    destruct (is_digit_class _ Hdigit) as (-> & -> & ->). rewrite Hdigit. simpl.
    f_equal. apply longest_run_scan_while; [exact Hrun|lia].
  - assert (d = c) as -> by congruence.
    destruct (is_ident_start_class _ Hstart) as (-> & -> & -> & ->). rewrite Hstart. simpl.
    f_equal. apply longest_run_scan_while; [exact Hrun|lia].
  - assert (a = c) as -> by (destruct Hpair; congruence).
    destruct Hpair as [_ Hb]. apply char_is_true in Hb. rewrite <- Nat.add_1_r in Hb.
    simpl in Hin.
    repeat (destruct Hin as [Hin|Hin];
            [injection Hin as <- <-; unfold two_char_operator; simpl; rewrite Hb;
             reflexivity|]).
    destruct Hin.
  - assert (d = c) as -> by congruence. rewrite Hs, Hq, Hn, Hi.
    assert (Hno : forall a b, In (a, b) (comment_pairs ++ operator_pairs) ->
                    Ascii.eqb c a && char_is input (i + 1) b = false).
    { intros a b Hin. destruct (_ && _) eqn:H; [|reflexivity].
      apply (pair_test _ _ _ _ Hc) in H. destruct H as [H1 H2].
      assert (a = c) as -> by congruence. exfalso. exact (Hpairs b H2 Hin). }
    unfold Char.slash, Char.star, two_char_operator.
    rewrite !Hno by (simpl; tauto). reflexivity.
Qed.

(** *** Where the main loop stands and where lexical items start *)

Lemma reaches_begins (p : nat) : reaches input p -> p < len input -> begins input p.
Proof.
  induction 1 as [|current char next Hr IH Hc Hs]; intros Hp; [apply begins_text|].
  apply (begins_next _ current).
  - apply IH. exact (char_at_lt _ _ _ Hc).
  - exact (tokenize_step_lexeme _ _ _ Hc Hs Hp).
Qed.

Lemma begins_reaches (p : nat) : begins input p -> p < len input -> reaches input p.
Proof.
  induction 1 as [|i j Hb IH Hitem]; intros Hp; [apply reaches_start|].
  destruct (lexeme_char _ _ Hitem) as (c & Hc).
  apply (reaches_next _ i c); [|exact Hc|].
  - apply IH. exact (char_at_lt _ _ _ Hc).
  - exact (lexeme_tokenize_step _ _ _ Hitem Hp Hc).
Qed.

(** The strings that never close are those at which the scan of the
    tokenizer runs to the end of the text. *)
Lemma string_never_closes_scan (start : nat) :
  string_never_closes input start <-> unterminated_string_at input start.
Proof.
  split.
  - intros (Hb & quote & Hc & Hq & k & Hbody & Hk).
    pose proof (char_at_lt _ _ _ Hc) as Hlt.
    split; [apply begins_reaches; assumption|].
    exists quote. split; [exact Hc|]. split; [exact Hq|].
    rewrite (string_body_scan quote (S start) k Hq Hbody (or_intror Hk)) by lia.
    exact Hk.
  - intros (Hr & quote & Hc & Hq & Hle).
    pose proof (char_at_lt _ _ _ Hc) as Hlt.
    split; [apply reaches_begins; assumption|].
    exists quote. split; [exact Hc|]. split; [exact Hq|].
    exists (scan_string input quote (len input - start) (S start)).
    split; [|exact Hle]. apply scan_string_body. lia.
Qed.

End LexicalItems.

(** C8.  An unterminated string literal is the one fatal tokenizer error.
    If the text contains a string literal that never closes (a quote stands
    where a lexical item starts, and no unescaped matching quote follows
    before the end of the text), tokenize throws "Unterminated string at
    position <start>" and produces no token list, the exception leaves
    parse, and analyzeTypeSafety answers with an empty diagnostic list.
    Conversely this is the only way for tokenize to throw: on any other
    text (an unterminated block comment included) it returns its tokens. *)
Theorem unterminated_string_is_fatal (input : string) :
  (forall start, string_never_closes input start ->
     tokenize input = TokenizeError (unterminated_message start)
     /\ (forall fuel, parse fuel input = Thrown (unterminated_message start))
     /\ (forall fuel, analyzeTypeSafety fuel input = Some []))
  /\ (forall msg, tokenize input = TokenizeError msg ->
        exists start, string_never_closes input start
                      /\ msg = unterminated_message start)
  /\ ((forall start, ~ string_never_closes input start) ->
        exists tokens, tokenize input = Tokens tokens).
Proof.
  assert (Hinv : forall msg, tokenize input = TokenizeError msg ->
            exists start, string_never_closes input start
                          /\ msg = unterminated_message start).
  { intros msg Ht. apply tokenize_error_inv in Ht as (start & H & ->).
    exists start. split; [apply string_never_closes_scan; exact H|reflexivity]. }
  split; [|split].
  - intros start H. apply string_never_closes_scan in H.
    pose proof (unterminated_string_throws _ _ H) as Ht.
    assert (Hp : forall fuel, parse fuel input = Thrown (unterminated_message start)).
    { intros fuel. unfold parse.
      destruct (blank input) eqn:Hb.
      - exfalso. exact (blank_not_unterminated _ _ Hb H).
      - rewrite Ht. reflexivity. }
    split; [exact Ht|]. split; [exact Hp|].
    intros fuel. unfold analyzeTypeSafety. rewrite Hp. reflexivity.
  - exact Hinv.
  - intros Hnone.
    destruct (tokenize input) as [tokens|msg|] eqn:Ht.
    + exists tokens. reflexivity.
    + destruct (Hinv msg eq_refl) as (start & H & _).
      exfalso. exact (Hnone start H).
    + exfalso. exact (tokenize_total _ Ht).
Qed.

Lemma unterminated_string_is_fatal_witness :
  string_never_closes "x = 'a\'" 4
  /\ tokenize "x = 'a\'" = TokenizeError "Unterminated string at position 4"
  /\ parse 10 "x = 'a\'" = Thrown "Unterminated string at position 4"
  /\ analyzeTypeSafety 10 "x = 'a\'" = Some [].
Proof.
  assert (H : string_never_closes "x = 'a\'" 4).
  { split.
    - apply (begins_next _ 3); [|apply (lexeme_space _ 3 " "%char); reflexivity].
      apply (begins_next _ 2).
      2:{ apply (lexeme_symbol _ 2 "="%char); try reflexivity.
          intros b [= <-] Hin. simpl in Hin.
          repeat (destruct Hin as [Hin|Hin]; [discriminate Hin|]). exact Hin. }
      apply (begins_next _ 1); [|apply (lexeme_space _ 1 " "%char); reflexivity].
      apply (begins_next _ 0); [apply begins_text|].
      apply (lexeme_word _ 0 1 "x"%char); [reflexivity|reflexivity|].
      split; [lia|]. split.
      + intros m Hm. assert (m = 0) as -> by lia. exists "x"%char. split; reflexivity.
      + intros c [= <-]. reflexivity.
    - exists "'"%char. split; [reflexivity|]. split; [reflexivity|].
      exists 8. split; [|simpl; lia].
      apply (body_char _ _ 5 8 "a"%char); [reflexivity|discriminate|discriminate|].
      apply (body_escape _ _ 6 8); [reflexivity|]. apply body_end. }
  destruct (unterminated_string_is_fatal "x = 'a\'") as (Hthrow & _ & _).
  destruct (Hthrow 4 H) as (Ht & Hp & Ha).
  split; [exact H|]. split; [exact Ht|]. split; [exact (Hp 10)|exact (Ha 10)].
Defined.

(** A quote after a backslash does not close the string. *)
Example escaped_quote_does_not_close :
  (exists tokens, tokenize "say('it\'s')" = Tokens tokens)
  /\ tokenize "'a\'" = TokenizeError "Unterminated string at position 0".
Proof. split; [eexists|]; reflexivity. Qed.

(** An unterminated block comment is swallowed up to the end of the text. *)
Example unterminated_block_comment :
  tokenize "x /* abc" = Tokens [Token IDENTIFIER "x" 0 1].
Proof. reflexivity. Qed.

(* ================================================================== *)
(** * Properties of the parser *)

(** ** The invariant of the expression parsers *)

Section ExpressionInvariant.

Variable tokens : list token.
Hypothesis tokens_ordered : ordered tokens.

Local Abbreviation F := (frontier tokens).

Lemma nextToken_Some (s : pstate) (t : token) :
  currentToken tokens s = Some t -> nextToken tokens s = PState (S (position s)) (errors s).
Proof.
  unfold currentToken, nextToken. intros H.
  apply lookup_lt_Some in H. apply Nat.ltb_lt in H. rewrite H. reflexivity.
Qed.

Lemma nextToken_None (s : pstate) : currentToken tokens s = None -> nextToken tokens s = s.
Proof.
  unfold currentToken, nextToken. intros H.
  apply lookup_ge_None in H. apply Nat.ltb_ge in H. rewrite H. reflexivity.
Qed.

Lemma at_value_Some (v : string) (s : pstate) :
  at_value tokens v s = true -> exists t, currentToken tokens s = Some t /\ tok_value t = v.
Proof.
  unfold at_value. destruct (currentToken tokens s) as [t|]; [|discriminate].
  intros H. apply String.eqb_eq in H. eauto.
Qed.

Lemma at_other_than_Some (v : string) (s : pstate) :
  at_other_than tokens v s = true -> exists t, currentToken tokens s = Some t.
Proof.
  unfold at_other_than. destruct (currentToken tokens s) as [t|]; [|discriminate].
  eauto.
Qed.

Lemma token_offsets (s : pstate) (t : token) :
  currentToken tokens s = Some t ->
  F (position s) <= tok_start t /\ tok_start t < tok_end t
  /\ F (S (position s)) = tok_end t.
Proof. apply ordered_lookup, tokens_ordered. Qed.

Lemma post_throw_at {A : Type} (Q : A -> pstate -> Prop) (s0 s : pstate) (text : string) :
  errors s = errors s0 -> position s0 <= position s -> post Q s0 (throw_at tokens text s).
Proof.
  intros He Hp. unfold throw_at. destruct (currentToken tokens s); simpl; auto.
Qed.

Lemma post_bind {A B : Type} (Q1 : A -> pstate -> Prop) (Q2 : B -> pstate -> Prop)
    (s0 s1 : pstate) (r : result A) (k : A -> pstate -> result B) :
  errors s1 = errors s0 -> position s0 <= position s1 ->
  post Q1 s1 r ->
  (forall a s2, errors s2 = errors s0 -> position s1 <= position s2 -> Q1 a s2 ->
                post Q2 s0 (k a s2)) ->
  post Q2 s0 (bind r k).
Proof.
  intros He Hp Hr Hk. destruct r as [a s2|msg s2|]; simpl in *.
  - destruct Hr as (He2 & Hp2 & HQ). apply Hk; [congruence|lia|exact HQ].
  - destruct Hr as (He2 & Hp2). split; [congruence|lia].
  - exact I.
Qed.

(** A callee's guarantee, seen from an earlier state. *)
Lemma post_call {A : Type} (Q1 Q2 : A -> pstate -> Prop) (s0 s1 : pstate)
    (r : result A) :
  errors s1 = errors s0 -> position s0 <= position s1 ->
  post Q1 s1 r ->
  (forall a s2, position s1 <= position s2 -> Q1 a s2 -> Q2 a s2) ->
  post Q2 s0 r.
Proof.
  intros He Hp Hr HQ. destruct r as [a s2|msg s2|]; simpl in *.
  - destruct Hr as (He2 & Hp2 & H). split; [congruence|]. split; [lia|auto].
  - destruct Hr as (He2 & Hp2). split; [congruence|lia].
  - exact I.
Qed.

Lemma spans_weaken (kind : node -> bool) (lo lo' hi hi' : nat) (n : node) :
  lo' <= lo -> hi <= hi' -> spans kind lo hi n -> spans kind lo' hi' n.
Proof. unfold spans. intros ? ? (? & ? & ? & ? & ?). repeat split; auto; lia. Qed.

Lemma spans_sound (kind : node -> bool) (lo hi : nat) (n : node) :
  spans kind lo hi n -> kind n = true /\ all_nodes sound n = true.
Proof. unfold spans. tauto. Qed.

Lemma frontier_next (s : pstate) (t : token) :
  currentToken tokens s = Some t -> F (position s) <= F (S (position s)).
Proof. intros H. apply frontier_mono. lia. Qed.

(** A leaf built from one token. *)
Lemma leaf_spans (s : pstate) (t : token) (n : node) :
  currentToken tokens s = Some t ->
  expression n = true -> all_nodes sound n = true ->
  start_of n = tok_start t -> end_of n = tok_end t ->
  spans expression (F (position s)) (F (S (position s))) n.
Proof.
  intros Ht He Hs Ha Hb. destruct (token_offsets _ _ Ht) as (H1 & H2 & H3).
  unfold spans. rewrite Ha, Hb. repeat split; auto; lia.
Qed.

Lemma sound_list_snoc (kind : node -> bool) (l : list node) (n : node) :
  sound_list kind l -> kind n = true -> all_nodes sound n = true ->
  sound_list kind (l ++ [n]).
Proof. intros Hl Hk Hs. apply Forall_app. split; [exact Hl|]. repeat constructor; auto. Qed.

Lemma sound_list_expression (l : list node) :
  sound_list expression l ->
  forallb expression l = true /\ forallb (all_nodes sound) l = true.
Proof.
  induction 1 as [|n l (Hk & Hs) _ (IH1 & IH2)]; simpl; [auto|].
  rewrite Hk, Hs, IH1, IH2. auto.
Qed.

Lemma sound_list_property (l : list node) :
  sound_list property l ->
  forallb property l = true /\ forallb (all_nodes sound) l = true.
Proof.
  induction 1 as [|n l (Hk & Hs) _ (IH1 & IH2)]; simpl; [auto|].
  rewrite Hk, Hs, IH1, IH2. auto.
Qed.

Section Bodies.

Variable pLevel : level -> pstate -> result node.
Variable pLoop : level -> node -> pstate -> result node.
Variable pUnary pPrimary : pstate -> result node.
Variable pCall pMember : node -> pstate -> result node.
Variable pArguments pProperties : list node -> pstate -> result (list node).
Variable pArray pObject pProperty : pstate -> result node.

Hypothesis H_level : forall lv, expression_spec tokens (pLevel lv).
Hypothesis H_loop : forall lv, continuation_spec tokens (pLoop lv).
Hypothesis H_unary : expression_spec tokens pUnary.
Hypothesis H_primary : expression_spec tokens pPrimary.
Hypothesis H_call : continuation_spec tokens pCall.
Hypothesis H_member : continuation_spec tokens pMember.
Hypothesis H_arguments : list_spec tokens expression pArguments.
Hypothesis H_properties : list_spec tokens property pProperties.
Hypothesis H_array : expression_spec tokens pArray.
Hypothesis H_object : expression_spec tokens pObject.
Hypothesis H_property : property_spec tokens pProperty.

Lemma parseOperand_spec (lv : level) : expression_spec tokens (parseOperand pLevel pUnary lv).
Proof. destruct lv; simpl; first [apply H_level | exact H_unary]. Qed.

Lemma level_node_spans (lv : level) (op : string) (e r : node) (lo mid mid' hi : nat) :
  spans expression lo mid e -> mid <= mid' -> spans expression mid' hi r ->
  spans expression lo hi (level_node lv op e r).
Proof.
  unfold spans. intros (He & Hse & ? & ? & ?) ? (Hr & Hsr & ? & ? & ?).
  assert (Hle : (start_of e <=? end_of r) = true) by (apply Nat.leb_le; lia).
  destruct lv; simpl; rewrite He, Hr, Hse, Hsr;
    unfold sound, offsets_in_order; simpl; rewrite Hle.
  all: repeat split; auto; lia.
Qed.

Lemma parseLevel_body_spec (lv : level) :
  expression_spec tokens (parseLevel_body pLevel pLoop pUnary lv).
Proof.
  intros s. unfold parseLevel_body.
  apply (post_bind _ _ s s) with (1 := eq_refl) (2 := le_n _) (3 := parseOperand_spec lv s).
  intros e s1 He Hp Hspan. simpl in Hspan.
  eapply post_call; [exact He|exact Hp|apply (H_loop lv _ e s1 Hspan)|].
  intros; assumption.
Qed.

Lemma parseLevel_loop_body_spec (lv : level) :
  continuation_spec tokens (parseLevel_loop_body tokens pLevel pLoop pUnary lv).
Proof.
  intros lo e s Hspan. unfold parseLevel_loop_body.
  destruct (currentToken tokens s) as [op|] eqn:Hop; [|finish; exact Hspan].
  destruct (includes _ _); [|finish; exact Hspan].
  destruct (token_offsets _ _ Hop) as (H1 & H2 & H3).
  rewrite (nextToken_Some _ _ Hop).
  eapply (post_bind _ _ s); [| |apply parseOperand_spec|];
    [reflexivity|simpl; lia|].
  intros r s2 He Hp Hr. simpl in *.
  eapply post_call;
    [| |apply H_loop; eapply level_node_spans; [exact Hspan| |exact Hr]; lia|];
    [exact He|lia|intros; assumption].
Qed.

Lemma literal_spans (s : pstate) (t : token) (v : literal_value) :
  currentToken tokens s = Some t ->
  spans expression (F (position s)) (F (S (position s)))
    (Literal v (tok_value t) (tok_start t) (tok_end t)).
Proof.
  intros Ht. destruct (token_offsets _ _ Ht) as (H1 & H2 & H3).
  assert (Hle : (tok_start t <=? tok_end t) = true) by (apply Nat.leb_le; lia).
  built.
Qed.

Lemma identifier_spans (s : pstate) (t : token) :
  currentToken tokens s = Some t ->
  spans expression (F (position s)) (F (S (position s)))
    (Identifier (tok_value t) (tok_start t) (tok_end t)).
Proof.
  intros Ht. destruct (token_offsets _ _ Ht) as (H1 & H2 & H3).
  assert (Hle : (tok_start t <=? tok_end t) = true) by (apply Nat.leb_le; lia).
  built.
Qed.

Lemma parseUnary_body_spec : expression_spec tokens (parseUnary_body tokens pUnary pPrimary).
Proof.
  intros s. unfold parseUnary_body.
  destruct (currentToken tokens s) as [op|] eqn:Hop; [|apply H_primary].
  destruct (tok_value op =s "not"); [|apply H_primary].
  destruct (token_offsets _ _ Hop) as (H1 & H2 & H3).
  rewrite (nextToken_Some _ _ Hop).
  eapply (post_bind _ _ s); [| |apply H_unary|]; [reflexivity|simpl; lia|].
  intros a s1 He Hp (Ha & Hs & Hlo & Hmid & Hhi). simpl in *.
  assert (Hle : (tok_start op <=? end_of a) = true) by (apply Nat.leb_le; lia).
  finish. built.
Qed.

(** A comma-separated list: the first element, then the loop. *)
Lemma parse_list_spec (kind : node -> bool) (close : string)
    (pFirst : pstate -> result node)
    (pRest : list node -> pstate -> result (list node)) (s0 s1 : pstate) :
  (forall s, post (fun n s' => spans kind (F (position s)) (F (position s')) n)
               s (pFirst s)) ->
  list_spec tokens kind pRest ->
  errors s1 = errors s0 -> position s0 <= position s1 ->
  post (fun l _ => sound_list kind l) s0
    (if at_other_than tokens close s1
     then let* (first, s') := pFirst s1 in pRest [first] s'
     else Ok [] s1).
Proof.
  intros Hfirst Hrest He Hp.
  destruct (at_other_than tokens close s1).
  - eapply (post_bind _ _ s0 s1); [exact He|exact Hp|apply Hfirst|].
    intros first s' He' Hp' Hspan. apply spans_sound in Hspan.
    eapply post_call; [| |apply Hrest|]; [exact He'|lia| |intros; assumption].
    repeat constructor; tauto.
  - finish. constructor.
Qed.

Lemma parseCallExpression_body_spec :
  continuation_spec tokens (parseCallExpression_body tokens pLevel pArguments).
Proof.
  intros lo callee s (Hc & Hsc & Hlo & Hmid & Hhi). unfold parseCallExpression_body.
  destruct (at_value tokens "(" s) eqn:Hopen; simpl;
    [|apply post_throw_at; [reflexivity|lia]].
  apply at_value_Some in Hopen as (t & Ht & _).
  destruct (token_offsets _ _ Ht) as (H1 & H2 & H3).
  rewrite (nextToken_Some _ _ Ht).
  eapply (post_bind _ _ s s);
    [reflexivity|lia|
     apply (parse_list_spec expression ")" (pLevel LOr) pArguments);
       [apply H_level|exact H_arguments|reflexivity|simpl; lia]|].
  intros args s2 He Hp Hargs. apply sound_list_expression in Hargs as (Ha1 & Ha2).
  destruct (currentToken tokens s2) as [e|] eqn:Hend;
    [|apply post_throw_at; [exact He|exact Hp]].
  destruct (tok_value e =s ")"); [|apply post_throw_at; [exact He|exact Hp]].
  destruct (token_offsets _ _ Hend) as (H4 & H5 & H6).
  rewrite (nextToken_Some _ _ Hend).
  pose proof (frontier_mono tokens _ _ Hp).
  assert (Hle : (start_of callee <=? tok_end e) = true) by (apply Nat.leb_le; lia).
  finish. built.
Qed.

Lemma parseArguments_loop_body_spec :
  list_spec tokens expression (parseArguments_loop_body tokens pLevel pArguments).
Proof.
  intros l s Hl. unfold parseArguments_loop_body.
  destruct (at_value tokens "," s) eqn:Hcomma; [|finish; exact Hl].
  apply at_value_Some in Hcomma as (t & Ht & _).
  rewrite (nextToken_Some _ _ Ht).
  eapply (post_bind _ _ s); [| |apply (H_level LOr)|]; [reflexivity|simpl; lia|].
  intros arg s1 He Hp Hspan. apply spans_sound in Hspan as (Hk & Hs). simpl in *.
  eapply post_call; [| |apply H_arguments|]; [exact He|lia| |intros; assumption].
  apply sound_list_snoc; assumption.
Qed.

Lemma parseProperties_loop_body_spec :
  list_spec tokens property (parseProperties_loop_body tokens pProperties pProperty).
Proof.
  intros l s Hl. unfold parseProperties_loop_body.
  destruct (at_value tokens "," s) eqn:Hcomma; [|finish; exact Hl].
  apply at_value_Some in Hcomma as (t & Ht & _).
  rewrite (nextToken_Some _ _ Ht).
  eapply (post_bind _ _ s); [| |apply H_property|]; [reflexivity|simpl; lia|].
  intros arg s1 He Hp Hspan. apply spans_sound in Hspan as (Hk & Hs). simpl in *.
  eapply post_call; [| |apply H_properties|]; [exact He|lia| |intros; assumption].
  apply sound_list_snoc; assumption.
Qed.

Lemma parseMemberExpression_body_spec :
  continuation_spec tokens (parseMemberExpression_body tokens pCall).
Proof.
  intros lo object s (Ho & Hso & Hlo & Hmid & Hhi). unfold parseMemberExpression_body.
  destruct (at_value tokens "." s) eqn:Hdot; simpl;
    [|apply post_throw_at; [reflexivity|lia]].
  apply at_value_Some in Hdot as (d & Hd & _).
  destruct (token_offsets _ _ Hd) as (H1 & H2 & H3).
  rewrite (nextToken_Some _ _ Hd).
  set (s1 := PState (S (position s)) (errors s)).
  destruct (currentToken tokens s1) as [t|] eqn:Ht;
    [|apply post_throw_at; [reflexivity|simpl; lia]].
  destruct (token_type_eqb (tok_type t) IDENTIFIER);
    [|apply post_throw_at; [reflexivity|simpl; lia]].
  destruct (token_offsets _ _ Ht) as (H4 & H5 & H6).
  rewrite (nextToken_Some _ _ Ht). subst s1. simpl in *.
  assert (Hle1 : (tok_start t <=? tok_end t) = true) by (apply Nat.leb_le; lia).
  assert (Hle2 : (start_of object <=? tok_end t) = true) by (apply Nat.leb_le; lia).
  set (member := MemberExpression object _ _ _).
  assert (Hm : spans expression lo (F (S (S (position s)))) member)
    by (subst member; built).
  destruct (at_value tokens "(" _).
  - eapply post_call; [| |apply H_call; exact Hm|];
      [reflexivity|simpl; lia|intros; assumption].
  - finish. exact Hm.
Qed.

Lemma parsePrimary_body_spec :
  expression_spec tokens (parsePrimary_body tokens pLevel pCall pMember pArray pObject).
Proof.
  intros s. unfold parsePrimary_body.
  destruct (currentToken tokens s) as [t|] eqn:Ht; [|finish].
  destruct (token_offsets _ _ Ht) as (H1 & H2 & H3).
  rewrite (nextToken_Some _ _ Ht).
  destruct (token_type_eqb (tok_type t) NUMBER);
    [finish; apply literal_spans, Ht|].
  destruct (token_type_eqb (tok_type t) STRING);
    [finish; apply literal_spans, Ht|].
  destruct ((tok_value t =s "true") || (tok_value t =s "false"));
    [finish; apply literal_spans, Ht|].
  destruct (tok_value t =s "nil"); [finish; apply literal_spans, Ht|].
  destruct (token_type_eqb (tok_type t) IDENTIFIER).
  { pose proof (identifier_spans _ _ Ht) as Hid.
    destruct (at_value tokens "(" _).
    - eapply post_call; [| |apply H_call; exact Hid|];
        [reflexivity|simpl; lia|intros; assumption].
    - destruct (at_value tokens "." _).
      + eapply post_call; [| |apply H_member; exact Hid|];
          [reflexivity|simpl; lia|intros; assumption].
      + finish. exact Hid. }
  destruct (tok_value t =s "(").
  { eapply (post_bind _ _ s); [| |apply (H_level LOr)|]; [reflexivity|simpl; lia|].
    intros e s1 He Hp Hspan. simpl in *.
    destruct (at_value tokens ")" s1) eqn:Hclose;
      [|apply post_throw_at; [exact He|lia]].
    apply at_value_Some in Hclose as (c & Hc & _).
    destruct (token_offsets _ _ Hc) as (H4 & H5 & H6).
    rewrite (nextToken_Some _ _ Hc). finish.
    eapply spans_weaken; [| |exact Hspan]; lia. }
  destruct (tok_value t =s "["); [apply H_array|].
  destruct (tok_value t =s "{"); [apply H_object|].
  finish.
Qed.

Lemma parseArrayExpression_body_spec :
  expression_spec tokens (parseArrayExpression_body tokens pLevel pArguments).
Proof.
  intros s. unfold parseArrayExpression_body.
  destruct (currentToken tokens s) as [t|] eqn:Ht; [|finish].
  destruct (token_offsets _ _ Ht) as (H1 & H2 & H3).
  rewrite (nextToken_Some _ _ Ht).
  eapply (post_bind _ _ s (PState (S (position s)) (errors s)));
    [reflexivity|simpl; lia|
     apply (parse_list_spec expression "]" (pLevel LOr) pArguments);
       [apply H_level|exact H_arguments|reflexivity|simpl; lia]|].
  intros elements s2 He Hp Hl. apply sound_list_expression in Hl as (Ha1 & Ha2).
  simpl in Hp.
  destruct (currentToken tokens s2) as [e|] eqn:Hend;
    [|apply post_throw_at; [exact He|lia]].
  destruct (tok_value e =s "]"); [|apply post_throw_at; [exact He|lia]].
  destruct (token_offsets _ _ Hend) as (H4 & H5 & H6).
  rewrite (nextToken_Some _ _ Hend).
  pose proof (frontier_mono tokens _ _ Hp).
  assert (Hle : (tok_start t <=? tok_end e) = true) by (apply Nat.leb_le; lia).
  finish. built.
Qed.

Lemma parseObjectExpression_body_spec :
  expression_spec tokens (parseObjectExpression_body tokens pProperties pProperty).
Proof.
  intros s. unfold parseObjectExpression_body.
  destruct (currentToken tokens s) as [t|] eqn:Ht; [|finish].
  destruct (token_offsets _ _ Ht) as (H1 & H2 & H3).
  rewrite (nextToken_Some _ _ Ht).
  eapply (post_bind _ _ s (PState (S (position s)) (errors s)));
    [reflexivity|simpl; lia|
     apply (parse_list_spec property "}" pProperty pProperties);
       [apply H_property|exact H_properties|reflexivity|simpl; lia]|].
  intros properties s2 He Hp Hl. apply sound_list_property in Hl as (Ha1 & Ha2).
  simpl in Hp.
  destruct (currentToken tokens s2) as [e|] eqn:Hend;
    [|apply post_throw_at; [exact He|lia]].
  destruct (tok_value e =s "}"); [|apply post_throw_at; [exact He|lia]].
  destruct (token_offsets _ _ Hend) as (H4 & H5 & H6).
  rewrite (nextToken_Some _ _ Hend).
  pose proof (frontier_mono tokens _ _ Hp).
  assert (Hle : (tok_start t <=? tok_end e) = true) by (apply Nat.leb_le; lia).
  unfold property in Ha1.
  finish. built.
Qed.

Lemma parseObjectProperty_body_spec :
  property_spec tokens (parseObjectProperty_body tokens pLevel).
Proof.
  intros s. unfold parseObjectProperty_body.
  destruct (currentToken tokens s) as [key|] eqn:Hkey;
    [|apply post_throw_at; [reflexivity|lia]].
  destruct (token_type_eqb (tok_type key) STRING);
    [|apply post_throw_at; [reflexivity|lia]].
  destruct (token_offsets _ _ Hkey) as (H1 & H2 & H3).
  rewrite (nextToken_Some _ _ Hkey).
  set (s1 := PState (S (position s)) (errors s)).
  destruct (at_value tokens ":" s1) eqn:Hcolon; simpl;
    [|apply post_throw_at; [reflexivity|simpl; lia]].
  apply at_value_Some in Hcolon as (c & Hc & _).
  destruct (token_offsets _ _ Hc) as (H4 & H5 & H6).
  rewrite (nextToken_Some _ _ Hc). subst s1. simpl in *.
  eapply (post_bind _ _ s); [| |apply (H_level LOr)|]; [reflexivity|simpl; lia|].
  intros v s2 He Hp (Hv & Hsv & Hlo & Hmid & Hhi). simpl in *.
  assert (Hle : (tok_start key <=? end_of v) = true) by (apply Nat.leb_le; lia).
  finish. built.
Qed.

End Bodies.

(** The expression parsers keep the invariant at every fuel. *)
Lemma expression_parsers_spec (fuel : nat) :
  (forall lv, expression_spec tokens (parseLevel tokens fuel lv))
  /\ (forall lv, continuation_spec tokens (parseLevel_loop tokens fuel lv))
  /\ expression_spec tokens (parseUnary tokens fuel)
  /\ expression_spec tokens (parsePrimary tokens fuel)
  /\ continuation_spec tokens (parseCallExpression tokens fuel)
  /\ continuation_spec tokens (parseMemberExpression tokens fuel)
  /\ list_spec tokens expression (parseArguments_loop tokens fuel)
  /\ list_spec tokens property (parseProperties_loop tokens fuel)
  /\ expression_spec tokens (parseArrayExpression tokens fuel)
  /\ expression_spec tokens (parseObjectExpression tokens fuel)
  /\ property_spec tokens (parseObjectProperty tokens fuel).
Proof.
  induction fuel as [|fuel (IH1 & IH2 & IH3 & IH4 & IH5 & IH6 & IH7 & IH8 & IH9 & IH10 & IH11)].
  - repeat split; repeat intro; exact I.
  - repeat split.
    + intros lv. apply parseLevel_body_spec; assumption.
    + intros lv. apply parseLevel_loop_body_spec; assumption.
    + apply parseUnary_body_spec; assumption.
    + apply parsePrimary_body_spec; assumption.
    + apply parseCallExpression_body_spec; assumption.
    + apply parseMemberExpression_body_spec; assumption.
    + apply parseArguments_loop_body_spec; assumption.
    + apply parseProperties_loop_body_spec; assumption.
    + apply parseArrayExpression_body_spec; assumption.
    + apply parseObjectExpression_body_spec; assumption.
    + apply parseObjectProperty_body_spec; assumption.
Qed.

Lemma parseExpression_spec (fuel : nat) : expression_spec tokens (parseExpression tokens fuel).
Proof. apply (expression_parsers_spec fuel). Qed.

End ExpressionInvariant.

Section StatementInvariant.

Variable input : string.
Variable tokens : list token.
Hypothesis tokens_ordered : ordered tokens.

Local Abbreviation F := (frontier tokens).

Lemma post_statement_throw_at {A : Type} (Q : A -> pstate -> Prop) (s0 s : pstate)
    (text : string) :
  position s0 <= position s -> post_statement Q s0 (throw_at tokens text s).
Proof. intros Hp. unfold throw_at. destruct (currentToken tokens s); simpl; auto. Qed.

Lemma post_statement_bind {A B : Type} (Q1 : A -> pstate -> Prop)
    (Q2 : B -> pstate -> Prop) (s0 s1 : pstate) (r : result A)
    (k : A -> pstate -> result B) :
  position s0 <= position s1 ->
  post_statement Q1 s1 r ->
  (forall a s2, position s1 <= position s2 -> Q1 a s2 ->
                post_statement Q2 s0 (k a s2)) ->
  post_statement Q2 s0 (bind r k).
Proof.
  intros Hp Hr Hk. destruct r as [a s2|msg s2|]; simpl in *.
  - destruct Hr as (Hp2 & HQ). apply Hk; [lia|exact HQ].
  - lia.
  - exact I.
Qed.

(** A callee's guarantee, seen from an earlier state. *)
Lemma post_statement_call {A : Type} (Q : A -> pstate -> Prop) (s0 s1 : pstate)
    (r : result A) :
  position s0 <= position s1 -> post_statement Q s1 r -> post_statement Q s0 r.
Proof. destruct r; simpl; intros; intuition lia. Qed.

(** An expression parser is in particular a statement-level callee. *)
Lemma post_forget {A : Type} (Q : A -> pstate -> Prop) (s : pstate) (r : result A) :
  post Q s r -> post_statement Q s r.
Proof. destruct r; simpl; tauto. Qed.

Lemma parseExpression_statement (fuel : nat) (s : pstate) :
  post_statement (fun n s' => spans expression (F (position s)) (F (position s')) n)
    s (parseExpression tokens fuel s).
Proof. apply post_forget, parseExpression_spec, tokens_ordered. Qed.

Lemma skip_loop_position (fuel : nat) (s : pstate) :
  position s <= position (skip_loop tokens fuel s).
Proof.
  revert s; induction fuel as [|fuel IH]; intros s; simpl; [lia|].
  destruct (currentToken tokens s) as [t|] eqn:Ht; [|lia].
  rewrite (nextToken_Some _ _ _ Ht).
  destruct (tok_value t =s ";"); [simpl; lia|].
  destruct ((tok_value t =s "}") || (tok_value t =s "{")); [lia|].
  destruct (isStatementStart t); [lia|].
  specialize (IH (PState (S (position s)) (errors s))). simpl in IH. lia.
Qed.

Lemma skipToNextStatement_position (s : pstate) :
  position s <= position (skipToNextStatement tokens s).
Proof. apply skip_loop_position. Qed.

Lemma parseParams_loop_position (fuel : nat) (params : list string) (s : pstate) :
  position s <= position (snd (parseParams_loop tokens fuel params s)).
Proof.
  revert params s; induction fuel as [|fuel IH]; intros params s; simpl; [lia|].
  destruct (at_value tokens "," s) eqn:Hc; [|simpl; lia].
  apply at_value_Some in Hc as (c & Hc & _).
  rewrite (nextToken_Some _ _ _ Hc).
  set (s1 := PState (S (position s)) (errors s)).
  destruct (currentToken tokens s1) as [t|] eqn:Ht.
  - destruct (token_type_eqb (tok_type t) IDENTIFIER).
    + rewrite (nextToken_Some _ _ _ Ht).
      match goal with |- _ <= position (snd (parseParams_loop _ _ ?p ?s')) =>
        specialize (IH p s') end. simpl in *. lia.
    + specialize (IH params s1). simpl in *. lia.
  - specialize (IH params s1). simpl in *. lia.
Qed.

Lemma parseParams_position (s : pstate) :
  position s <= position (snd (parseParams tokens s)).
Proof.
  unfold parseParams. destruct (at_other_than tokens ")" s); [|simpl; lia].
  destruct (currentToken tokens s) as [t|] eqn:Ht.
  - destruct (token_type_eqb (tok_type t) IDENTIFIER).
    + rewrite (nextToken_Some _ _ _ Ht).
      match goal with |- _ <= position (snd (parseParams_loop _ ?f ?p ?s')) =>
        pose proof (parseParams_loop_position f p s') end. simpl in *. lia.
    + apply parseParams_loop_position.
  - apply parseParams_loop_position.
Qed.

(** ** Statements without nested statements *)

Lemma parseVariableDeclaration_spec (fuel : nat) :
  statement_spec (parseVariableDeclaration input tokens fuel).
Proof.
  intros s. unfold parseVariableDeclaration.
  destruct (currentToken tokens s) as [startToken|] eqn:Hstart; [|finish_statement].
  destruct (token_offsets _ tokens_ordered _ _ Hstart) as (H1 & H2 & H3).
  rewrite (nextToken_Some _ _ _ Hstart).
  set (s1 := PState (S (position s)) (errors s)).
  set (annotation := match currentToken tokens s1 with
                     | Some t => if isTypeKeyword (tok_value t)
                                 then (Some (tok_value t), nextToken tokens s1)
                                 else (None, s1)
                     | None => (None, s1)
                     end).
  assert (Hann : position s1 <= position (snd annotation)
                 /\ forall t, fst annotation = Some t -> isTypeKeyword t = true).
  { subst annotation. destruct (currentToken tokens s1) as [t|] eqn:Ht;
      [|simpl; split; [lia|discriminate]].
    destruct (isTypeKeyword (tok_value t)) eqn:Hty; [|simpl; split; [lia|discriminate]].
    rewrite (nextToken_Some _ _ _ Ht). simpl. split; [lia|]. intros ? [= <-]. exact Hty. }
  destruct annotation as [declaredType s2]. destruct Hann as (Hp2 & Hty). simpl in Hp2, Hty.
  destruct (currentToken tokens s2) as [nameToken|] eqn:Hname;
    [|apply post_statement_throw_at; lia].
  destruct (token_type_eqb (tok_type nameToken) IDENTIFIER);
    [|apply post_statement_throw_at; lia].
  destruct (token_offsets _ tokens_ordered _ _ Hname) as (H4 & H5 & H6).
  rewrite (nextToken_Some _ _ _ Hname).
  set (s3 := PState (S (position s2)) (errors s2)).
  assert (Hmono : F (S (position s)) <= F (position s2)) by (apply frontier_mono; exact Hp2).
  assert (Hknown : match declaredType with
                   | Some t => isTypeKeyword t
                   | None => true
                   end = true)
    by (destruct declaredType; auto).
  eapply (post_statement_bind
            (fun init s4 => position s3 <= position s4 /\ sound_option init) _ s s3).
  - simpl; lia.
  - destruct (at_value tokens "=" s3) eqn:Heq.
    + apply at_value_Some in Heq as (e & He & _).
      rewrite (nextToken_Some _ _ _ He).
      eapply post_statement_bind; [|apply parseExpression_statement|]; [simpl; lia|].
      intros init s' Hp' Hspan. apply spans_sound in Hspan as (_ & Hs).
      simpl in *. repeat split; [lia|lia|]. intros ? [= <-]. exact Hs.
    + finish_statement. split; [lia|]. intros ? [=].
  - intros init s4 _ (Hp4 & Hinit). simpl in Hp4.
    assert (Hi : match init with Some c => all_nodes sound c | None => true end = true)
      by (destruct init; auto).
    destruct (at_value tokens ";" s4) eqn:Hsemi.
    + apply at_value_Some in Hsemi as (c & Hc & _).
      destruct (token_offsets _ tokens_ordered _ _ Hc) as (H7 & H8 & H9).
      rewrite (nextToken_Some _ _ _ Hc).
      set (s5 := PState (S (position s4)) (errors s4)).
      assert (Hm4 : F (S (position s2)) <= F (position s4))
        by (apply frontier_mono; lia).
      finish_statement.
      destruct (currentToken tokens s5) as [n|] eqn:Hn.
      * destruct (token_offsets _ tokens_ordered _ _ Hn) as (Ha & Hb & Hc').
        simpl in Ha.
        assert (Hle : (tok_start startToken <=? tok_start n) = true)
          by (apply Nat.leb_le; lia).
        built.
      * assert (Hle : (tok_start startToken <=? tok_end nameToken + 1) = true)
          by (apply Nat.leb_le; lia).
        built.
    + finish_statement.
      assert (Hle : (tok_start startToken <=? tok_end nameToken) = true)
        by (apply Nat.leb_le; lia).
      built.
Qed.

Lemma parseAssignmentExpression_spec (fuel : nat) (lo : nat) (left : node) (s : pstate) :
  is_Identifier left = true ->
  spans expression lo (F (position s)) left ->
  post_statement (fun n _ => all_nodes sound n = true) s
    (parseAssignmentExpression input tokens fuel left s).
Proof.
  intros Hid (Hl & Hsl & Hlo & Hmid & Hhi). unfold parseAssignmentExpression.
  destruct (at_value tokens "=" s) eqn:Heq; simpl;
    [|apply post_statement_throw_at; lia].
  apply at_value_Some in Heq as (e & He & _).
  destruct (token_offsets _ tokens_ordered _ _ He) as (H1 & H2 & H3).
  rewrite (nextToken_Some _ _ _ He).
  eapply post_statement_bind; [|apply parseExpression_statement|]; [simpl; lia|].
  intros right s1 Hp1 (Hr & Hsr & Hrlo & Hrmid & Hrhi). simpl in *.
  destruct (at_value tokens ";" s1) eqn:Hsemi.
  - apply at_value_Some in Hsemi as (c & Hc & _).
    destruct (token_offsets _ tokens_ordered _ _ Hc) as (H7 & H8 & H9).
    rewrite (nextToken_Some _ _ _ Hc).
    set (s2 := PState (S (position s1)) (errors s1)).
    finish_statement.
    destruct (currentToken tokens s2) as [n|] eqn:Hn.
    + destruct (token_offsets _ tokens_ordered _ _ Hn) as (Ha & Hb & Hc').
      simpl in Ha.
      assert (Hle : (start_of left <=? tok_start n) = true) by (apply Nat.leb_le; lia).
      built.
    + assert (Hle : (start_of left <=? end_of right + 1) = true)
        by (apply Nat.leb_le; lia).
      built.
  - finish_statement.
    assert (Hle : (start_of left <=? end_of right) = true) by (apply Nat.leb_le; lia).
    built.
Qed.

Lemma parseExpressionStatement_spec (fuel : nat) :
  statement_spec (parseExpressionStatement input tokens fuel).
Proof.
  intros s. unfold parseExpressionStatement.
  eapply post_statement_bind; [|apply parseExpression_statement|]; [lia|].
  intros expr s1 Hp1 Hspan.
  destruct (is_Identifier expr && at_value tokens "=" s1) eqn:Hassign.
  { apply andb_true_iff in Hassign as [Hid _].
    eapply post_statement_call; [exact Hp1|].
    eapply parseAssignmentExpression_spec; [exact Hid|exact Hspan]. }
  destruct Hspan as (He & Hse & Hlo & Hmid & Hhi).
  destruct (at_value tokens ";" s1) eqn:Hsemi.
  - apply at_value_Some in Hsemi as (c & Hc & _).
    destruct (token_offsets _ tokens_ordered _ _ Hc) as (H7 & H8 & H9).
    rewrite (nextToken_Some _ _ _ Hc).
    set (s2 := PState (S (position s1)) (errors s1)).
    finish_statement.
    destruct (currentToken tokens s2) as [n|] eqn:Hn.
    + destruct (token_offsets _ tokens_ordered _ _ Hn) as (Ha & Hb & Hc').
      simpl in Ha.
      assert (Hle : (start_of expr <=? tok_start n) = true) by (apply Nat.leb_le; lia).
      built.
    + assert (Hle : (start_of expr <=? end_of expr + 1) = true)
        by (apply Nat.leb_le; lia).
      built.
  - finish_statement.
    assert (Hle : (start_of expr <=? end_of expr) = true) by (apply Nat.leb_le; lia).
    built.
Qed.

Lemma parseReturnStatement_spec (fuel : nat) :
  statement_spec (parseReturnStatement tokens fuel).
Proof.
  intros s. unfold parseReturnStatement.
  destruct (currentToken tokens s) as [startToken|] eqn:Hstart; [|finish_statement].
  destruct (token_offsets _ tokens_ordered _ _ Hstart) as (H1 & H2 & H3).
  rewrite (nextToken_Some _ _ _ Hstart).
  set (s1 := PState (S (position s)) (errors s)).
  eapply (post_statement_bind
            (fun argument s2 => position s1 <= position s2 /\
               forall a, argument = Some a ->
                         spans expression (F (position s1)) (F (position s2)) a)
            _ s s1).
  - simpl; lia.
  - destruct (_ && _).
    + eapply post_statement_bind; [|apply parseExpression_statement|]; [simpl; lia|].
      intros a s' Hp' Hspan. subst s1. simpl in *. split; [lia|split; [lia|]].
      intros ? [= <-]. exact Hspan.
    + finish_statement. split; [lia|]. intros ? [=].
  - intros argument s2 _ (Hp2 & Harg). simpl in Hp2.
    assert (Hp3 : position s2 <=
                  position (if at_value tokens ";" s2 then nextToken tokens s2 else s2)).
    { destruct (at_value tokens ";" s2) eqn:Hsemi; [|lia].
      apply at_value_Some in Hsemi as (c & Hc & _).
      rewrite (nextToken_Some _ _ _ Hc). simpl. lia. }
    finish_statement.
    destruct argument as [a|].
    + destruct (Harg a eq_refl) as (Ha & Hsa & Hlo & Hmid & Hhi). simpl in Hlo.
      assert (Hle : (tok_start startToken <=? end_of a) = true)
        by (apply Nat.leb_le; lia).
      built.
    + assert (Hle : (tok_start startToken <=? tok_end startToken + 6) = true)
        by (apply Nat.leb_le; lia).
      built.
Qed.

(** ** Statements with nested statements *)

Lemma end_at_start (s s' : pstate) (startToken : token) :
  currentToken tokens s = Some startToken ->
  S (position s) <= position s' ->
  (tok_start startToken <=? end_at tokens s' startToken) = true.
Proof.
  intros Hstart Hp. apply Nat.leb_le.
  destruct (token_offsets _ tokens_ordered _ _ Hstart) as (H1 & H2 & H3).
  unfold end_at. destruct (currentToken tokens s') as [t|] eqn:Ht; [|lia].
  destruct (token_offsets _ tokens_ordered _ _ Ht) as (H4 & H5 & H6).
  pose proof (frontier_mono tokens _ _ Hp). lia.
Qed.

Lemma sound_body (body : list (option node)) :
  Forall sound_option body ->
  forallb (fun o => match o with
                    | Some c => all_nodes sound c
                    | None => true
                    end) body = true.
Proof.
  induction 1 as [|o body Ho _ IH]; simpl; [reflexivity|].
  rewrite IH. destruct o as [c|]; [|reflexivity]. rewrite (Ho c eq_refl). reflexivity.
Qed.

Section Bodies.

Variable fuel : nat.
Variable pStatement : pstate -> result (option node).
Variable pBlock : pstate -> result node.
Variable pBlock_loop : list (option node) -> pstate -> result (list (option node)).
Variable pIf pWhile pFor pFunction pClass : pstate -> result node.

Hypothesis H_statement : optional_statement_spec pStatement.
Hypothesis H_block : statement_spec pBlock.
Hypothesis H_block_loop : block_loop_spec pBlock_loop.
Hypothesis H_if : statement_spec pIf.
Hypothesis H_while : statement_spec pWhile.
Hypothesis H_for : statement_spec pFor.
Hypothesis H_function : statement_spec pFunction.
Hypothesis H_class : statement_spec pClass.

Lemma wrap_statement (f : pstate -> result node) (s : pstate) :
  statement_spec f ->
  post_statement (fun o _ => sound_option o) s
    (let* (n, s') := f s in Ok (Some n) s').
Proof.
  intros Hf. eapply post_statement_bind; [|apply Hf|]; [lia|].
  intros n s' Hp Hn. finish_statement. intros ? [= <-]. exact Hn.
Qed.

Lemma statement_attempt_spec (token : token) (s : pstate) :
  post_statement (fun o _ => sound_option o) s
    (statement_attempt input tokens fuel pIf pWhile pFor pFunction pClass token s).
Proof.
  unfold statement_attempt.
  destruct (tok_value token =s "var");
    [apply wrap_statement, parseVariableDeclaration_spec|].
  destruct (tok_value token =s "if"); [apply wrap_statement, H_if|].
  destruct (tok_value token =s "while"); [apply wrap_statement, H_while|].
  destruct (tok_value token =s "for"); [apply wrap_statement, H_for|].
  destruct (tok_value token =s "fun"); [apply wrap_statement, H_function|].
  destruct (tok_value token =s "class"); [apply wrap_statement, H_class|].
  destruct (tok_value token =s "return");
    [apply wrap_statement, parseReturnStatement_spec|].
  destruct (token_type_eqb (tok_type token) IDENTIFIER);
    [apply wrap_statement, parseExpressionStatement_spec|].
  simpl. split; [apply skipToNextStatement_position|]. intros ? [=].
Qed.

Lemma parseStatement_body_spec :
  optional_statement_spec
    (parseStatement_body input tokens fuel pIf pWhile pFor pFunction pClass).
Proof.
  intros s. unfold parseStatement_body.
  destruct (currentToken tokens s) as [token|]; [|finish_statement; intros ? [=]].
  pose proof (statement_attempt_spec token s) as H.
  destruct (statement_attempt _ _ _ _ _ _ _ _ _ _) as [stmt s'|msg s'|]; simpl in *.
  - exact H.
  - split; [|intros ? [=]].
    match goal with |- _ <= position (skipToNextStatement _ ?x) =>
      pose proof (skipToNextStatement_position x) end. simpl in *. lia.
  - exact I.
Qed.

Lemma parseBlock_body_spec :
  statement_spec (parseBlock_body tokens pStatement pBlock_loop).
Proof.
  intros s. unfold parseBlock_body.
  destruct (at_value tokens "{" s) eqn:Hopen.
  - apply at_value_Some in Hopen as (t & Ht & _).
    rewrite (nextToken_Some _ _ _ Ht).
    eapply post_statement_bind; [|apply H_block_loop; constructor|]; [simpl; lia|].
    intros body s1 Hp Hbody. apply sound_body in Hbody. simpl in Hp.
    assert (Hp2 : position s1 <= position match currentToken tokens s1 with
                                          | Some _ => nextToken tokens s1
                                          | None => s1
                                          end).
    { destruct (currentToken tokens s1) eqn:Hc; [|lia].
      rewrite (nextToken_Some _ _ _ Hc). simpl. lia. }
    finish_statement. built.
  - eapply post_statement_bind; [|apply H_statement|]; [lia|].
    intros stmt s1 Hp Hstmt. finish_statement.
    simpl. destruct stmt as [c|]; [rewrite (Hstmt c eq_refl)|]; reflexivity.
Qed.

Lemma parseBlock_loop_body_spec :
  block_loop_spec (parseBlock_loop_body tokens pStatement pBlock_loop).
Proof.
  intros body s Hbody. unfold parseBlock_loop_body.
  destruct (at_other_than tokens "}" s); [|finish_statement; exact Hbody].
  eapply post_statement_bind; [|apply H_statement|]; [lia|].
  intros stmt s1 Hp Hstmt.
  eapply post_statement_call; [exact Hp|]. apply H_block_loop.
  destruct stmt as [c|]; [|exact Hbody].
  apply Forall_app. split; [exact Hbody|]. repeat constructor. exact Hstmt.
Qed.

Lemma parseWhileStatement_body_spec :
  statement_spec (parseWhileStatement_body tokens fuel pBlock).
Proof.
  intros s. unfold parseWhileStatement_body.
  destruct (currentToken tokens s) as [startToken|] eqn:Hstart; [|finish_statement].
  rewrite (nextToken_Some _ _ _ Hstart).
  set (s1 := PState (S (position s)) (errors s)).
  destruct (at_value tokens "(" s1) eqn:Hopen; simpl;
    [|apply post_statement_throw_at; simpl; lia].
  apply at_value_Some in Hopen as (o & Ho & _).
  rewrite (nextToken_Some _ _ _ Ho). subst s1. simpl.
  eapply post_statement_bind; [|apply parseExpression_statement|]; [simpl; lia|].
  intros test s2 Hp2 Hspan. apply spans_sound in Hspan as (_ & Htest). simpl in Hp2.
  destruct (at_value tokens ")" s2) eqn:Hclose; simpl;
    [|apply post_statement_throw_at; lia].
  apply at_value_Some in Hclose as (c & Hc & _).
  rewrite (nextToken_Some _ _ _ Hc).
  eapply post_statement_bind; [|apply H_block|]; [simpl; lia|].
  intros body s3 Hp3 Hbody. simpl in Hp3.
  pose proof (end_at_start s s3 startToken Hstart ltac:(lia)) as Hle.
  finish_statement. built.
Qed.

Lemma parseIfStatement_body_spec :
  statement_spec (parseIfStatement_body tokens fuel pBlock pIf).
Proof.
  intros s. unfold parseIfStatement_body.
  destruct (currentToken tokens s) as [startToken|] eqn:Hstart; [|finish_statement].
  rewrite (nextToken_Some _ _ _ Hstart).
  set (s1 := PState (S (position s)) (errors s)).
  destruct (at_value tokens "(" s1) eqn:Hopen; simpl;
    [|apply post_statement_throw_at; simpl; lia].
  apply at_value_Some in Hopen as (o & Ho & _).
  rewrite (nextToken_Some _ _ _ Ho). subst s1. simpl.
  eapply post_statement_bind; [|apply parseExpression_statement|]; [simpl; lia|].
  intros test s2 Hp2 Hspan. apply spans_sound in Hspan as (_ & Htest). simpl in Hp2.
  destruct (at_value tokens ")" s2) eqn:Hclose; simpl;
    [|apply post_statement_throw_at; lia].
  apply at_value_Some in Hclose as (c & Hc & _).
  rewrite (nextToken_Some _ _ _ Hc).
  eapply post_statement_bind; [|apply H_block|]; [simpl; lia|].
  intros consequent s3 Hp3 Hcons. simpl in Hp3.
  eapply (post_statement_bind (fun alternate _ => sound_option alternate) _ s s3).
  - lia.
  - destruct (at_value tokens "else" s3) eqn:Helse;
      [|finish_statement; intros ? [=]].
    apply at_value_Some in Helse as (e & He & _).
    rewrite (nextToken_Some _ _ _ He).
    destruct (at_value tokens "if" _).
    + eapply post_statement_call; [|apply wrap_statement, H_if]. simpl; lia.
    + eapply post_statement_call; [|apply wrap_statement, H_block]. simpl; lia.
  - intros alternate s4 Hp4 Halt.
    assert (Ha : match alternate with
                 | Some a => all_nodes sound a
                 | None => true
                 end = true) by (destruct alternate; auto).
    pose proof (end_at_start s s4 startToken Hstart ltac:(lia)) as Hle.
    finish_statement. built.
Qed.

(** A clause of the [for] header: absent, or parsed by [p]. *)
Lemma for_clause_spec (s0 s1 : pstate) (stop : string)
    (p : pstate -> result (option node)) :
  position s0 <= position s1 ->
  (forall s, post_statement (fun o _ => sound_option o) s (p s)) ->
  post_statement (fun o _ => sound_option o) s0
    match currentToken tokens s1 with
    | None => Throw (null_read "value") s1
    | Some t => if tok_value t =s stop then Ok None s1 else p s1
    end.
Proof.
  intros Hp Hspec. destruct (currentToken tokens s1) as [t|]; [|finish_statement].
  destruct (tok_value t =s stop); [finish_statement; intros ? [=]|].
  eapply post_statement_call; [exact Hp|apply Hspec].
Qed.

Lemma wrap_expression (s : pstate) :
  post_statement (fun o _ => sound_option o) s
    (let* (n, s') := parseExpression tokens fuel s in Ok (Some n) s').
Proof.
  eapply post_statement_bind; [|apply parseExpression_statement|]; [lia|].
  intros n s' Hp Hn. apply spans_sound in Hn as (_ & Hn).
  finish_statement. intros ? [= <-]. exact Hn.
Qed.

Lemma parseForStatement_body_spec :
  statement_spec (parseForStatement_body input tokens fuel pBlock).
Proof.
  intros s. unfold parseForStatement_body.
  destruct (currentToken tokens s) as [startToken|] eqn:Hstart; [|finish_statement].
  rewrite (nextToken_Some _ _ _ Hstart).
  set (s1 := PState (S (position s)) (errors s)).
  destruct (at_value tokens "(" s1) eqn:Hopen; simpl;
    [|apply post_statement_throw_at; simpl; lia].
  apply at_value_Some in Hopen as (o & Ho & _).
  rewrite (nextToken_Some _ _ _ Ho). subst s1. simpl.
  set (s2 := PState (S (S (position s))) (errors s)).
  eapply (post_statement_bind (fun o _ => sound_option o) _ s s2).
  { simpl; lia. }
  { destruct (currentToken tokens s2) as [t|]; [|finish_statement].
    destruct (tok_value t =s ";"); [finish_statement; intros ? [=]|].
    destruct (tok_value t =s "var");
      [apply wrap_statement, parseVariableDeclaration_spec|apply wrap_expression]. }
  intros init s3 Hp3 Hinit. simpl in Hp3.
  assert (Hi : match init with Some c => all_nodes sound c | None => true end = true)
    by (destruct init; auto).
  destruct (at_value tokens ";" s3) eqn:Hsemi1; simpl;
    [|apply post_statement_throw_at; lia].
  apply at_value_Some in Hsemi1 as (c1 & Hc1 & _).
  rewrite (nextToken_Some _ _ _ Hc1).
  set (s4 := PState (S (position s3)) (errors s3)).
  eapply (post_statement_bind (fun o _ => sound_option o) _ s s4).
  { simpl; lia. }
  { apply (for_clause_spec s4 s4 ";"
             (fun s' => let* (n, s'') := parseExpression tokens fuel s'
                        in Ok (Some n) s'')); [lia|]. intros s'. apply wrap_expression. }
  intros test s5 Hp5 Htest. simpl in Hp5.
  assert (Ht : match test with Some c => all_nodes sound c | None => true end = true)
    by (destruct test; auto).
  destruct (at_value tokens ";" s5) eqn:Hsemi2; simpl;
    [|apply post_statement_throw_at; lia].
  apply at_value_Some in Hsemi2 as (c2 & Hc2 & _).
  rewrite (nextToken_Some _ _ _ Hc2).
  set (s6 := PState (S (position s5)) (errors s5)).
  eapply (post_statement_bind (fun o _ => sound_option o) _ s s6).
  { simpl; lia. }
  { apply (for_clause_spec s6 s6 ")"
             (fun s' => let* (n, s'') := parseExpression tokens fuel s'
                        in Ok (Some n) s'')); [lia|]. intros s'. apply wrap_expression. }
  intros update s7 Hp7 Hupdate. simpl in Hp7.
  assert (Hu : match update with Some c => all_nodes sound c | None => true end = true)
    by (destruct update; auto).
  destruct (at_value tokens ")" s7) eqn:Hclose; simpl;
    [|apply post_statement_throw_at; lia].
  apply at_value_Some in Hclose as (c3 & Hc3 & _).
  rewrite (nextToken_Some _ _ _ Hc3).
  eapply post_statement_bind; [|apply H_block|]; [simpl; lia|].
  intros body s8 Hp8 Hbody. simpl in Hp8.
  pose proof (end_at_start s s8 startToken Hstart ltac:(lia)) as Hle.
  finish_statement. built.
Qed.

Lemma token_in_order (s : pstate) (t : token) :
  currentToken tokens s = Some t -> (tok_start t <=? tok_end t) = true.
Proof.
  intros Ht. destruct (token_offsets _ tokens_ordered _ _ Ht) as (_ & H & _).
  apply Nat.leb_le. lia.
Qed.

Lemma parseFunctionDeclaration_body_spec :
  statement_spec (parseFunctionDeclaration_body tokens pBlock).
Proof.
  intros s. unfold parseFunctionDeclaration_body.
  destruct (currentToken tokens s) as [startToken|] eqn:Hstart; [|finish_statement].
  rewrite (nextToken_Some _ _ _ Hstart).
  set (s1 := PState (S (position s)) (errors s)).
  destruct (currentToken tokens s1) as [nameToken|] eqn:Hname;
    [|apply post_statement_throw_at; simpl; lia].
  destruct (token_type_eqb (tok_type nameToken) IDENTIFIER);
    [|apply post_statement_throw_at; simpl; lia].
  pose proof (token_in_order _ _ Hname) as Hid.
  rewrite (nextToken_Some _ _ _ Hname). subst s1. simpl.
  set (s2 := PState (S (S (position s))) (errors s)).
  destruct (at_value tokens "(" s2) eqn:Hopen; simpl;
    [|apply post_statement_throw_at; simpl; lia].
  apply at_value_Some in Hopen as (o & Ho & _).
  rewrite (nextToken_Some _ _ _ Ho). subst s2. simpl.
  match goal with |- context [parseParams tokens ?x] =>
    pose proof (parseParams_position x) as Hparams;
    destruct (parseParams tokens x) as [params s3] end.
  simpl in Hparams.
  destruct (at_value tokens ")" s3) eqn:Hclose; simpl;
    [|apply post_statement_throw_at; lia].
  apply at_value_Some in Hclose as (c & Hc & _).
  rewrite (nextToken_Some _ _ _ Hc).
  eapply post_statement_bind; [|apply H_block|]; [simpl; lia|].
  intros body s4 Hp4 Hbody. simpl in Hp4.
  pose proof (end_at_start s s4 startToken Hstart ltac:(lia)) as Hle.
  finish_statement. built.
Qed.

Lemma parseClassDeclaration_body_spec :
  statement_spec (parseClassDeclaration_body tokens pBlock).
Proof.
  intros s. unfold parseClassDeclaration_body.
  destruct (currentToken tokens s) as [startToken|] eqn:Hstart; [|finish_statement].
  rewrite (nextToken_Some _ _ _ Hstart).
  set (s1 := PState (S (position s)) (errors s)).
  destruct (currentToken tokens s1) as [nameToken|] eqn:Hname;
    [|apply post_statement_throw_at; simpl; lia].
  destruct (token_type_eqb (tok_type nameToken) IDENTIFIER);
    [|apply post_statement_throw_at; simpl; lia].
  pose proof (token_in_order _ _ Hname) as Hid.
  rewrite (nextToken_Some _ _ _ Hname). subst s1. simpl.
  set (s2 := PState (S (S (position s))) (errors s)).
  destruct (at_value tokens "{" s2) eqn:Hopen; simpl;
    [|apply post_statement_throw_at; simpl; lia].
  eapply post_statement_bind; [|apply H_block|]; [simpl; lia|].
  intros body s3 Hp3 Hbody. simpl in Hp3.
  pose proof (end_at_start s s3 startToken Hstart ltac:(lia)) as Hle.
  finish_statement. built.
Qed.

End Bodies.

(** The statement parsers keep the invariant at every fuel. *)
Lemma statement_parsers_spec (fuel : nat) :
  optional_statement_spec (parseStatement input tokens fuel)
  /\ statement_spec (parseBlock input tokens fuel)
  /\ block_loop_spec (parseBlock_loop input tokens fuel)
  /\ statement_spec (parseIfStatement input tokens fuel)
  /\ statement_spec (parseWhileStatement input tokens fuel)
  /\ statement_spec (parseForStatement input tokens fuel)
  /\ statement_spec (parseFunctionDeclaration input tokens fuel)
  /\ statement_spec (parseClassDeclaration input tokens fuel).
Proof.
  induction fuel as [|fuel (IH1 & IH2 & IH3 & IH4 & IH5 & IH6 & IH7 & IH8)].
  - repeat split; repeat intro; exact I.
  - repeat split.
    + apply parseStatement_body_spec; assumption.
    + apply parseBlock_body_spec; assumption.
    + apply parseBlock_loop_body_spec; assumption.
    + apply parseIfStatement_body_spec; assumption.
    + apply parseWhileStatement_body_spec; assumption.
    + apply parseForStatement_body_spec; assumption.
    + apply parseFunctionDeclaration_body_spec; assumption.
    + apply parseClassDeclaration_body_spec; assumption.
Qed.

Lemma parse_loop_sound (fuel : nat) (statements : list node) (s : pstate) :
  Forall (fun n => all_nodes sound n = true) statements ->
  post_statement (fun l _ => Forall (fun n => all_nodes sound n = true) l) s
    (parse_loop input tokens fuel statements s).
Proof.
  revert statements s; induction fuel as [|fuel IH]; intros statements s Hs; simpl;
    [exact I|].
  destruct (position s <? length tokens); [|finish_statement; exact Hs].
  eapply post_statement_bind; [|apply (statement_parsers_spec fuel)|]; [lia|].
  intros stmt s1 Hp Hstmt. eapply post_statement_call; [exact Hp|]. apply IH.
  destruct stmt as [n|]; [|exact Hs].
  apply Forall_app. split; [exact Hs|]. repeat constructor. exact (Hstmt n eq_refl).
Qed.

End StatementInvariant.

(** Every statement that parse returns is sound throughout. *)
Lemma parse_sound (fuel : nat) (input : string) (ast : program) :
  parse fuel input = Returned ast ->
  Forall (fun n => all_nodes sound n = true) (prog_body ast).
Proof.
  unfold parse. destruct (blank input); [intros [= <-]; constructor|].
  destruct (tokenize input) as [tokens|msg|] eqn:Ht; try discriminate.
  pose proof (parse_loop_sound input tokens (tokenize_ordered _ _ Ht) fuel [] (PState 0 [])
                (List.Forall_nil _)) as H.
  destruct (parse_loop input tokens fuel [] (PState 0 [])) as [l s|msg s|];
    try discriminate.
  intros [= <-]. simpl in *. tauto.
Qed.

(** ** Induction over syntax trees *)

Section NodeInduction.

Variable P : node -> Prop.

Hypothesis P_Identifier : forall name a b, P (Identifier name a b).
Hypothesis P_Literal : forall v raw a b, P (Literal v raw a b).
Hypothesis P_Binary : forall op l r a b, P l -> P r -> P (BinaryExpression op l r a b).
Hypothesis P_Logical : forall op l r a b, P l -> P r -> P (LogicalExpression op l r a b).
Hypothesis P_Unary : forall op e a b, P e -> P (UnaryExpression op e a b).
Hypothesis P_Call : forall c args a b, P c -> Forall P args -> P (CallExpression c args a b).
Hypothesis P_Member : forall o f a b, P o -> P f -> P (MemberExpression o f a b).
Hypothesis P_Array : forall es a b, Forall P es -> P (ArrayExpression es a b).
Hypothesis P_Object : forall ps a b, Forall P ps -> P (ObjectExpression ps a b).
Hypothesis P_Property : forall k v a b, P v -> P (Property k v a b).
Hypothesis P_Variable : forall t name init a b,
    on_option P init -> P (VariableDeclaration t name init a b).
Hypothesis P_If : forall t c alt a b,
    P t -> P c -> on_option P alt -> P (IfStatement t c alt a b).
Hypothesis P_While : forall t body a b, P t -> P body -> P (WhileStatement t body a b).
Hypothesis P_For : forall i t u body a b,
    on_option P i -> on_option P t -> on_option P u -> P body -> P (ForStatement i t u body a b).
Hypothesis P_Block : forall body, Forall (on_option P) body -> P (BlockStatement body).
Hypothesis P_Function : forall f params body a b,
    P f -> P body -> P (FunctionDeclaration f params body a b).
Hypothesis P_Class : forall f body a b, P f -> P body -> P (ClassDeclaration f body a b).
Hypothesis P_Return : forall e a b, on_option P e -> P (ReturnStatement e a b).
Hypothesis P_Statement : forall e a b, P e -> P (ExpressionStatement e a b).
Hypothesis P_Assignment : forall op l r a b,
    P l -> P r -> P (AssignmentExpression op l r a b).

Lemma node_deep_ind : forall n : node, P n.
Proof.
exact (fix node_deep_ind (n : node) : P n :=
  let each := fix each (l : list node) : Forall P l :=
    match l with
    | [] => @List.Forall_nil _ P
    | x :: rest => @List.Forall_cons _ P x rest (node_deep_ind x) (each rest)
    end in
  let optional (o : option node) : on_option P o :=
    match o with
    | Some c => node_deep_ind c
    | None => I
    end in
  match n with
  | Identifier name a b => P_Identifier name a b
  | Literal v raw a b => P_Literal v raw a b
  | BinaryExpression op l r a b => P_Binary op l r a b (node_deep_ind l) (node_deep_ind r)
  | LogicalExpression op l r a b =>
      P_Logical op l r a b (node_deep_ind l) (node_deep_ind r)
  | UnaryExpression op e a b => P_Unary op e a b (node_deep_ind e)
  | CallExpression c args a b => P_Call c args a b (node_deep_ind c) (each args)
  | MemberExpression o f a b => P_Member o f a b (node_deep_ind o) (node_deep_ind f)
  | ArrayExpression es a b => P_Array es a b (each es)
  | ObjectExpression ps a b => P_Object ps a b (each ps)
  | Property k v a b => P_Property k v a b (node_deep_ind v)
  | VariableDeclaration t name init a b => P_Variable t name init a b (optional init)
  | IfStatement t c alt a b =>
      P_If t c alt a b (node_deep_ind t) (node_deep_ind c) (optional alt)
  | WhileStatement t body a b =>
      P_While t body a b (node_deep_ind t) (node_deep_ind body)
  | ForStatement i t u body a b =>
      P_For i t u body a b (optional i) (optional t) (optional u) (node_deep_ind body)
  | BlockStatement body =>
      P_Block body
        ((fix all (l : list (option node)) : Forall (on_option P) l :=
            match l with
            | [] => @List.Forall_nil _ (on_option P)
            | o :: rest => @List.Forall_cons _ (on_option P) o rest (optional o) (all rest)
            end) body)
  | FunctionDeclaration f params body a b =>
      P_Function f params body a b (node_deep_ind f) (node_deep_ind body)
  | ClassDeclaration f body a b =>
      P_Class f body a b (node_deep_ind f) (node_deep_ind body)
  | ReturnStatement e a b => P_Return e a b (optional e)
  | ExpressionStatement e a b => P_Statement e a b (node_deep_ind e)
  | AssignmentExpression op l r a b =>
      P_Assignment op l r a b (node_deep_ind l) (node_deep_ind r)
  end).
Qed.

End NodeInduction.

Lemma forallb_Forall_impl {A : Type} (f g : A -> bool) (l : list A) :
  Forall (fun x => f x = true -> g x = true) l ->
  forallb f l = true -> forallb g l = true.
Proof.
  induction 1 as [|x l Hx _ IH]; simpl; [auto|].
  rewrite !andb_true_iff. intuition auto.
Qed.

Lemma all_nodes_impl (p q : node -> bool) :
  (forall n, p n = true -> q n = true) ->
  forall n, all_nodes p n = true -> all_nodes q n = true.
Proof.
  intros Hpq n.
  induction n using node_deep_ind; simpl;
    repeat match goal with
           | o : option node |- _ => destruct o; simpl in *
           end;
    rewrite ?andb_true_iff; try solve [intuition auto];
    try solve [intuition eauto using forallb_Forall_impl].
  - (* BlockStatement *)
    intros (Hp & Hbody). split; [auto|].
    revert Hbody. apply forallb_Forall_impl.
    eapply List.Forall_impl; [|exact H]. intros [c|]; simpl; auto.
Qed.

Lemma sound_offsets_in_order (n : node) :
  all_nodes sound n = true -> all_nodes offsets_in_order n = true.
Proof.
  apply all_nodes_impl. unfold sound. intros m H. rewrite !andb_true_iff in H. tauto.
Qed.

Lemma sound_declared_type_known (n : node) :
  all_nodes sound n = true -> all_nodes declared_type_known n = true.
Proof.
  apply all_nodes_impl. unfold sound. intros m H. rewrite !andb_true_iff in H. tauto.
Qed.

Lemma sound_assignment_shape (n : node) :
  all_nodes sound n = true -> all_nodes assignment_shape n = true.
Proof.
  apply all_nodes_impl. unfold sound. intros m H. rewrite !andb_true_iff in H. tauto.
Qed.

(** C3, as amended.  Every node of every statement that parse returns, other
    than a [BlockStatement], carries [start] and [end] offsets with
    [start <= end]; a [BlockStatement] carries neither ([offsets_in_order]
    says so for one node, [all_nodes] extends it to the whole tree). *)
Theorem parse_offsets_in_order (fuel : nat) (input : string) (ast : program) :
  parse fuel input = Returned ast ->
  Forall (fun stmt => all_nodes offsets_in_order stmt = true) (prog_body ast).
Proof.
  intros H. apply parse_sound in H.
  eapply List.Forall_impl; [|exact H]. intros n. apply sound_offsets_in_order.
Qed.

Lemma parse_offsets_in_order_witness :
  Forall (fun stmt => all_nodes offsets_in_order stmt = true)
    [IfStatement (Identifier "x" 4 5)
       (BlockStatement
          [Some (AssignmentExpression "=" (Identifier "y" 7 8)
                   (Literal (LNumber (Some 1%N)) "1" 11 12) 7 13)])
       None 0 2].
Proof.
  exact (parse_offsets_in_order 30 "if (x) y = 1;"
           (Program
              [IfStatement (Identifier "x" 4 5)
                 (BlockStatement
                    [Some (AssignmentExpression "=" (Identifier "y" 7 8)
                             (Literal (LNumber (Some 1%N)) "1" 11 12) 7 13)])
                 None 0 2]
              (Some []))
           eq_refl).
Defined.

(** C3 as stated fails: the body of a loop is a node of the tree that parse
    returns, and it has no [start] and no [end]. *)
Lemma block_statement_without_offsets :
  parse 30 "while (x) y;"
  = Returned
      (Program
         [WhileStatement (Identifier "x" 7 8)
            (BlockStatement [Some (ExpressionStatement (Identifier "y" 10 11) 10 12)])
            0 5]
         (Some []))
  /\ node_start
       (BlockStatement [Some (ExpressionStatement (Identifier "y" 10 11) 10 12)]) = None
  /\ node_end
       (BlockStatement [Some (ExpressionStatement (Identifier "y" 10 11) 10 12)]) = None.
Proof. repeat split. Qed.

(** ** Error recovery *)

Section Recovery.

Variable input : string.
Variable tokens : list token.

Lemma skip_loop_recovers (fuel : nat) (s : pstate) :
  length tokens - position s <= fuel ->
  recovers tokens s (skip_loop tokens fuel s).
Proof.
  revert s; induction fuel as [|fuel IH]; intros s Hf; simpl.
  - apply recovers_exhausted. apply lookup_ge_None. lia.
  - destruct (currentToken tokens s) as [t|] eqn:Ht;
      [|apply recovers_exhausted; exact Ht].
    rewrite (nextToken_Some _ _ _ Ht).
    destruct (tok_value t =s ";") eqn:Hsemi.
    { apply String.eqb_eq in Hsemi. eapply recovers_semicolon; eauto. }
    destruct (tok_value t =s "}") eqn:Hclose.
    { apply String.eqb_eq in Hclose. eapply recovers_brace; eauto. }
    destruct (tok_value t =s "{") eqn:Hopen.
    { apply String.eqb_eq in Hopen. eapply recovers_brace; eauto. }
    simpl. destruct (isStatementStart t) eqn:Hstart.
    { eapply recovers_statement; eauto. }
    apply String.eqb_neq in Hsemi, Hclose, Hopen.
    eapply recovers_skip; eauto. apply IH. simpl. lia.
Qed.

(** skipToNextStatement stops exactly where [recovers] says. *)
Lemma skipToNextStatement_recovers (s : pstate) :
  recovers tokens s (skipToNextStatement tokens s).
Proof. apply skip_loop_recovers. lia. Qed.

Lemma recovers_errors (s s' : pstate) : recovers tokens s s' -> errors s' = errors s.
Proof. induction 1; simpl in *; congruence. Qed.

Lemma recovers_position (s s' : pstate) :
  recovers tokens s s' -> position s <= position s'.
Proof. induction 1; simpl in *; lia. Qed.

Lemma skipToNextStatement_errors (s : pstate) :
  errors (skipToNextStatement tokens s) = errors s.
Proof. apply recovers_errors, skipToNextStatement_recovers. Qed.

Lemma parseStatement_eq (fuel : nat) (s : pstate) :
  parseStatement input tokens (S fuel) s =
  match currentToken tokens s with
  | None => Ok None s
  | Some token =>
      match statement_try input tokens fuel token s with
      | Ok stmt s' => Ok stmt s'
      | Throw msg s' =>
          Ok None (skipToNextStatement tokens
                     (addError msg (tok_start token) (tok_end token) s'))
      | OutOfFuel => OutOfFuel
      end
  end.
Proof. reflexivity. Qed.

Lemma includes_false_cons (k v : string) (l : list string) :
  includes (k :: l) v = false -> (v =s k) = false /\ includes l v = false.
Proof.
  unfold includes. simpl. intros H. apply orb_false_iff in H as [H1 H2].
  rewrite String.eqb_sym. auto.
Qed.

(** A first token that starts no statement falls through every test of
    the [try] block. *)
Lemma statement_attempt_unrecognised (fuel : nat)
    (pIf pWhile pFor pFunction pClass : pstate -> result node)
    (token : token) (s : pstate) :
  isStatementStart token = false ->
  statement_attempt input tokens fuel pIf pWhile pFor pFunction pClass token s
  = Ok None (skipToNextStatement tokens s).
Proof.
  unfold isStatementStart, statementStarters. intros H.
  apply orb_false_iff in H as [H Hid].
  apply includes_false_cons in H as [H1 H].
  apply includes_false_cons in H as [H2 H].
  apply includes_false_cons in H as [H3 H].
  apply includes_false_cons in H as [H4 H].
  apply includes_false_cons in H as [H5 H].
  apply includes_false_cons in H as [H6 H].
  apply includes_false_cons in H as [H7 _].
  unfold statement_attempt. rewrite H1, H2, H3, H4, H5, H6, H7, Hid. reflexivity.
Qed.

End Recovery.

(** C10.  When the first token of a statement is none of [var], [if],
    [while], [for], [fun], [class], [return] and is no identifier,
    parseStatement returns no node and records no error: the error list is
    unchanged and the tokens are dropped up to the next [;] (consumed), brace
    or statement start (left in place), or the end of the tokens. *)
Theorem parseStatement_unrecognised (input : string) (tokens : list token)
    (fuel : nat) (s : pstate) (token : token) :
  currentToken tokens s = Some token ->
  isStatementStart token = false ->
  parseStatement input tokens (S fuel) s = Ok None (skipToNextStatement tokens s)
  /\ errors (skipToNextStatement tokens s) = errors s
  /\ recovers tokens s (skipToNextStatement tokens s).
Proof.
  intros Ht Hstart. split; [|split].
  - rewrite parseStatement_eq, Ht. unfold statement_try.
    rewrite statement_attempt_unrecognised by exact Hstart. reflexivity.
  - apply skipToNextStatement_errors.
  - apply skipToNextStatement_recovers.
Qed.

Lemma parseStatement_unrecognised_witness :
  let tokens := [Token KEYWORD "use" 0 3; Token IDENTIFIER "sys" 4 7;
                 Token SYMBOL ";" 7 8] in
  tokenize "use sys;" = Tokens tokens
  /\ parseStatement "use sys;" tokens 1 (PState 0 []) = Ok None (PState 1 [])
  /\ recovers tokens (PState 0 []) (PState 1 []).
Proof.
  split; [reflexivity|].
  destruct (parseStatement_unrecognised "use sys;"
              [Token KEYWORD "use" 0 3; Token IDENTIFIER "sys" 4 7; Token SYMBOL ";" 7 8]
              0 (PState 0 []) (Token KEYWORD "use" 0 3) eq_refl eq_refl)
    as (Hparse & _ & Hrec).
  split; [exact Hparse|exact Hrec].
Defined.

Lemma parse_loop_eq (input : string) (tokens : list token) (fuel : nat)
    (statements : list node) (s : pstate) :
  parse_loop input tokens (S fuel) statements s =
  if position s <? length tokens then
    let* (stmt, s1) := parseStatement input tokens fuel s in
    parse_loop input tokens fuel
      match stmt with
      | Some n => statements ++ [n]
      | None => statements
      end s1
  else Ok statements s.
Proof. reflexivity. Qed.

Lemma currentToken_in_range (tokens : list token) (s : pstate) (t : token) :
  currentToken tokens s = Some t -> (position s <? length tokens) = true.
Proof. intros H. apply lookup_lt_Some in H. apply Nat.ltb_lt. exact H. Qed.

(** C4, as amended.  When the [try] block of parseStatement throws, the
    exception is caught there: the message is recorded as a SyntaxError
    whose range is the offset range of the FIRST token of the statement,
    parseStatement returns no node, and the parser drops tokens up to the
    next [;] (consumed), brace or statement start (left in place), or the end
    of the tokens; the loop of parse goes on from that state with the same
    list of statements. *)
Theorem parseStatement_recovery (input : string) (tokens : list token) (fuel : nat)
    (s : pstate) (token : token) (msg : string) (s1 : pstate) :
  currentToken tokens s = Some token ->
  statement_try input tokens fuel token s = Throw msg s1 ->
  let s2 := addError msg (tok_start token) (tok_end token) s1 in
  parseStatement input tokens (S fuel) s = Ok None (skipToNextStatement tokens s2)
  /\ errors (skipToNextStatement tokens s2)
     = errors s1 ++ [SyntaxError msg (tok_start token) (tok_end token)]
  /\ recovers tokens s2 (skipToNextStatement tokens s2)
  /\ forall statements,
       parse_loop input tokens (S (S fuel)) statements s
       = parse_loop input tokens (S fuel) statements (skipToNextStatement tokens s2).
Proof.
  intros Ht Hthrow s2.
  assert (Hparse : parseStatement input tokens (S fuel) s
                   = Ok None (skipToNextStatement tokens s2)).
  { rewrite parseStatement_eq, Ht, Hthrow. reflexivity. }
  split; [exact Hparse|]. split; [|split].
  - rewrite skipToNextStatement_errors. reflexivity.
  - apply skipToNextStatement_recovers.
  - intros statements.
    rewrite (parse_loop_eq input tokens (S fuel)), (currentToken_in_range _ _ _ Ht), Hparse.
    reflexivity.
Qed.

Lemma parseStatement_recovery_witness :
  let input := "if (x ; y;" in
  let tokens := [Token KEYWORD "if" 0 2; Token SYMBOL "(" 3 4; Token IDENTIFIER "x" 4 5;
                 Token SYMBOL ";" 6 7; Token IDENTIFIER "y" 8 9; Token SYMBOL ";" 9 10] in
  let recorded := SyntaxError "Expected ')' after if condition at position 6" 0 2 in
  parseStatement input tokens 21 (PState 0 []) = Ok None (PState 4 [recorded])
  /\ recovers tokens (PState 3 [recorded]) (PState 4 [recorded]).
Proof.
  intros input tokens recorded.
  destruct (parseStatement_recovery input tokens 20 (PState 0 [])
              (Token KEYWORD "if" 0 2)
              "Expected ')' after if condition at position 6" (PState 3 [])
              eq_refl eq_refl) as (Hparse & _ & Hrec & _).
  split; [exact Hparse|exact Hrec].
Defined.

(** C4 as stated fails: the recorded range is not the range of the offending
    token.  In [if (x ; y;] the parse fails at the fourth token, the [;] at
    offsets 6..7 (the message names position 6), and the SyntaxError that
    parse returns has the range 0..2 of the [if] token. *)
Lemma recovery_range_is_first_token :
  let input := "if (x ; y;" in
  let tokens := [Token KEYWORD "if" 0 2; Token SYMBOL "(" 3 4; Token IDENTIFIER "x" 4 5;
                 Token SYMBOL ";" 6 7; Token IDENTIFIER "y" 8 9; Token SYMBOL ";" 9 10] in
  tokenize input = Tokens tokens
  /\ statement_try input tokens 20 (Token KEYWORD "if" 0 2) (PState 0 [])
     = Throw "Expected ')' after if condition at position 6" (PState 3 [])
  /\ currentToken tokens (PState 3 []) = Some (Token SYMBOL ";" 6 7)
  /\ parse 30 input
     = Returned
         (Program [ExpressionStatement (Identifier "y" 8 9) 8 10]
            (Some [SyntaxError "Expected ')' after if condition at position 6" 0 2]))
  /\ (0, 2) <> (6, 7).
Proof. repeat split. discriminate. Qed.

(** ** Runs that never finish *)

(** A brace where a statement should start is not consumed by
    parseStatement; the loop of parse then sees the same state again and
    again.  No amount of fuel lets it return. *)
Lemma parse_loop_stuck_at_brace (input : string) (tokens : list token) (s : pstate)
    (t : token) :
  currentToken tokens s = Some t ->
  tok_value t = "{" \/ tok_value t = "}" ->
  isStatementStart t = false ->
  forall fuel statements, parse_loop input tokens fuel statements s = OutOfFuel.
Proof.
  intros Ht Hbrace Hstart.
  assert (Hskip : skipToNextStatement tokens s = s).
  { unfold skipToNextStatement.
    pose proof (currentToken_in_range _ _ _ Ht) as Hlt. apply Nat.ltb_lt in Hlt.
    destruct (length tokens - position s) as [|n] eqn:Hn; [lia|].
    simpl. rewrite Ht, Hstart.
    destruct Hbrace as [-> | ->]; reflexivity. }
  induction fuel as [|fuel IH]; intros statements; [reflexivity|].
  rewrite parse_loop_eq, (currentToken_in_range _ _ _ Ht).
  destruct fuel as [|fuel]; [reflexivity|].
  rewrite parseStatement_eq, Ht. unfold statement_try.
  rewrite statement_attempt_unrecognised by exact Hstart.
  rewrite Hskip. unfold bind. cbv beta iota. apply IH.
Qed.

(** C1 fails on the text [}]: parse never returns, whatever the fuel. *)
Theorem parse_diverges_on_brace : forall fuel, parse fuel "}" = Diverged.
Proof.
  intros fuel. unfold parse.
  change (blank "}") with false. change (tokenize "}") with (Tokens [Token SYMBOL "}" 0 1]).
  cbv iota.
  rewrite (parse_loop_stuck_at_brace "}" [Token SYMBOL "}" 0 1] (PState 0 [])
             (Token SYMBOL "}" 0 1) eq_refl (or_intror eq_refl) eq_refl).
  reflexivity.
Qed.

(** The example of the specification, [if (x { say(1); }]: the failed [if]
    is recovered up to the [{], where the loop of parse stays for ever. *)
Lemma parse_diverges_after_recovery :
  forall fuel, parse fuel "if (x { say(1); }" = Diverged.
Proof.
  intros fuel. unfold parse.
  change (blank "if (x { say(1); }") with false.
  set (tokens := [Token KEYWORD "if" 0 2; Token SYMBOL "(" 3 4; Token IDENTIFIER "x" 4 5;
                  Token SYMBOL "{" 6 7; Token IDENTIFIER "say" 8 11;
                  Token SYMBOL "(" 11 12; Token NUMBER "1" 12 13; Token SYMBOL ")" 13 14;
                  Token SYMBOL ";" 14 15; Token SYMBOL "}" 16 17]).
  change (tokenize "if (x { say(1); }") with (Tokens tokens). cbv iota.
  do 16 (destruct fuel as [|fuel]; [vm_compute; reflexivity|]).
  rewrite parse_loop_eq. change (position (PState 0 []) <? length tokens) with true.
  cbv iota.
  set (recorded := SyntaxError "Expected ')' after if condition at position 6" 0 2).
  assert (Hfirst : parseStatement "if (x { say(1); }" tokens
                     (S (S (S (S (S (S (S (S (S (S (S (S (S (S (S fuel)))))))))))))))
                     (PState 0 [])
                   = Ok None (PState 3 [recorded])) by (vm_compute; reflexivity).
  rewrite Hfirst. unfold bind. cbv beta iota.
  rewrite (parse_loop_stuck_at_brace _ tokens (PState 3 [recorded])
             (Token SYMBOL "{" 6 7) eq_refl (or_introl eq_refl) eq_refl).
  reflexivity.
Qed.

(** ** Missing semicolons *)

(** C2 fails for every declaration with an initialiser.  When
    parseVariableDeclaration returns a declaration with an initialiser and
    has recorded an error, this is the one missing-semicolon SyntaxError; it
    ends at the end of the line, but it starts at the [end] recorded in the
    node, which is the end of the NAME token: strictly before the
    initialiser starts, and so before the statement ends. *)
Theorem missing_semicolon_range_after_name (input : string) (tokens : list token)
    (fuel : nat) (s s' : pstate) (T : option string) (name : string) (e : node)
    (a b : nat) :
  ordered tokens ->
  parseVariableDeclaration input tokens fuel s
  = Ok (VariableDeclaration T name (Some e) a b) s' ->
  errors s' <> errors s ->
  errors s'
  = errors s ++ [SyntaxError "Missing semicolon at end of variable declaration" b
                   (findEndOfLine input b)]
  /\ b < start_of e /\ start_of e <= end_of e.
Proof.
  intros Hord H Herr. unfold parseVariableDeclaration in H.
  destruct (currentToken tokens s) as [startToken|] eqn:Hstart; [|discriminate].
  rewrite (nextToken_Some _ _ _ Hstart) in H.
  set (s1 := PState (S (position s)) (errors s)) in H.
  set (annotation := match currentToken tokens s1 with
                     | Some t => if isTypeKeyword (tok_value t)
                                 then (Some (tok_value t), nextToken tokens s1)
                                 else (None, s1)
                     | None => (None, s1)
                     end) in H.
  assert (Hann : errors (snd annotation) = errors s).
  { subst annotation. destruct (currentToken tokens s1) as [t|] eqn:Ht; [|reflexivity].
    destruct (isTypeKeyword (tok_value t)); [|reflexivity].
    rewrite (nextToken_Some _ _ _ Ht). reflexivity. }
  destruct annotation as [declaredType s2]. simpl in Hann.
  destruct (currentToken tokens s2) as [nameToken|] eqn:Hname;
    [|unfold throw_at in H; rewrite Hname in H; discriminate].
  destruct (token_type_eqb (tok_type nameToken) IDENTIFIER);
    [|unfold throw_at in H; rewrite Hname in H; discriminate].
  destruct (token_offsets _ Hord _ _ Hname) as (_ & _ & Hend).
  rewrite (nextToken_Some _ _ _ Hname) in H.
  set (s3 := PState (S (position s2)) (errors s2)) in H.
  destruct (at_value tokens "=" s3) eqn:Heq.
  - apply at_value_Some in Heq as (eq & Heq & _).
    destruct (token_offsets _ Hord _ _ Heq) as (Hlo & Hlt & Hhi).
    rewrite (nextToken_Some _ _ _ Heq) in H.
    pose proof (parseExpression_spec tokens Hord fuel (PState (S (position s3)) (errors s3)))
      as Hspec.
    destruct (parseExpression tokens fuel (PState (S (position s3)) (errors s3)))
      as [init s4|msg s4|]; simpl in H; try discriminate.
    destruct Hspec as (Herrors & _ & _ & _ & Hstart_e & Hmid & _).
    simpl in Herrors, Hstart_e, Hlo, Hhi.
    destruct (at_value tokens ";" s4) eqn:Hsemi.
    + apply at_value_Some in Hsemi as (c & Hc & _).
      rewrite (nextToken_Some _ _ _ Hc) in H. injection H as _ _ _ _ _ <-.
      exfalso. apply Herr. simpl. congruence.
    + injection H as _ _ <- _ <- <-. simpl.
      rewrite Herrors, Hann. split; [reflexivity|]. lia.
  - simpl in H. destruct (at_value tokens ";" s3); discriminate.
Qed.

(** In [var x = 5] the statement ends at offset 9, after the initialiser [5]
    (offsets 8..9); the SyntaxError starts at offset 5, the end of the name
    [x], and the node returned has [end] 5 as well. *)
Lemma missing_semicolon_range_after_name_witness :
  let tokens := [Token KEYWORD "var" 0 3; Token IDENTIFIER "x" 4 5; Token SYMBOL "=" 6 7;
                 Token NUMBER "5" 8 9] in
  let init := Literal (LNumber (Some 5%N)) "5" 8 9 in
  let recorded := SyntaxError "Missing semicolon at end of variable declaration" 5 9 in
  tokenize "var x = 5" = Tokens tokens
  /\ parseVariableDeclaration "var x = 5" tokens 20 (PState 0 [])
     = Ok (VariableDeclaration None "x" (Some init) 0 5) (PState 4 [recorded])
  /\ [recorded] = [] ++ [recorded]
  /\ 5 < start_of init /\ start_of init <= end_of init.
Proof.
  intros tokens init recorded.
  split; [reflexivity|]. split; [reflexivity|].
  exact (missing_semicolon_range_after_name "var x = 5" tokens 20 (PState 0 [])
           (PState 4 [recorded]) None "x" init 0 5
           (tokenize_ordered "var x = 5" tokens eq_refl) eq_refl
           ltac:(discriminate)).
Defined.

Example missing_semicolon_range_declaration :
  parse 30 "var x = 5"
  = Returned
      (Program
         [VariableDeclaration None "x" (Some (Literal (LNumber (Some 5%N)) "5" 8 9)) 0 5]
         (Some [SyntaxError "Missing semicolon at end of variable declaration" 5 9])).
Proof. reflexivity. Qed.

(** The sibling paths start the range at the end of the expression parsed
    last. *)
Example missing_semicolon_range_assignment :
  parse 30 "x = 5"
  = Returned
      (Program
         [AssignmentExpression "=" (Identifier "x" 0 1)
            (Literal (LNumber (Some 5%N)) "5" 4 5) 0 5]
         (Some [SyntaxError "Missing semicolon at end of assignment" 5 5])).
Proof. reflexivity. Qed.

Example missing_semicolon_range_statement :
  parse 30 "f(1)
g(2);"
  = Returned
      (Program
         [ExpressionStatement
            (CallExpression (Identifier "f" 0 1) [Literal (LNumber (Some 1%N)) "1" 2 3] 0 4)
            0 4;
          ExpressionStatement
            (CallExpression (Identifier "g" 5 6) [Literal (LNumber (Some 2%N)) "2" 7 8] 5 9)
            5 10]
         (Some [SyntaxError "Missing semicolon at end of statement" 4 4])).
Proof. reflexivity. Qed.

(* ================================================================== *)
(** * Properties of the type checker *)

(** ** Inference *)

Lemma or_any_is_int (t : string) : (or_any (Some t) =s "int") = (t =s "int").
Proof.
  unfold or_any. destruct (t =s "") eqn:H; [|reflexivity].
  apply String.eqb_eq in H. subst t. reflexivity.
Qed.

Lemma inferType_BinaryExpression (table : gmap string string) (op : string)
    (l r : node) (a b : nat) :
  inferType table (BinaryExpression op l r a b) = infer_binary table op l r.
Proof. reflexivity. Qed.

Lemma inferType_LogicalExpression (table : gmap string string) (op : string)
    (l r : node) (a b : nat) :
  inferType table (LogicalExpression op l r a b) = infer_binary table op l r.
Proof. reflexivity. Qed.

Lemma inferType_arithmetic (table : gmap string string) (op : string) (l r : node) :
  includes comparison_operators op = false ->
  includes arithmetic_operators op = true ->
  infer_binary table op l r
  = if (inferType table l =s "int") && (inferType table r =s "int") && negb (op =s "/")
    then "int" else "float".
Proof. unfold infer_binary. intros -> ->. rewrite !or_any_is_int. reflexivity. Qed.

(** C6.  A [BinaryExpression] or [LogicalExpression] whose operator is a
    comparison or a logical operator infers as [bool].  With an arithmetic
    operator it infers as [int] when both operands infer as [int] and the
    operator is not [/], and as [float] in every other case. *)
Theorem inferType_binary (table : gmap string string) (op : string) (l r : node)
    (a b : nat) (n : node) :
  n = BinaryExpression op l r a b \/ n = LogicalExpression op l r a b ->
  (In op ["=="; "!="; "<"; "<="; ">"; ">="; "and"; "or"] -> inferType table n = "bool")
  /\ (In op ["+"; "-"; "*"; "/"; "%"] ->
      (inferType table l = "int" /\ inferType table r = "int" /\ op <> "/" ->
       inferType table n = "int")
      /\ (~ (inferType table l = "int" /\ inferType table r = "int" /\ op <> "/") ->
          inferType table n = "float")).
Proof.
  intros Hn. split.
  - intros Hop.
    assert (Hc : includes comparison_operators op = true).
    { simpl in Hop. decompose [or] Hop; subst; try reflexivity; contradiction. }
    destruct Hn as [-> | ->];
      rewrite ?inferType_BinaryExpression, ?inferType_LogicalExpression;
      unfold infer_binary; rewrite Hc; reflexivity.
  - intros Hop.
    assert (Hc : includes comparison_operators op = false
                 /\ includes arithmetic_operators op = true).
    { simpl in Hop. decompose [or] Hop; subst; try (split; reflexivity); contradiction. }
    destruct Hc as [Hc Ha].
    assert (Hinfer : inferType table n
                     = if (inferType table l =s "int") && (inferType table r =s "int")
                          && negb (op =s "/")
                       then "int" else "float").
    { destruct Hn as [-> | ->];
        rewrite ?inferType_BinaryExpression, ?inferType_LogicalExpression;
        apply inferType_arithmetic; assumption. }
    rewrite Hinfer. split.
    + intros (Hl & Hr & Hdiv). apply String.eqb_eq in Hl, Hr. apply String.eqb_neq in Hdiv.
      rewrite Hl, Hr, Hdiv. reflexivity.
    + intros Hnot.
      destruct (inferType table l =s "int") eqn:Hl; [|reflexivity].
      destruct (inferType table r =s "int") eqn:Hr; [|reflexivity].
      destruct (op =s "/") eqn:Hdiv; [reflexivity|].
      exfalso. apply Hnot. apply String.eqb_eq in Hl, Hr. apply String.eqb_neq in Hdiv.
      auto.
Qed.

Lemma inferType_binary_witness :
  let one := Literal (LNumber (Some 1%N)) "1" 8 9 in
  inferType ∅ (BinaryExpression "+" one one 8 13) = "int"
  /\ inferType ∅ (BinaryExpression "/" one one 8 13) = "float"
  /\ inferType ∅ (BinaryExpression "==" one one 8 13) = "bool".
Proof.
  intros one. split; [|split].
  - apply (inferType_binary ∅ "+" one one 8 13 _ (or_introl eq_refl)).
    + simpl. tauto.
    + repeat split. discriminate.
  - apply (inferType_binary ∅ "/" one one 8 13 _ (or_introl eq_refl)).
    + simpl. tauto.
    + intros (_ & _ & H). apply H. reflexivity.
  - apply (inferType_binary ∅ "==" one one 8 13 _ (or_introl eq_refl)).
    simpl. tauto.
Defined.

(** The three examples of the specification, as the parser builds them. *)
Example inferType_examples :
  parse 60 "var a = 1 + 1; var b = 1 / 1; var c = 1 == 1;"
  = Returned
      (Program
         [VariableDeclaration None "a"
            (Some (BinaryExpression "+" (Literal (LNumber (Some 1%N)) "1" 8 9)
                     (Literal (LNumber (Some 1%N)) "1" 12 13) 8 13)) 0 15;
          VariableDeclaration None "b"
            (Some (BinaryExpression "/" (Literal (LNumber (Some 1%N)) "1" 23 24)
                     (Literal (LNumber (Some 1%N)) "1" 27 28) 23 28)) 15 30;
          VariableDeclaration None "c"
            (Some (BinaryExpression "==" (Literal (LNumber (Some 1%N)) "1" 38 39)
                     (Literal (LNumber (Some 1%N)) "1" 43 44) 38 44)) 30 36]
         (Some []))
  /\ inferType ∅ (BinaryExpression "+" (Literal (LNumber (Some 1%N)) "1" 8 9)
                    (Literal (LNumber (Some 1%N)) "1" 12 13) 8 13) = "int"
  /\ inferType ∅ (BinaryExpression "/" (Literal (LNumber (Some 1%N)) "1" 23 24)
                    (Literal (LNumber (Some 1%N)) "1" 27 28) 23 28) = "float"
  /\ inferType ∅ (BinaryExpression "==" (Literal (LNumber (Some 1%N)) "1" 38 39)
                    (Literal (LNumber (Some 1%N)) "1" 43 44) 38 44) = "bool".
Proof. repeat split. Qed.

(** ** The type tags *)

Lemma or_any_tag (x : option string) :
  (forall t, x = Some t -> In t type_tags) -> In (or_any x) type_tags.
Proof.
  intros H. unfold or_any. destruct x as [t|]; [|simpl; tauto].
  destruct (t =s ""); [simpl; tauto|]. apply H. reflexivity.
Qed.

Lemma inferType_in_tags (table : gmap string string) (n : node) :
  tagged table -> In (inferType table n) type_tags.
Proof.
  intros Htable.
  induction n using node_deep_ind; try (simpl; tauto).
  - (* Identifier *) simpl. apply or_any_tag. intros t. apply Htable.
  - (* Literal *)
    simpl. destruct v as [digits| | |]; try (simpl; tauto).
    + destruct (includes_dot raw); [simpl; tauto|].
      destruct (Number_isInteger digits); simpl; tauto.
    + destruct (starts_with_quote raw); simpl; tauto.
  - (* BinaryExpression *)
    rewrite inferType_BinaryExpression. unfold infer_binary.
    repeat match goal with |- context [if ?c then _ else _] => destruct c end;
      simpl; tauto.
  - (* LogicalExpression *)
    rewrite inferType_LogicalExpression. unfold infer_binary.
    repeat match goal with |- context [if ?c then _ else _] => destruct c end;
      simpl; tauto.
  - (* UnaryExpression *)
    change (inferType table (UnaryExpression op n a b))
      with (if op =s "not" then "bool" else or_any (Some (inferType table n))).
    destruct (op =s "not"); [simpl; tauto|].
    apply or_any_tag. intros t [= <-]. exact IHn.
Qed.

(** C9.  With a symbol table that holds type tags only (which is all that
    check ever stores, see [check_from_tagged]), inferType returns one of
    [int], [float], [string], [bool], [array], [object], [any] for every
    node, and never [nil]; so the test [actual === 'nil'] of isCompatibleType
    never decides the answer when [actual] comes from inferType. *)
Theorem inferType_never_nil (table : gmap string string) (n : node) :
  tagged table ->
  In (inferType table n) type_tags
  /\ inferType table n <> "nil"
  /\ forall expected,
       isCompatibleType expected (inferType table n)
       = isCompatibleType_without_nil expected (inferType table n).
Proof.
  intros Htable. pose proof (inferType_in_tags table n Htable) as Hin.
  assert (Hnil : inferType table n <> "nil").
  { intros Heq. rewrite Heq in Hin. simpl in Hin.
    decompose [or] Hin; try discriminate; contradiction. }
  split; [exact Hin|]. split; [exact Hnil|].
  intros expected. unfold isCompatibleType, isCompatibleType_without_nil.
  apply String.eqb_neq in Hnil. rewrite Hnil. reflexivity.
Qed.

Lemma inferType_never_nil_witness :
  In (inferType {["x" := "int"]} (Identifier "x" 0 1)) type_tags
  /\ inferType {["x" := "int"]} (Literal LNull "nil" 0 3) = "any".
Proof.
  assert (Htable : tagged {["x" := "int"]}).
  { intros name t H. apply lookup_singleton_Some in H as [_ <-]. simpl. tauto. }
  split.
  - exact (proj1 (inferType_never_nil {["x" := "int"]} (Identifier "x" 0 1) Htable)).
  - reflexivity.
Defined.

(** ** Traversal *)

Lemma fold_left_fixed {A B : Type} (f : A -> B -> A) (l : list B) (a : A) :
  Forall (fun x => forall a', f a' x = a') l -> fold_left f l a = a.
Proof.
  intros H. revert a. induction H as [|x l Hx _ IH]; intros a; simpl; [reflexivity|].
  rewrite Hx. apply IH.
Qed.

Lemma fold_left_invariant {A B : Type} (I : A -> Prop) (f : A -> B -> A) (l : list B)
    (a : A) :
  Forall (fun x => forall a', I a' -> I (f a' x)) l -> I a -> I (fold_left f l a).
Proof.
  intros H. revert a. induction H as [|x l Hx _ IH]; intros a Ha; simpl; auto.
Qed.

(** Checking an expression changes nothing: no entry of the symbol table
    and no diagnostic. *)
Lemma checkNode_expression (document : string) (n : node) :
  expression n = true \/ property n = true ->
  forall st, checkNode document n st = st.
Proof.
  induction n using node_deep_ind; simpl; intros [He|He] st; try discriminate;
    try reflexivity.
  - (* BinaryExpression *)
    apply andb_true_iff in He as [Hl Hr]. rewrite IHn1, IHn2 by auto. reflexivity.
  - (* LogicalExpression *)
    apply andb_true_iff in He as [Hl Hr]. rewrite IHn1, IHn2 by auto. reflexivity.
  - (* UnaryExpression *) apply IHn. auto.
  - (* CallExpression *)
    apply andb_true_iff in He as [Hc Hargs]. rewrite IHn by auto.
    apply fold_left_fixed. rewrite forallb_forall in Hargs.
    rewrite List.Forall_forall in *. intros x Hx a'. apply H; auto.
  - (* MemberExpression *)
    apply andb_true_iff in He as [Ho Hf]. rewrite IHn1, IHn2 by auto. reflexivity.
  - (* ArrayExpression *)
    apply fold_left_fixed. rewrite forallb_forall in He.
    rewrite List.Forall_forall in *. intros x Hx a'. apply H; auto.
  - (* ObjectExpression *)
    apply fold_left_fixed. rewrite forallb_forall in He.
    rewrite List.Forall_forall in *. intros x Hx a'. apply H; [exact Hx|].
    right. apply He. exact Hx.
  - (* Property *) apply IHn. auto.
Qed.

Lemma checkAssignedType_table (document varName : string) (right : node) (st : cstate) :
  symbolTable (checkAssignedType document varName right st) = symbolTable st.
Proof.
  unfold checkAssignedType. destruct (symbolTable st !! varName); [|reflexivity].
  destruct (_ && _); [|reflexivity].
  destruct (negb _); reflexivity.
Qed.

(** C7.  Checking a reassignment [name = expr;] leaves the symbol table as
    it was, whether or not a mismatch is reported: the type tracked for
    every variable is the same after checkAssignmentExpression as before. *)
Theorem checkAssignmentExpression_frame (document : string) (left right : node)
    (st : cstate) :
  expression right = true ->
  symbolTable (checkAssignmentExpression document left right st) = symbolTable st
  /\ forall name,
       symbolTable (checkAssignmentExpression document left right st) !! name
       = symbolTable st !! name.
Proof.
  intros Hr.
  assert (H : symbolTable (checkAssignmentExpression document left right st)
              = symbolTable st).
  { unfold checkAssignmentExpression. simpl.
    destruct left; try reflexivity.
    rewrite checkNode_expression by auto. apply checkAssignedType_table. }
  split; [exact H|]. intros name. rewrite H. reflexivity.
Qed.

Lemma checkAssignmentExpression_frame_witness :
  let st := CState {["x" := "int"]} [] in
  let right := Literal (LString "'hello'") "'hello'" 19 26 in
  symbolTable (checkAssignmentExpression "var int x = 5; x = 'hello';"
                 (Identifier "x" 15 16) right st) = {["x" := "int"]}
  /\ length (diagnostics (checkAssignmentExpression "var int x = 5; x = 'hello';"
                            (Identifier "x" 15 16) right st)) = 1.
Proof.
  intros st right. split.
  - exact (proj1 (checkAssignmentExpression_frame "var int x = 5; x = 'hello';"
                    (Identifier "x" 15 16) right st eq_refl)).
  - reflexivity.
Defined.

(** ** The symbol table holds type tags only *)

Lemma tagged_empty : tagged ∅.
Proof. intros name t H. rewrite lookup_empty in H. discriminate. Qed.

Lemma tagged_insert (table : gmap string string) (name t : string) :
  tagged table -> In t type_tags -> tagged (<[name := t]> table).
Proof.
  intros Htable Ht k v H. destruct (decide (name = k)) as [<-|Hne].
  - rewrite lookup_insert_eq in H. injection H as <-. exact Ht.
  - rewrite lookup_insert_ne in H by exact Hne. eapply Htable, H.
Qed.

Lemma isTypeKeyword_tag (t : string) :
  isTypeKeyword t = true -> In t type_tags /\ (t =s "") = false.
Proof.
  cbv [isTypeKeyword includes existsb]. rewrite !orb_true_iff, !String.eqb_eq.
  intros H. decompose [or] H; subst; try discriminate; simpl; tauto.
Qed.

Lemma checkTypedDeclaration_tagged (document t name : string) (init : option node)
    (st : cstate) :
  In t type_tags -> tagged (symbolTable st) ->
  tagged (symbolTable (checkTypedDeclaration document t name init st)).
Proof.
  intros Ht Hst. unfold checkTypedDeclaration.
  destruct init as [i|]; [|apply tagged_insert; assumption].
  destruct (negb _); [exact Hst|apply tagged_insert; assumption].
Qed.

Lemma keeps_tagged_each (document : string) (l : list node) :
  Forall (keeps_tagged document) l ->
  forallb (all_nodes declared_type_known) l = true ->
  forall st, tagged (symbolTable st) ->
  tagged (symbolTable (fold_left (fun st' child => checkNode document child st') l st)).
Proof.
  induction 1 as [|n l Hn _ IH]; simpl; intros Hall st Hst; [exact Hst|].
  apply andb_true_iff in Hall as [H1 H2]. apply IH; [exact H2|]. apply Hn; assumption.
Qed.

Lemma checkNode_tagged (document : string) (n : node) : keeps_tagged document n.
Proof.
  unfold keeps_tagged.
  induction n using node_deep_ind; simpl; intros Hall st Hst;
    repeat match goal with
           | H : _ && _ = true |- _ => apply andb_true_iff in H as [? ?]
           end;
    try solve [auto].
  - (* CallExpression *)
    apply keeps_tagged_each; auto.
  - (* ArrayExpression *)
    apply keeps_tagged_each; auto.
  - (* ObjectExpression *)
    apply keeps_tagged_each; auto.
  - (* VariableDeclaration *)
    assert (Hinit : forall st', tagged (symbolTable st') ->
              tagged (symbolTable match init with
                                  | Some c => checkNode document c st'
                                  | None => st'
                                  end)).
    { intros st' Hst'. destruct init as [c|]; [|exact Hst']. simpl in *. auto. }
    assert (Hany : tagged (symbolTable (if name =s "" then st else set_type name "any" st))).
    { destruct (name =s ""); [exact Hst|].
      apply tagged_insert; [exact Hst|simpl; tauto]. }
    destruct t as [t|]; [|auto].
    destruct (isTypeKeyword_tag t ltac:(assumption)) as [Ht ->].
    apply checkTypedDeclaration_tagged; assumption.
  - (* IfStatement *)
    destruct alt as [c|]; simpl in *; auto.
  - (* ForStatement *)
    destruct i, t, u; simpl in *; auto 10.
  - (* BlockStatement *)
    revert st Hst Hall.
    induction H as [|o body Ho _ IH]; simpl in *; intros st Hst Hall; [exact Hst|].
    apply andb_true_iff in Hall as [Hhead Htail]. apply IH; [|exact Htail].
    destruct o as [c|]; simpl in *; auto.
  - (* ReturnStatement *)
    destruct e as [c|]; simpl in *; auto.
  - (* AssignmentExpression *)
    destruct n1; auto. apply IHn2; [assumption|].
    rewrite checkAssignedType_table. exact Hst.
Qed.

(** Throughout a check of a program whose declarations carry type keywords
    (as every program returned by parse does) the symbol table holds type
    tags only. *)
Lemma check_from_tagged (document : string) (body : list node) (st : cstate) :
  Forall (fun n => all_nodes sound n = true) body ->
  tagged (symbolTable st) ->
  tagged (symbolTable (check_from document body st)).
Proof.
  unfold check_from. intros Hbody. revert st.
  induction Hbody as [|n body Hn _ IH]; simpl; intros st Hst; [exact Hst|].
  apply IH. apply checkNode_tagged; [|exact Hst]. apply sound_declared_type_known, Hn.
Qed.

Lemma parse_check_tagged (fuel : nat) (input : string) (ast : program)
    (errs : list diagnostic) :
  parse fuel input = Returned ast ->
  tagged (symbolTable (check_from input (prog_body ast) (CState ∅ errs))).
Proof.
  intros H. apply check_from_tagged; [|apply tagged_empty]. eapply parse_sound, H.
Qed.

(** ** Typed declarations *)

Lemma checkNode_typed_declaration (document T name : string) (init : option node)
    (a b : nat) (st : cstate) :
  T <> "" ->
  checkNode document (VariableDeclaration (Some T) name init a b) st
  = checkTypedDeclaration document T name init st.
Proof. intros HT. apply String.eqb_neq in HT. simpl. rewrite HT. reflexivity. Qed.

Lemma checkNode_untracked_assignment (document op name : string) (v : node)
    (c d e f : nat) (st : cstate) :
  symbolTable st !! name = None -> expression v = true ->
  checkNode document (AssignmentExpression op (Identifier name c d) v e f) st = st.
Proof.
  intros Hnone Hv. simpl. unfold checkAssignedType. rewrite Hnone.
  apply checkNode_expression. auto.
Qed.

(** C5, as amended.  For a typed declaration [var T name = expr;]: when the
    type inferred for [expr] is incompatible with [T], exactly one
    Type-mismatch diagnostic is added, at the range of [expr], and the symbol
    table is left as it was, so [name] is not registered by this declaration;
    if [name] had no entry before, a later [name = v;] adds no diagnostic.
    When the type is compatible, no diagnostic is added and [name] is
    registered with type [T]. *)
Theorem checkVariableDeclaration_typed (document T name : string) (init : node)
    (a b : nat) (st : cstate) :
  T <> "" ->
  let actual := inferType (symbolTable st) init in
  let st' := checkNode document (VariableDeclaration (Some T) name (Some init) a b) st in
  (isCompatibleType T actual = false ->
     diagnostics st'
     = diagnostics st
       ++ [Diagnostic 1
             (Range (getPositionFromIndex document (start_of init))
                    (getPositionFromIndex document (end_of init)))
             ("Type mismatch: expected " +:+ T +:+ " but got " +:+ actual
                +:+ " for variable '" +:+ name +:+ "'")]
     /\ symbolTable st' = symbolTable st
     /\ (symbolTable st !! name = None ->
         forall op v c d e f, expression v = true ->
           checkNode document (AssignmentExpression op (Identifier name c d) v e f) st'
           = st'))
  /\ (isCompatibleType T actual = true ->
        diagnostics st' = diagnostics st
        /\ symbolTable st' = <[name := T]> (symbolTable st)).
Proof.
  intros HT actual st'. subst st'. rewrite checkNode_typed_declaration by exact HT.
  unfold checkTypedDeclaration. fold actual. split; intros Hc; rewrite Hc; simpl.
  - split; [reflexivity|]. split; [reflexivity|].
    intros Hnone op v c d e f Hv.
    apply (checkNode_untracked_assignment document op name v c d e f); assumption.
  - split; reflexivity.
Qed.

Lemma checkVariableDeclaration_typed_witness :
  let document := "var int x = 'hello'; x = 5;" in
  let init := Literal (LString "'hello'") "'hello'" 12 19 in
  let st' := checkNode document (VariableDeclaration (Some "int") "x" (Some init) 0 21)
               (CState ∅ []) in
  diagnostics st'
  = [Diagnostic 1 (Range (Position 0 12) (Position 0 19))
       "Type mismatch: expected int but got string for variable 'x'"]
  /\ symbolTable st' = ∅
  /\ checkNode document
       (AssignmentExpression "=" (Identifier "x" 21 22)
          (Literal (LNumber (Some 5%N)) "5" 25 26) 21 27) st' = st'.
Proof.
  intros document init st'.
  destruct (checkVariableDeclaration_typed document "int" "x" init 0 21 (CState ∅ [])
              ltac:(discriminate)) as [Hbad _].
  destruct (Hbad eq_refl) as (Hd & Ht & Hlater).
  split; [exact Hd|]. split; [exact Ht|].
  exact (Hlater eq_refl "=" (Literal (LNumber (Some 5%N)) "5" 25 26) 21 22 21 27 eq_refl).
Defined.

(** C5 as stated fails when [name] was declared before: the failed second
    declaration leaves [x] registered with the type of the first one, and
    the later assignment to [x] is reported. *)
Lemma failed_redeclaration_stays_registered :
  let document := "var int x = 5; var int x = 'hello'; x = 'world';" in
  let first := VariableDeclaration (Some "int") "x"
                 (Some (Literal (LNumber (Some 5%N)) "5" 12 13)) 0 15 in
  let second := VariableDeclaration (Some "int") "x"
                  (Some (Literal (LString "'hello'") "'hello'" 27 34)) 15 36 in
  let later := AssignmentExpression "=" (Identifier "x" 36 37)
                 (Literal (LString "'world'") "'world'" 40 47) 36 48 in
  parse 60 document = Returned (Program [first; second; later] (Some []))
  /\ isCompatibleType "int"
       (inferType (symbolTable (checkNode document first (CState ∅ [])))
          (Literal (LString "'hello'") "'hello'" 27 34)) = false
  /\ symbolTable (check_from document [first; second] (CState ∅ [])) !! "x" = Some "int"
  /\ analyzeTypeSafety 60 document
     = Some
         [Diagnostic 1 (Range (Position 0 27) (Position 0 34))
            "Type mismatch: expected int but got string for variable 'x'";
          Diagnostic 1 (Range (Position 0 40) (Position 0 47))
            "Type mismatch: expected int but got string when assigning to 'x'"].
Proof. repeat split. Qed.

(** The example of the specification: the failed declaration is the first
    one of [x], and the later assignment passes. *)
Example failed_declaration_example :
  analyzeTypeSafety 60 "var int x = 'hello'; x = 5;"
  = Some [Diagnostic 1 (Range (Position 0 12) (Position 0 19))
            "Type mismatch: expected int but got string for variable 'x'"].
Proof. reflexivity. Qed.

(* ================================================================== *)
(** * Further properties of the tokenizer *)

Section TokenFacts.

Variable input : string.

Lemma scan_while_le (p : ascii -> bool) (fuel current : nat) :
  current <= len input -> scan_while input p fuel current <= len input.
Proof.
  revert current; induction fuel as [|fuel IH]; intros current H; simpl; [exact H|].
  destruct (char_at input current) as [c|] eqn:Hc; [|exact H].
  destruct (p c); [|exact H]. apply IH. apply char_at_lt in Hc. lia.
Qed.

Lemma char_is_lt (i : nat) (c : ascii) : char_is input i c = true -> i < len input.
Proof.
  unfold char_is. destruct (char_at input i) as [d|] eqn:H; [|discriminate].
  intros _. exact (char_at_lt _ _ _ H).
Qed.

Lemma char_is_eq (i : nat) (c : ascii) :
  char_is input i c = true -> char_at input i = Some c.
Proof.
  unfold char_is. destruct (char_at input i) as [d|]; [|discriminate].
  intros H. apply Ascii.eqb_eq in H. congruence.
Qed.

Lemma two_char_operator_inv (c : ascii) (current : nat) (value : string) :
  two_char_operator input c current = Some value ->
  exists d,
    char_at input (current + 1) = Some d
    /\ (value = String c (String d EmptyString)
        \/ (value = "and" /\ c = "&"%char /\ d = "&"%char)
        \/ (value = "or" /\ c = "|"%char /\ d = "|"%char)).
Proof.
  assert (Hcase : forall a d, Ascii.eqb c a && char_is input (current + 1) d = true ->
            c = a /\ char_at input (current + 1) = Some d).
  { intros a d H. apply andb_true_iff in H as [Ha Hd].
    apply Ascii.eqb_eq in Ha. apply char_is_eq in Hd. auto. }
  unfold two_char_operator.
  destruct (Ascii.eqb c "=" && char_is input (current + 1) "=") eqn:H1.
  { apply Hcase in H1 as [-> Hd]. intros [= <-]. eauto. }
  destruct (Ascii.eqb c "!" && char_is input (current + 1) "=") eqn:H2.
  { apply Hcase in H2 as [-> Hd]. intros [= <-]. eauto. }
  destruct (Ascii.eqb c ">" && char_is input (current + 1) "=") eqn:H3.
  { apply Hcase in H3 as [-> Hd]. intros [= <-]. eauto. }
  destruct (Ascii.eqb c "<" && char_is input (current + 1) "=") eqn:H4.
  { apply Hcase in H4 as [-> Hd]. intros [= <-]. eauto. }
  destruct (Ascii.eqb c "&" && char_is input (current + 1) "&") eqn:H5.
  { apply Hcase in H5 as [-> Hd]. intros [= <-]. eauto 7. }
  destruct (Ascii.eqb c "|" && char_is input (current + 1) "|") eqn:H6.
  { apply Hcase in H6 as [-> Hd]. intros [= <-]. eauto 7. }
  discriminate.
Qed.

Lemma substring_one (s : string) (i : nat) (c : ascii) :
  String.get i s = Some c -> String.substring i 1 s = String c EmptyString.
Proof.
  revert i; induction s as [|a s IH]; intros i; simpl; [discriminate|].
  destruct i as [|i]; simpl.
  - intros [= ->]. destruct s; reflexivity.
  - apply IH.
Qed.

Lemma substring_two (s : string) (i : nat) (c d : ascii) :
  String.get i s = Some c -> String.get (i + 1) s = Some d ->
  String.substring i 2 s = String c (String d EmptyString).
Proof.
  revert i; induction s as [|a s IH]; intros i; simpl; [discriminate|].
  destruct i as [|i]; simpl.
  - intros [= ->] H. destruct s as [|b s]; simpl in *; [discriminate|].
    injection H as ->. destruct s; reflexivity.
  - apply IH.
Qed.

(** Each token pushed by one round of the main loop. *)
Lemma tokenize_step_token (current : nat) (char : ascii) (t : token) (next : nat) :
  char_at input current = Some char ->
  tokenize_step input current char = Emit t next ->
  tok_start t = current /\ tok_end t <= len input
  /\ token_class char t /\ token_text input t.
Proof.
  intros Hc. pose proof (char_at_lt _ _ _ Hc) as Hlt.
  unfold tokenize_step.
  destruct (Char.is_space char) eqn:Hspace; [discriminate|].
  destruct (Ascii.eqb char Char.slash && char_is input (current + 1) Char.slash);
    [discriminate|].
  destruct (Ascii.eqb char Char.slash && char_is input (current + 1) Char.star);
    [discriminate|].
  destruct (Char.is_quote char) eqn:Hquote.
  { destruct (len input <=? _) eqn:Hclose; [discriminate|].
    apply Nat.leb_gt in Hclose. intros [= <- <-]. simpl.
    repeat split; [lia|exact Hquote|left; reflexivity]. }
  destruct (Char.is_digit char) eqn:Hdigit.
  { intros [= <- <-]. simpl.
    repeat split; [apply scan_while_le; lia|exact Hdigit|left; reflexivity]. }
  destruct (Char.is_ident_start char) eqn:Hident.
  { set (stop := scan_while input Char.is_ident_char (len input - current) current).
    assert (Hstop : stop <= len input) by (apply scan_while_le; lia).
    destruct (isKeyword (slice input current stop)) eqn:Hk;
      intros [= <- <-]; unfold token_class, token_text; simpl; auto. }
  destruct (two_char_operator input char current) as [value|] eqn:Hop.
  - intros [= <- <-]. simpl.
    apply two_char_operator_inv in Hop as (d & Hd & Hvalue).
    pose proof (char_at_lt _ _ _ Hd) as Hd'.
    assert (Hslice : slice input current (current + 2)
                     = String char (String d EmptyString)).
    { unfold slice. replace (current + 2 - current) with 2 by lia.
      apply substring_two; assumption. }
    split; [reflexivity|]. split; [lia|]. split; [unfold token_class; simpl; auto|].
    unfold token_text. simpl. rewrite Hslice.
    destruct Hvalue as [->|[(-> & -> & ->)|(-> & -> & ->)]]; auto.
  - intros [= <- <-]. simpl.
    split; [reflexivity|]. split; [lia|]. split; [unfold token_class; simpl; auto|].
    left. simpl. unfold slice. replace (S current - current) with 1 by lia.
    symmetry. apply substring_one. exact Hc.
Qed.

Lemma tokenize_loop_Forall (P : token -> Prop) (fuel current : nat)
    (acc tokens : list token) :
  (forall cur c t next, char_at input cur = Some c ->
     tokenize_step input cur c = Emit t next -> P t) ->
  Forall P acc ->
  tokenize_loop input fuel current acc = Tokens tokens ->
  Forall P tokens.
Proof.
  intros Hstep. revert current acc.
  induction fuel as [|fuel IH]; intros current acc Hacc; simpl; [discriminate|].
  destruct (char_at input current) as [c|] eqn:Hc; [|intros [= <-]; exact Hacc].
  destruct (tokenize_step input current c) as [next|t next|msg] eqn:Hs.
  - apply IH. exact Hacc.
  - apply IH. apply Forall_app. split; [exact Hacc|].
    repeat constructor. exact (Hstep _ _ _ _ Hc Hs).
  - discriminate.
Qed.

Lemma tokenize_Forall (P : token -> Prop) (tokens : list token) :
  (forall cur c t next, char_at input cur = Some c ->
     tokenize_step input cur c = Emit t next -> P t) ->
  tokenize input = Tokens tokens -> Forall P tokens.
Proof. intros H. apply tokenize_loop_Forall; [exact H|constructor]. Qed.

Lemma frontier_lookup (tokens : list token) (i j : nat) (t : token) :
  i < j -> tokens !! i = Some t -> tok_end t <= frontier tokens j.
Proof.
  intros Hij Ht. transitivity (frontier tokens (S i)); [|apply frontier_mono; lia].
  rewrite (frontier_S _ _ _ Ht). lia.
Qed.

End TokenFacts.

(** X1.  The tokens that tokenize returns lie inside the text, one after
    the other: each is non-empty and ends no later than the text does, and
    a token that comes later in the list starts no earlier than where an
    earlier one ends. *)
Theorem tokenize_tokens_in_text (input : string) (tokens : list token) :
  tokenize input = Tokens tokens ->
  (forall i t, tokens !! i = Some t ->
     tok_start t < tok_end t /\ tok_end t <= String.length input)
  /\ (forall i j t u, i < j -> tokens !! i = Some t -> tokens !! j = Some u ->
        tok_end t <= tok_start u).
Proof.
  intros H. pose proof (tokenize_ordered _ _ H) as Hord. split.
  - intros i t Ht. split; [apply (ordered_lookup _ _ _ Hord Ht)|].
    assert (Hall : Forall (fun t => tok_end t <= len input) tokens).
    { apply (tokenize_Forall input); [|exact H].
      intros cur c t' next Hc Hs. apply (tokenize_step_token _ _ _ _ _ Hc Hs). }
    exact (Forall_lookup_1 _ _ _ _ Hall Ht).
  - intros i j t u Hij Ht Hu.
    destruct (ordered_lookup _ _ _ Hord Hu) as (Hlo & _ & _).
    pose proof (frontier_lookup tokens i j t Hij Ht). lia.
Qed.

Lemma tokenize_tokens_in_text_witness :
  let tokens := [Token IDENTIFIER "x" 0 1; Token OPERATOR "and" 2 4;
                 Token NUMBER "1.5" 5 8] in
  (forall i t, tokens !! i = Some t -> tok_start t < tok_end t /\ tok_end t <= 8)
  /\ (forall i j t u, i < j -> tokens !! i = Some t -> tokens !! j = Some u ->
        tok_end t <= tok_start u).
Proof. exact (tokenize_tokens_in_text "x && 1.5" _ eq_refl). Defined.

(** X2.  The value of every token is the slice of the text between its
    [start] and [end] offsets; the only exceptions are the operators written
    [&&] and [||], whose values are [and] and [or]. *)
Theorem tokenize_token_text (input : string) (tokens : list token) (t : token) :
  tokenize input = Tokens tokens -> In t tokens -> token_text input t.
Proof.
  intros H Hin.
  assert (Hall : Forall (token_text input) tokens).
  { apply (tokenize_Forall input); [|exact H].
    intros cur c t' next Hc Hs. apply (tokenize_step_token _ _ _ _ _ Hc Hs). }
  rewrite List.Forall_forall in Hall. auto.
Qed.

Lemma tokenize_token_text_witness :
  token_text "x && 'a b'" (Token OPERATOR "and" 2 4)
  /\ token_text "x && 'a b'" (Token STRING "'a b'" 5 10).
Proof.
  split.
  - apply (tokenize_token_text "x && 'a b'" _ _ eq_refl). simpl. auto.
  - apply (tokenize_token_text "x && 'a b'" _ _ eq_refl). simpl. auto.
Defined.

(** X3.  The type of a token is decided by the character at its [start]:
    a digit for a NUMBER, a quote for a STRING, a letter, [_] or [$] for an
    IDENTIFIER or KEYWORD, anything else that is no white space for an
    OPERATOR or SYMBOL; and an IDENTIFIER is never one of the keywords, a
    KEYWORD always is. *)
Theorem tokenize_token_class (input : string) (tokens : list token) (t : token) :
  tokenize input = Tokens tokens -> In t tokens ->
  exists c, char_at input (tok_start t) = Some c /\ token_class c t.
Proof.
  intros H Hin.
  assert (Hall : Forall (fun t => exists c, char_at input (tok_start t) = Some c
                                            /\ token_class c t) tokens).
  { apply (tokenize_Forall input); [|exact H].
    intros cur c t' next Hc Hs.
    destruct (tokenize_step_token _ _ _ _ _ Hc Hs) as (-> & _ & Hclass & _).
    exists c. auto. }
  rewrite List.Forall_forall in Hall. auto.
Qed.

Lemma tokenize_token_class_witness :
  exists c, char_at "var x1 = 2;" (tok_start (Token IDENTIFIER "x1" 4 6)) = Some c
            /\ token_class c (Token IDENTIFIER "x1" 4 6).
Proof.
  apply (tokenize_token_class "var x1 = 2;" _ _ eq_refl). simpl. auto.
Defined.

(* ================================================================== *)
(** * Line ends and positions *)

Lemma findEndOfLine_from_spec (input : string) (fuel i : nat) :
  i <= String.length input -> String.length input - i <= fuel ->
  let e := findEndOfLine_from input fuel i in
  i <= e /\ e <= String.length input
  /\ (forall k c, i <= k < e -> String.get k input = Some c ->
        c <> Char.newline /\ c <> Char.carriage_return)
  /\ (e < String.length input ->
      exists c, String.get e input = Some c
                /\ (c = Char.newline \/ c = Char.carriage_return)).
Proof.
  revert i; induction fuel as [|fuel IH]; intros i Hi Hfuel; simpl.
  - repeat split; try lia.
  - destruct (String.get i input) as [c|] eqn:Hc.
    + pose proof (get_Some_lt _ _ _ Hc) as Hlt.
      destruct (Ascii.eqb c Char.newline || Ascii.eqb c Char.carriage_return) eqn:Hnl.
      * repeat split; try lia. intros _. exists c. split; [exact Hc|].
        apply orb_true_iff in Hnl as [H|H]; apply Ascii.eqb_eq in H; auto.
      * apply orb_false_iff in Hnl as [H1 H2].
        apply Ascii.eqb_neq in H1, H2.
        destruct (IH (S i)) as (Ha & Hb & Hc' & Hd); [lia|lia|].
        repeat split; try lia; try exact Hd.
        -- destruct (Nat.eq_dec k i) as [->|Hne].
           ++ congruence.
           ++ eapply Hc'; [|eassumption]. lia.
        -- destruct (Nat.eq_dec k i) as [->|Hne].
           ++ congruence.
           ++ eapply Hc'; [|eassumption]. lia.
    + apply get_None_ge in Hc. repeat split; try lia.
Qed.

Lemma findEndOfLine_bounds (input : string) (pos : nat) :
  findEndOfLine input pos <= String.length input
  /\ (pos <= String.length input -> pos <= findEndOfLine input pos).
Proof.
  unfold findEndOfLine.
  destruct (le_lt_dec pos (String.length input)) as [Hle|Hgt].
  - destruct (findEndOfLine_from_spec input (String.length input - pos) pos Hle
                (Nat.le_refl _)) as (Ha & Hb & _). auto.
  - replace (String.length input - pos) with 0 by lia. simpl. split; [lia|]. lia.
Qed.

(** X4.  findEndOfLine returns the offset of the first line feed or carriage
    return at or after [pos], and the length of the text when there is none;
    it never runs past the end of the text, also when [pos] does. *)
Theorem findEndOfLine_spec (input : string) (pos : nat) :
  let e := findEndOfLine input pos in
  e <= String.length input
  /\ (pos <= String.length input -> pos <= e)
  /\ (String.length input < pos -> e = String.length input)
  /\ (forall k c, pos <= k < e -> String.get k input = Some c ->
        c <> Char.newline /\ c <> Char.carriage_return)
  /\ (e < String.length input ->
      exists c, String.get e input = Some c
                /\ (c = Char.newline \/ c = Char.carriage_return)).
Proof.
  unfold findEndOfLine.
  destruct (le_lt_dec pos (String.length input)) as [Hle|Hgt].
  - destruct (findEndOfLine_from_spec input (String.length input - pos) pos Hle
                (Nat.le_refl _)) as (Ha & Hb & Hc & Hd).
    repeat split; try assumption; try lia; eapply Hc; eassumption.
  - replace (String.length input - pos) with 0 by lia. simpl.
    repeat split; try lia.
Qed.

Lemma substring_0_S (c : ascii) (rest : string) (n : nat) :
  String.substring 0 (S n) (String c rest) = String c (String.substring 0 n rest).
Proof. reflexivity. Qed.

Lemma substring_0_0 (s : string) : String.substring 0 0 s = EmptyString.
Proof. destruct s; reflexivity. Qed.

Lemma position_scan_spec (text : string) (index line0 char0 : nat) :
  let p := position_scan text index line0 char0 in
  let i := Nat.min index (String.length text) in
  line p = line0 + newlines (String.substring 0 index text)
  /\ ((character p = char0 + i
       /\ forall k, k < i -> String.get k text <> Some Char.newline)
      \/ (character p < i
          /\ String.get (i - character p - 1) text = Some Char.newline
          /\ forall k, i - character p <= k < i ->
               String.get k text <> Some Char.newline)).
Proof.
  revert index line0 char0.
  induction text as [|c rest IH]; intros index line0 char0.
  - destruct index; simpl; (split; [lia|]); left; (split; [lia|]); intros k Hk; lia.
  - destruct index as [|index].
    { simpl. split; [lia|]. left. split; [lia|]. intros k Hk. lia. }
    cbn [position_scan]. rewrite substring_0_S. cbn [newlines String.length].
    rewrite <- Nat.succ_min_distr.
    set (i := Nat.min index (String.length rest)).
    destruct (Ascii.eqb c Char.newline) eqn:Hc.
    + apply Ascii.eqb_eq in Hc. subst c.
      destruct (IH index (S line0) 0) as (Hline & Hcol). fold i in Hcol.
      set (p := position_scan rest index (S line0) 0) in *.
      split; [lia|]. right.
      destruct Hcol as [(Hcp & Hno)|(Hlt & Hnl & Hno)].
      * split; [lia|]. split.
        -- replace (S i - character p - 1) with 0 by lia. reflexivity.
        -- intros k Hk. destruct k as [|k]; [lia|]. simpl. apply Hno. lia.
      * split; [lia|]. split.
        -- replace (S i - character p - 1) with (S (i - character p - 1)) by lia.
           exact Hnl.
        -- intros k Hk. destruct k as [|k]; [lia|]. simpl. apply Hno. lia.
    + destruct (IH index line0 (S char0)) as (Hline & Hcol). fold i in Hcol.
      set (p := position_scan rest index line0 (S char0)) in *.
      split; [lia|].
      destruct Hcol as [(Hcp & Hno)|(Hlt & Hnl & Hno)].
      * left. split; [lia|]. intros k Hk. destruct k as [|k]; simpl.
        -- intros [= ->]. rewrite Ascii.eqb_refl in Hc. discriminate.
        -- apply Hno. lia.
      * right. split; [lia|]. split.
        -- replace (S i - character p - 1) with (S (i - character p - 1)) by lia.
           exact Hnl.
        -- intros k Hk. destruct k as [|k]; [lia|]. simpl. apply Hno. lia.
Qed.

Lemma position_scan_clamp (text : string) (index line0 char0 : nat) :
  String.length text <= index ->
  position_scan text index line0 char0
  = position_scan text (String.length text) line0 char0.
Proof.
  revert index line0 char0; induction text as [|c rest IH]; intros index line0 char0 H.
  - destruct index; reflexivity.
  - destruct index as [|index]; simpl in *; [lia|].
    destruct (Ascii.eqb c Char.newline); apply IH; lia.
Qed.

(** X5.  getPositionFromIndex counts lines and columns from zero: the line
    is the number of line feeds before the index, the column the distance to
    the last of them (to the start of the text when there is none); a
    carriage return counts as an ordinary character, and an index beyond the
    text gives the position of the end of the text. *)
Theorem getPositionFromIndex_spec (document : string) (index : nat) :
  let p := getPositionFromIndex document index in
  let i := Nat.min index (String.length document) in
  line p = newlines (String.substring 0 index document)
  /\ character p <= i
  /\ (forall k, i - character p <= k < i ->
        String.get k document <> Some Char.newline)
  /\ (character p < i ->
      String.get (i - character p - 1) document = Some Char.newline)
  /\ p = getPositionFromIndex document i.
Proof.
  unfold getPositionFromIndex.
  destruct (position_scan_spec document index 0 0) as (Hline & Hcol).
  cbv zeta. split; [exact Hline|].
  assert (Hclamp : position_scan document index 0 0
                   = position_scan document (Nat.min index (String.length document)) 0 0).
  { destruct (Nat.min_spec index (String.length document)) as [[_ ->]|[Hle ->]];
      [reflexivity|apply position_scan_clamp, Hle]. }
  destruct Hcol as [(Hcp & Hno)|(Hlt & Hnl & Hno)].
  - split; [lia|]. split; [intros k Hk; apply Hno; lia|]. split; [lia|exact Hclamp].
  - split; [lia|]. split; [exact Hno|]. split; [intros _; exact Hnl|exact Hclamp].
Qed.

(* ================================================================== *)
(** * Further properties of the parser *)

(** ** Expressions consume tokens *)

Ltac rel :=
  unfold forward, onward in *; simpl in *;
  repeat match goal with H : _ /\ _ |- _ => destruct H end;
  try (split; [lia|congruence]).

Lemma outcome_in_bind {A B : Type} (P1 P2 Q1 Q2 : pstate -> Prop) (r : result A)
    (k : A -> pstate -> result B) :
  outcome_in P1 P2 r ->
  (forall s, P2 s -> Q2 s) ->
  (forall a s, P1 s -> outcome_in Q1 Q2 (k a s)) ->
  outcome_in Q1 Q2 (bind r k).
Proof. destruct r; simpl; auto. Qed.

Lemma outcome_in_weaken {A : Type} (P1 P2 Q1 Q2 : pstate -> Prop) (r : result A) :
  outcome_in P1 P2 r ->
  (forall s, P1 s -> Q1 s) -> (forall s, P2 s -> Q2 s) ->
  outcome_in Q1 Q2 r.
Proof. destruct r; simpl; auto. Qed.

(** A call of [Hf]'s function, when what follows from its outcome is
    arithmetic. *)
Ltac call Hf :=
  eapply outcome_in_weaken; [apply Hf| |]; intros ? ?; rel.

Section ExpressionProgress.

Variable tokens : list token.

Lemma forward_next (s : pstate) : forward s (nextToken tokens s).
Proof. unfold nextToken. destruct (position s <? length tokens); rel. Qed.

Lemma onward_next (s : pstate) (t : token) :
  currentToken tokens s = Some t -> onward s (nextToken tokens s).
Proof. intros H. rewrite (nextToken_Some _ _ _ H). rel. Qed.

Lemma outcome_in_throw_at {A : Type} (P Q : pstate -> Prop) (text : string) (s : pstate) :
  Q s -> outcome_in P Q (@throw_at tokens A text s).
Proof. intros H. unfold throw_at. destruct (currentToken tokens s); exact H. Qed.

Section Bodies.

Variable pLevel : level -> pstate -> result node.
Variable pLoop : level -> node -> pstate -> result node.
Variable pUnary pPrimary : pstate -> result node.
Variable pCall pMember : node -> pstate -> result node.
Variable pArguments pProperties : list node -> pstate -> result (list node).
Variable pArray pObject pProperty : pstate -> result node.

Hypothesis H_level : forall lv, advances (pLevel lv).
Hypothesis H_loop : forall lv e, steady (pLoop lv e).
Hypothesis H_unary : advances pUnary.
Hypothesis H_primary : advances pPrimary.
Hypothesis H_call : forall e, steady (pCall e).
Hypothesis H_member : forall e, steady (pMember e).
Hypothesis H_arguments : forall l, steady (pArguments l).
Hypothesis H_properties : forall l, steady (pProperties l).
Hypothesis H_array : advances pArray.
Hypothesis H_object : advances pObject.
Hypothesis H_property : advances pProperty.

Lemma parseOperand_advances (lv : level) : advances (parseOperand pLevel pUnary lv).
Proof. destruct lv; simpl; first [apply H_level | exact H_unary]. Qed.

Lemma parseLevel_body_advances (lv : level) :
  advances (parseLevel_body pLevel pLoop pUnary lv).
Proof.
  intros s. unfold parseLevel_body.
  eapply outcome_in_bind; [apply parseOperand_advances|auto|].
  intros e s1 H1. call H_loop.
Qed.

Lemma parseLevel_loop_body_steady (lv : level) (e : node) :
  steady (parseLevel_loop_body tokens pLevel pLoop pUnary lv e).
Proof.
  intros s. unfold parseLevel_loop_body.
  destruct (currentToken tokens s) as [opToken|] eqn:Ht; [|rel].
  destruct (includes _ _); [|rel].
  pose proof (forward_next s) as Hn.
  eapply outcome_in_bind with (P1 := forward s) (P2 := forward s).
  - call parseOperand_advances.
  - auto.
  - intros r s2 H2. call H_loop.
Qed.

Lemma parseUnary_body_advances : advances (parseUnary_body tokens pUnary pPrimary).
Proof.
  intros s. unfold parseUnary_body.
  destruct (currentToken tokens s) as [opToken|] eqn:Ht; [|apply H_primary].
  destruct (_ =s _); [|apply H_primary].
  pose proof (onward_next _ _ Ht) as Hn.
  eapply outcome_in_bind with (P1 := onward s) (P2 := forward s).
  - call H_unary.
  - auto.
  - intros a s1 H1. exact H1.
Qed.

(** The argument list of a call, the element list of an array and the
    property list of an object. *)
Lemma parse_list_steady (close : string) (pFirst : pstate -> result node)
    (pRest : list node -> pstate -> result (list node)) (s0 s1 : pstate) :
  advances pFirst -> (forall l, steady (pRest l)) -> onward s0 s1 ->
  outcome_in (onward s0) (onward s0)
    (if at_other_than tokens close s1
     then let* (first, s') := pFirst s1 in pRest [first] s'
     else Ok [] s1).
Proof.
  intros Hfirst Hrest H. destruct (at_other_than tokens close s1); [|exact H].
  eapply outcome_in_bind with (P1 := onward s0) (P2 := onward s0).
  - call Hfirst.
  - auto.
  - intros a s2 H2. call Hrest.
Qed.

Lemma parseCallExpression_body_steady (callee : node) :
  steady (parseCallExpression_body tokens pLevel pArguments callee).
Proof.
  intros s. unfold parseCallExpression_body.
  destruct (negb _) eqn:Hopen; [apply outcome_in_throw_at; rel|].
  apply negb_false_iff, at_value_Some in Hopen as (t & Ht & _).
  pose proof (onward_next _ _ Ht) as Hn. cbv zeta.
  eapply outcome_in_bind.
  - apply (parse_list_steady ")" (pLevel LOr) pArguments s);
      [apply H_level|exact H_arguments|exact Hn].
  - intros s2 H2. rel.
  - intros args s2 H2.
    destruct (currentToken tokens s2) as [endToken|] eqn:He;
      [|apply outcome_in_throw_at; rel].
    destruct (_ =s _); [|apply outcome_in_throw_at; rel].
    pose proof (forward_next s2). rel.
Qed.

Lemma parseArguments_loop_body_steady (args : list node) :
  steady (parseArguments_loop_body tokens pLevel pArguments args).
Proof.
  intros s. unfold parseArguments_loop_body.
  destruct (at_value tokens "," s); [|rel].
  pose proof (forward_next s) as Hn.
  eapply outcome_in_bind with (P1 := forward s) (P2 := forward s).
  - call H_level.
  - auto.
  - intros a s1 H1. call H_arguments.
Qed.

Lemma parseProperties_loop_body_steady (properties : list node) :
  steady (parseProperties_loop_body tokens pProperties pProperty properties).
Proof.
  intros s. unfold parseProperties_loop_body.
  destruct (at_value tokens "," s); [|rel].
  pose proof (forward_next s) as Hn.
  eapply outcome_in_bind with (P1 := forward s) (P2 := forward s).
  - call H_property.
  - auto.
  - intros a s1 H1. call H_properties.
Qed.

Lemma parseMemberExpression_body_steady (object : node) :
  steady (parseMemberExpression_body tokens pCall object).
Proof.
  intros s. unfold parseMemberExpression_body.
  destruct (negb _); [apply outcome_in_throw_at; rel|]. cbv zeta.
  pose proof (forward_next s) as H1.
  destruct (currentToken tokens (nextToken tokens s)) as [t|];
    [|apply outcome_in_throw_at; exact H1].
  destruct (token_type_eqb _ _); [|apply outcome_in_throw_at; exact H1].
  pose proof (forward_next (nextToken tokens s)) as H2.
  assert (H3 : forward s (nextToken tokens (nextToken tokens s))) by rel.
  destruct (at_value tokens "(" _); [|exact H3].
  call H_call.
Qed.

Lemma parsePrimary_body_advances :
  advances (parsePrimary_body tokens pLevel pCall pMember pArray pObject).
Proof.
  intros s. unfold parsePrimary_body.
  destruct (currentToken tokens s) as [token|] eqn:Ht; [|rel].
  pose proof (onward_next _ _ Ht) as Hn.
  destruct (token_type_eqb (tok_type token) NUMBER); [exact Hn|].
  destruct (token_type_eqb (tok_type token) STRING); [exact Hn|].
  destruct (_ || _); [exact Hn|].
  destruct (tok_value token =s "nil"); [exact Hn|].
  destruct (token_type_eqb (tok_type token) IDENTIFIER).
  { cbv zeta. destruct (at_value tokens "(" _); [call H_call|].
    destruct (at_value tokens "." _); [call H_member|exact Hn]. }
  destruct (tok_value token =s "(").
  { eapply outcome_in_bind with (P1 := onward s) (P2 := forward s).
    - call H_level.
    - auto.
    - intros e s1 H1. destruct (at_value tokens ")" s1).
      + pose proof (forward_next s1). rel.
      + apply outcome_in_throw_at. rel. }
  destruct (tok_value token =s "["); [apply H_array|].
  destruct (tok_value token =s "{"); [apply H_object|].
  rel.
Qed.

Lemma parseArrayExpression_body_advances :
  advances (parseArrayExpression_body tokens pLevel pArguments).
Proof.
  intros s. unfold parseArrayExpression_body.
  destruct (currentToken tokens s) as [startToken|] eqn:Ht; [|rel].
  pose proof (onward_next _ _ Ht) as Hn. cbv zeta.
  eapply outcome_in_bind.
  - apply (parse_list_steady "]" (pLevel LOr) pArguments s);
      [apply H_level|exact H_arguments|exact Hn].
  - intros s2 H2. rel.
  - intros args s2 H2.
    destruct (currentToken tokens s2) as [endToken|] eqn:He;
      [|apply outcome_in_throw_at; rel].
    destruct (_ =s _); [|apply outcome_in_throw_at; rel].
    pose proof (forward_next s2). rel.
Qed.

Lemma parseObjectExpression_body_advances :
  advances (parseObjectExpression_body tokens pProperties pProperty).
Proof.
  intros s. unfold parseObjectExpression_body.
  destruct (currentToken tokens s) as [startToken|] eqn:Ht; [|rel].
  pose proof (onward_next _ _ Ht) as Hn. cbv zeta.
  eapply outcome_in_bind.
  - apply (parse_list_steady "}" pProperty pProperties s);
      [apply H_property|exact H_properties|exact Hn].
  - intros s2 H2. rel.
  - intros args s2 H2.
    destruct (currentToken tokens s2) as [endToken|] eqn:He;
      [|apply outcome_in_throw_at; rel].
    destruct (_ =s _); [|apply outcome_in_throw_at; rel].
    pose proof (forward_next s2). rel.
Qed.

Lemma parseObjectProperty_body_advances :
  advances (parseObjectProperty_body tokens pLevel).
Proof.
  intros s. unfold parseObjectProperty_body.
  destruct (currentToken tokens s) as [key|] eqn:Ht;
    [|apply outcome_in_throw_at; rel].
  destruct (token_type_eqb _ _); [|apply outcome_in_throw_at; rel].
  pose proof (onward_next _ _ Ht) as Hn. cbv zeta.
  destruct (negb _); [apply outcome_in_throw_at; rel|].
  pose proof (forward_next (nextToken tokens s)) as H2.
  eapply outcome_in_bind with (P1 := onward s) (P2 := forward s).
  - call H_level.
  - auto.
  - intros v s2 Hs2. exact Hs2.
Qed.

End Bodies.

Lemma expression_parsers_advance (fuel : nat) :
  (forall lv, advances (parseLevel tokens fuel lv))
  /\ (forall lv e, steady (parseLevel_loop tokens fuel lv e))
  /\ advances (parseUnary tokens fuel)
  /\ advances (parsePrimary tokens fuel)
  /\ (forall e, steady (parseCallExpression tokens fuel e))
  /\ (forall e, steady (parseMemberExpression tokens fuel e))
  /\ (forall l, steady (parseArguments_loop tokens fuel l))
  /\ (forall l, steady (parseProperties_loop tokens fuel l))
  /\ advances (parseArrayExpression tokens fuel)
  /\ advances (parseObjectExpression tokens fuel)
  /\ advances (parseObjectProperty tokens fuel).
Proof.
  induction fuel as [|fuel IH].
  - repeat split; intros; intro; exact I.
  - destruct IH as (H1 & H2 & H3 & H4 & H5 & H6 & H7 & H8 & H9 & H10 & H11).
    repeat split; intros; simpl.
    + apply parseLevel_body_advances; assumption.
    + apply parseLevel_loop_body_steady; assumption.
    + apply parseUnary_body_advances; assumption.
    + apply parsePrimary_body_advances; assumption.
    + apply parseCallExpression_body_steady; assumption.
    + apply parseMemberExpression_body_steady; assumption.
    + apply parseArguments_loop_body_steady; assumption.
    + apply parseProperties_loop_body_steady; assumption.
    + apply parseArrayExpression_body_advances; assumption.
    + apply parseObjectExpression_body_advances; assumption.
    + apply parseObjectProperty_body_advances; assumption.
Qed.

Lemma parseExpression_advances (fuel : nat) : advances (parseExpression tokens fuel).
Proof. apply (expression_parsers_advance fuel). Qed.

End ExpressionProgress.

(** X6.  parseExpression never records an error and never moves back; when
    it returns a node it has consumed at least one token. *)
Theorem parseExpression_consumes (tokens : list token) (fuel : nat) (s : pstate) :
  match parseExpression tokens fuel s with
  | Ok _ s' => position s < position s' /\ errors s' = errors s
  | Throw _ s' => position s <= position s' /\ errors s' = errors s
  | OutOfFuel => True
  end.
Proof. exact (parseExpression_advances tokens fuel s). Qed.

Lemma token_type_eqb_eq (a b : token_type) : token_type_eqb a b = true -> a = b.
Proof. destruct a, b; simpl; congruence. Qed.

Section IdentifierFirst.

Variable tokens : list token.

Lemma parsePrimary_identifier (fuel : nat) (s : pstate) :
  at_type tokens IDENTIFIER s = true ->
  outcome_in (onward s) (onward s) (parsePrimary tokens fuel s).
Proof.
  intros Hid. destruct fuel as [|fuel]; [exact I|].
  destruct (expression_parsers_advance tokens fuel)
    as (H1 & H2 & H3 & H4 & H5 & H6 & H7 & H8 & H9 & H10 & H11).
  change (parsePrimary tokens (S fuel) s)
    with (parsePrimary_body tokens (parseLevel tokens fuel)
            (parseCallExpression tokens fuel) (parseMemberExpression tokens fuel)
            (parseArrayExpression tokens fuel) (parseObjectExpression tokens fuel) s).
  unfold parsePrimary_body. unfold at_type in Hid.
  destruct (currentToken tokens s) as [token|] eqn:Ht; [|discriminate].
  pose proof (onward_next _ _ _ Ht) as Hn.
  apply token_type_eqb_eq in Hid. rewrite Hid. simpl.
  destruct (_ || _); [exact Hn|].
  destruct (tok_value token =s "nil"); [exact Hn|].
  destruct (at_value tokens "(" _); [call H5|].
  destruct (at_value tokens "." _); [call H6|exact Hn].
Qed.

Lemma parseUnary_identifier (fuel : nat) (s : pstate) :
  at_type tokens IDENTIFIER s = true ->
  outcome_in (onward s) (onward s) (parseUnary tokens fuel s).
Proof.
  intros Hid. destruct fuel as [|fuel]; [exact I|].
  destruct (expression_parsers_advance tokens fuel)
    as (H1 & H2 & H3 & H4 & H5 & H6 & H7 & H8 & H9 & H10 & H11).
  change (parseUnary tokens (S fuel) s)
    with (parseUnary_body tokens (parseUnary tokens fuel) (parsePrimary tokens fuel) s).
  unfold parseUnary_body.
  destruct (currentToken tokens s) as [opToken|] eqn:Ht;
    [|apply parsePrimary_identifier, Hid].
  destruct (_ =s _); [|apply parsePrimary_identifier, Hid].
  pose proof (onward_next _ _ _ Ht) as Hn.
  eapply outcome_in_bind with (P1 := onward s) (P2 := onward s).
  - call H3.
  - auto.
  - intros a s1 Hs1. exact Hs1.
Qed.

Lemma parseLevel_identifier (fuel : nat) (lv : level) (s : pstate) :
  at_type tokens IDENTIFIER s = true ->
  outcome_in (onward s) (onward s) (parseLevel tokens fuel lv s).
Proof.
  intros Hid. revert lv. induction fuel as [|fuel IH]; intros lv; [exact I|].
  destruct (expression_parsers_advance tokens fuel)
    as (H1 & H2 & H3 & H4 & H5 & H6 & H7 & H8 & H9 & H10 & H11).
  change (parseLevel tokens (S fuel) lv s)
    with (parseLevel_body (parseLevel tokens fuel) (parseLevel_loop tokens fuel)
            (parseUnary tokens fuel) lv s).
  unfold parseLevel_body.
  eapply outcome_in_bind with (P1 := onward s) (P2 := onward s).
  - destruct lv; simpl; first [apply IH | apply parseUnary_identifier, Hid].
  - auto.
  - intros e s1 Hs1. call H2.
Qed.

End IdentifierFirst.

(** ** Expressions terminate *)

Lemma finishes_bind {A B : Type} (P1 P2 Q1 Q2 : pstate -> Prop) (r : result A)
    (k : A -> pstate -> result B) :
  finishes P1 P2 r ->
  (forall s, P2 s -> Q2 s) ->
  (forall a s, P1 s -> finishes Q1 Q2 (k a s)) ->
  finishes Q1 Q2 (bind r k).
Proof. destruct r; simpl; auto. Qed.

Lemma finishes_weaken {A : Type} (P1 P2 Q1 Q2 : pstate -> Prop) (r : result A) :
  finishes P1 P2 r ->
  (forall s, P1 s -> Q1 s) -> (forall s, P2 s -> Q2 s) ->
  finishes Q1 Q2 r.
Proof. destruct r; simpl; auto. Qed.

Lemma finishes_outcome_in {A : Type} (P Q : pstate -> Prop) (r : result A) :
  finishes P Q r -> outcome_in P Q r.
Proof. destruct r; simpl; tauto. Qed.

Section ExpressionTermination.

Variable tokens : list token.

Lemma currentToken_remaining (s : pstate) (t : token) :
  currentToken tokens s = Some t ->
  position s < length tokens /\ position (nextToken tokens s) = S (position s)
  /\ errors (nextToken tokens s) = errors s.
Proof.
  intros H. rewrite (nextToken_Some _ _ _ H). split; [|split; reflexivity].
  apply lookup_lt_Some in H. exact H.
Qed.

Lemma finishes_throw_at {A : Type} (P Q : pstate -> Prop) (text : string) (s : pstate) :
  Q s -> finishes P Q (@throw_at tokens A text s).
Proof. intros H. unfold throw_at. destruct (currentToken tokens s); exact H. Qed.

(** Facts about positions and fuel, by arithmetic. *)
Ltac count :=
  unfold enough, remaining, forward, onward in *; simpl in *;
  repeat match goal with
         | H : _ /\ _ |- _ => destruct H
         | H : currentToken tokens ?s = Some _ |- _ =>
             apply currentToken_remaining in H
         | H : at_value tokens _ ?s = true |- _ =>
             apply at_value_Some in H as (? & H & _)
         end;
  solve [repeat split; first [lia | congruence]].

(** A call of a function that finishes when it has enough fuel. *)
Ltac run Hf :=
  eapply finishes_weaken; [apply Hf|intros ? ?|intros ? ?]; count.

Section Bodies.

Variable fuel : nat.
Variable pLevel : level -> pstate -> result node.
Variable pLoop : level -> node -> pstate -> result node.
Variable pUnary pPrimary : pstate -> result node.
Variable pCall pMember : node -> pstate -> result node.
Variable pArguments pProperties : list node -> pstate -> result (list node).
Variable pArray pObject pProperty : pstate -> result node.

Hypothesis H_level : forall lv s, enough tokens (level_extra lv) fuel s ->
  finishes (onward s) (forward s) (pLevel lv s).
Hypothesis H_loop : forall lv e s, enough tokens 1 fuel s ->
  finishes (forward s) (forward s) (pLoop lv e s).
Hypothesis H_unary : forall s, enough tokens 3 fuel s ->
  finishes (onward s) (forward s) (pUnary s).
Hypothesis H_primary : forall s, enough tokens 2 fuel s ->
  finishes (onward s) (forward s) (pPrimary s).
Hypothesis H_call : forall e s, enough tokens 1 fuel s ->
  finishes (forward s) (forward s) (pCall e s).
Hypothesis H_member : forall e s, enough tokens 1 fuel s ->
  finishes (forward s) (forward s) (pMember e s).
Hypothesis H_arguments : forall l s, enough tokens 1 fuel s ->
  finishes (forward s) (forward s) (pArguments l s).
Hypothesis H_properties : forall l s, enough tokens 1 fuel s ->
  finishes (forward s) (forward s) (pProperties l s).
Hypothesis H_array : forall s, enough tokens 1 fuel s ->
  finishes (onward s) (forward s) (pArray s).
Hypothesis H_object : forall s, enough tokens 1 fuel s ->
  finishes (onward s) (forward s) (pObject s).
Hypothesis H_property : forall s, enough tokens 1 fuel s ->
  finishes (onward s) (forward s) (pProperty s).

Lemma parseOperand_finishes (lv : level) (s : pstate) :
  enough tokens (level_extra lv - 1) fuel s ->
  finishes (onward s) (forward s) (parseOperand pLevel pUnary lv s).
Proof.
  intros H. destruct lv; simpl in *; first [apply H_level | apply H_unary]; exact H.
Qed.

Lemma parseLevel_body_finishes (lv : level) (s : pstate) :
  enough tokens (level_extra lv) (S fuel) s ->
  finishes (onward s) (forward s) (parseLevel_body pLevel pLoop pUnary lv s).
Proof.
  intros H. unfold parseLevel_body.
  eapply finishes_bind with (P1 := onward s) (P2 := forward s).
  - apply parseOperand_finishes. destruct lv; count.
  - auto.
  - intros e s1 H1. destruct lv; run H_loop.
Qed.

Lemma parseLevel_loop_body_finishes (lv : level) (e : node) (s : pstate) :
  enough tokens 1 (S fuel) s ->
  finishes (forward s) (forward s)
    (parseLevel_loop_body tokens pLevel pLoop pUnary lv e s).
Proof.
  intros H. unfold parseLevel_loop_body.
  destruct (currentToken tokens s) as [opToken|] eqn:Ht; [|count].
  destruct (includes _ _); [|count].
  eapply finishes_bind with (P1 := onward s) (P2 := forward s).
  - eapply finishes_weaken; [apply parseOperand_finishes| |].
    + destruct lv; count.
    + intros s2 H2. count.
    + intros s2 H2. count.
  - auto.
  - intros r s2 H2. run H_loop.
Qed.

Lemma parseUnary_body_finishes (s : pstate) :
  enough tokens 3 (S fuel) s ->
  finishes (onward s) (forward s) (parseUnary_body tokens pUnary pPrimary s).
Proof.
  intros H. unfold parseUnary_body.
  destruct (currentToken tokens s) as [opToken|] eqn:Ht; [|apply H_primary; count].
  destruct (_ =s _); [|apply H_primary; count].
  eapply finishes_bind with (P1 := onward s) (P2 := forward s).
  - run H_unary.
  - auto.
  - intros a s1 H1. exact H1.
Qed.

Lemma parse_list_finishes (close : string) (pFirst : pstate -> result node)
    (pRest : list node -> pstate -> result (list node)) (extra : nat)
    (s0 s1 : pstate) :
  (forall s, enough tokens extra fuel s -> finishes (onward s) (forward s) (pFirst s)) ->
  (forall l s, enough tokens 1 fuel s -> finishes (forward s) (forward s) (pRest l s)) ->
  onward s0 s1 -> enough tokens extra fuel s1 -> 1 <= extra ->
  finishes (onward s0) (onward s0)
    (if at_other_than tokens close s1
     then let* (first, s') := pFirst s1 in pRest [first] s'
     else Ok [] s1).
Proof.
  intros Hfirst Hrest H Hfuel Hextra.
  destruct (at_other_than tokens close s1); [|exact H].
  eapply finishes_bind with (P1 := fun s2 => onward s0 s2 /\ onward s1 s2)
                            (P2 := onward s0).
  - eapply finishes_weaken; [apply Hfirst, Hfuel| |]; intros s2 H2; count.
  - auto.
  - intros a s2 H2. eapply finishes_weaken; [apply Hrest| |].
    + count.
    + intros s3 H3. count.
    + intros s3 H3. count.
Qed.

Lemma list_end_finishes (close text : string) (s0 s2 : pstate) (build : token -> node) :
  onward s0 s2 ->
  finishes (onward s0) (onward s0)
    match currentToken tokens s2 with
    | Some endToken =>
        if tok_value endToken =s close
        then Ok (build endToken) (nextToken tokens s2)
        else throw_at tokens text s2
    | None => throw_at tokens text s2
    end.
Proof.
  intros H2.
  destruct (currentToken tokens s2) as [endToken|] eqn:He;
    [|apply finishes_throw_at; count].
  destruct (_ =s _); [|apply finishes_throw_at; count].
  count.
Qed.

Lemma parseCallExpression_body_finishes (callee : node) (s : pstate) :
  enough tokens 1 (S fuel) s ->
  finishes (forward s) (forward s)
    (parseCallExpression_body tokens pLevel pArguments callee s).
Proof.
  intros H. unfold parseCallExpression_body.
  destruct (negb _) eqn:Hopen; [apply finishes_throw_at; count|].
  apply negb_false_iff in Hopen. cbv zeta.
  eapply finishes_bind.
  - apply (parse_list_finishes ")" (pLevel LOr) pArguments 9 s);
      [exact (H_level LOr)|exact H_arguments| | |]; count.
  - intros s2 H2. count.
  - intros args s2 H2.
    eapply finishes_weaken;
      [apply (list_end_finishes ")" _ s s2
                (fun endToken => CallExpression callee args (start_of callee)
                                   (tok_end endToken))); exact H2
      |intros ? ?; count|intros ? ?; count].
Qed.

Lemma parseArguments_loop_body_finishes (args : list node) (s : pstate) :
  enough tokens 1 (S fuel) s ->
  finishes (forward s) (forward s)
    (parseArguments_loop_body tokens pLevel pArguments args s).
Proof.
  intros H. unfold parseArguments_loop_body.
  destruct (at_value tokens "," s) eqn:Hc; [|count].
  eapply finishes_bind with (P1 := onward s) (P2 := forward s).
  - run (H_level LOr).
  - auto.
  - intros a s1 H1. run H_arguments.
Qed.

Lemma parseProperties_loop_body_finishes (properties : list node) (s : pstate) :
  enough tokens 1 (S fuel) s ->
  finishes (forward s) (forward s)
    (parseProperties_loop_body tokens pProperties pProperty properties s).
Proof.
  intros H. unfold parseProperties_loop_body.
  destruct (at_value tokens "," s) eqn:Hc; [|count].
  eapply finishes_bind with (P1 := onward s) (P2 := forward s).
  - run H_property.
  - auto.
  - intros a s1 H1. run H_properties.
Qed.

Lemma parseMemberExpression_body_finishes (object : node) (s : pstate) :
  enough tokens 1 (S fuel) s ->
  finishes (forward s) (forward s)
    (parseMemberExpression_body tokens pCall object s).
Proof.
  intros H. unfold parseMemberExpression_body.
  destruct (negb _) eqn:Hdot; [apply finishes_throw_at; count|].
  apply negb_false_iff in Hdot. cbv zeta.
  destruct (currentToken tokens (nextToken tokens s)) as [t|] eqn:Ht;
    [|apply finishes_throw_at; count].
  destruct (token_type_eqb _ _); [|apply finishes_throw_at; count].
  destruct (at_value tokens "(" _) eqn:Hopen; [|count].
  run H_call.
Qed.

Lemma parsePrimary_body_finishes (s : pstate) :
  enough tokens 2 (S fuel) s ->
  finishes (onward s) (forward s)
    (parsePrimary_body tokens pLevel pCall pMember pArray pObject s).
Proof.
  intros H. unfold parsePrimary_body.
  destruct (currentToken tokens s) as [token|] eqn:Ht; [|count].
  destruct (token_type_eqb (tok_type token) NUMBER); [count|].
  destruct (token_type_eqb (tok_type token) STRING); [count|].
  destruct (_ || _); [count|].
  destruct (tok_value token =s "nil"); [count|].
  destruct (token_type_eqb (tok_type token) IDENTIFIER).
  { cbv zeta. destruct (at_value tokens "(" _) eqn:Hopen; [run H_call|].
    destruct (at_value tokens "." _) eqn:Hdot; [run H_member|count]. }
  destruct (tok_value token =s "(").
  { eapply finishes_bind with (P1 := onward s) (P2 := forward s).
    - run (H_level LOr).
    - auto.
    - intros e s1 H1. destruct (at_value tokens ")" s1) eqn:Hclose.
      + count.
      + apply finishes_throw_at. count. }
  destruct (tok_value token =s "["); [apply H_array; count|].
  destruct (tok_value token =s "{"); [apply H_object; count|].
  count.
Qed.

Lemma parseArrayExpression_body_finishes (s : pstate) :
  enough tokens 1 (S fuel) s ->
  finishes (onward s) (forward s)
    (parseArrayExpression_body tokens pLevel pArguments s).
Proof.
  intros H. unfold parseArrayExpression_body.
  destruct (currentToken tokens s) as [startToken|] eqn:Ht; [|count]. cbv zeta.
  eapply finishes_bind with (P1 := onward s) (P2 := forward s).
  - eapply finishes_weaken;
      [apply (parse_list_finishes "]" (pLevel LOr) pArguments 9 s);
         [exact (H_level LOr)|exact H_arguments| | |]; count
      |auto|intros ? ?; count].
  - auto.
  - intros elements s2 H2.
    eapply finishes_weaken;
      [apply (list_end_finishes "]" _ s s2
                (fun endToken => ArrayExpression elements (tok_start startToken)
                                   (tok_end endToken))); exact H2
      |auto|intros ? ?; count].
Qed.

Lemma parseObjectExpression_body_finishes (s : pstate) :
  enough tokens 1 (S fuel) s ->
  finishes (onward s) (forward s)
    (parseObjectExpression_body tokens pProperties pProperty s).
Proof.
  intros H. unfold parseObjectExpression_body.
  destruct (currentToken tokens s) as [startToken|] eqn:Ht; [|count]. cbv zeta.
  eapply finishes_bind with (P1 := onward s) (P2 := forward s).
  - eapply finishes_weaken;
      [apply (parse_list_finishes "}" pProperty pProperties 1 s);
         [exact H_property|exact H_properties| | |]; count
      |auto|intros ? ?; count].
  - auto.
  - intros properties s2 H2.
    eapply finishes_weaken;
      [apply (list_end_finishes "}" _ s s2
                (fun endToken => ObjectExpression properties (tok_start startToken)
                                   (tok_end endToken))); exact H2
      |auto|intros ? ?; count].
Qed.

Lemma parseObjectProperty_body_finishes (s : pstate) :
  enough tokens 1 (S fuel) s ->
  finishes (onward s) (forward s) (parseObjectProperty_body tokens pLevel s).
Proof.
  intros H. unfold parseObjectProperty_body.
  destruct (currentToken tokens s) as [key|] eqn:Ht;
    [|apply finishes_throw_at; count].
  destruct (token_type_eqb _ _); [|apply finishes_throw_at; count]. cbv zeta.
  destruct (negb _) eqn:Hcolon; [apply finishes_throw_at; count|].
  apply negb_false_iff in Hcolon.
  eapply finishes_bind with (P1 := onward s) (P2 := forward s).
  - run (H_level LOr).
  - auto.
  - intros v s2 Hs2. exact Hs2.
Qed.

End Bodies.

Lemma expression_parsers_finish (fuel : nat) :
  (forall lv s, enough tokens (level_extra lv) fuel s ->
     finishes (onward s) (forward s) (parseLevel tokens fuel lv s))
  /\ (forall lv e s, enough tokens 1 fuel s ->
        finishes (forward s) (forward s) (parseLevel_loop tokens fuel lv e s))
  /\ (forall s, enough tokens 3 fuel s ->
        finishes (onward s) (forward s) (parseUnary tokens fuel s))
  /\ (forall s, enough tokens 2 fuel s ->
        finishes (onward s) (forward s) (parsePrimary tokens fuel s))
  /\ (forall e s, enough tokens 1 fuel s ->
        finishes (forward s) (forward s) (parseCallExpression tokens fuel e s))
  /\ (forall e s, enough tokens 1 fuel s ->
        finishes (forward s) (forward s) (parseMemberExpression tokens fuel e s))
  /\ (forall l s, enough tokens 1 fuel s ->
        finishes (forward s) (forward s) (parseArguments_loop tokens fuel l s))
  /\ (forall l s, enough tokens 1 fuel s ->
        finishes (forward s) (forward s) (parseProperties_loop tokens fuel l s))
  /\ (forall s, enough tokens 1 fuel s ->
        finishes (onward s) (forward s) (parseArrayExpression tokens fuel s))
  /\ (forall s, enough tokens 1 fuel s ->
        finishes (onward s) (forward s) (parseObjectExpression tokens fuel s))
  /\ (forall s, enough tokens 1 fuel s ->
        finishes (onward s) (forward s) (parseObjectProperty tokens fuel s)).
Proof.
  induction fuel as [|fuel IH].
  - repeat split; intros; exfalso; unfold enough in *;
      try match goal with lv : level |- _ => destruct lv; simpl in * end; lia.
  - destruct IH as (H1 & H2 & H3 & H4 & H5 & H6 & H7 & H8 & H9 & H10 & H11).
    repeat split; intros; simpl.
    + apply (parseLevel_body_finishes fuel); assumption.
    + apply (parseLevel_loop_body_finishes fuel); assumption.
    + apply (parseUnary_body_finishes fuel); assumption.
    + apply (parsePrimary_body_finishes fuel); assumption.
    + apply (parseCallExpression_body_finishes fuel); assumption.
    + apply (parseMemberExpression_body_finishes fuel); assumption.
    + apply (parseArguments_loop_body_finishes fuel); assumption.
    + apply (parseProperties_loop_body_finishes fuel); assumption.
    + apply (parseArrayExpression_body_finishes fuel); assumption.
    + apply (parseObjectExpression_body_finishes fuel); assumption.
    + apply (parseObjectProperty_body_finishes fuel); assumption.
Qed.

Lemma parseExpression_finishes (fuel : nat) (s : pstate) :
  enough tokens 9 fuel s ->
  finishes (onward s) (forward s) (parseExpression tokens fuel s).
Proof. exact (proj1 (expression_parsers_finish fuel) LOr s). Qed.

End ExpressionTermination.

(** X7.  Parsing an expression always comes to an end: with ten units of
    fuel for each token left and nine more, parseExpression returns or
    throws. *)
Theorem parseExpression_terminates (tokens : list token) (fuel : nat) (s : pstate) :
  10 * (length tokens - position s) + 9 <= fuel ->
  parseExpression tokens fuel s <> OutOfFuel.
Proof.
  intros H. pose proof (parseExpression_finishes tokens fuel s H) as Hf.
  destruct (parseExpression tokens fuel s); [discriminate|discriminate|destruct Hf].
Qed.

Lemma parseExpression_terminates_witness :
  parseExpression [Token IDENTIFIER "f" 0 1; Token SYMBOL "(" 1 2; Token NUMBER "1" 2 3;
                   Token SYMBOL ")" 3 4] 49 (PState 0 []) <> OutOfFuel.
Proof. apply parseExpression_terminates. simpl. lia. Defined.

(** ** Exceptions, semicolons and blocks *)

Section NoThrow.

Variable input : string.
Variable tokens : list token.

Lemma parseStatement_catches (fuel : nat) (s : pstate) (msg : string) (s' : pstate) :
  parseStatement input tokens fuel s <> Throw msg s'.
Proof.
  destruct fuel as [|fuel]; [discriminate|].
  rewrite parseStatement_eq.
  destruct (currentToken tokens s) as [token|]; [|discriminate].
  destruct (statement_try input tokens fuel token s); discriminate.
Qed.

Lemma parse_loop_catches (fuel : nat) (statements : list node) (s : pstate)
    (msg : string) (s' : pstate) :
  parse_loop input tokens fuel statements s <> Throw msg s'.
Proof.
  revert statements s; induction fuel as [|fuel IH]; intros statements s;
    [discriminate|].
  rewrite parse_loop_eq. destruct (position s <? length tokens); [|discriminate].
  destruct (parseStatement input tokens fuel s) as [stmt s1|msg1 s1|] eqn:Hs;
    [|exfalso; exact (parseStatement_catches _ _ _ _ Hs)|discriminate].
  unfold bind. apply IH.
Qed.

End NoThrow.

(** X8.  The only exception that leaves parse is the tokenizer's: whatever
    the parser proper throws is caught by parseStatement. *)
Theorem parse_throws_only_unterminated_string (fuel : nat) (input msg : string) :
  parse fuel input = Thrown msg ->
  exists start, unterminated_string_at input start /\ msg = unterminated_message start.
Proof.
  unfold parse. destruct (blank input); [discriminate|].
  destruct (tokenize input) as [tokens|msg'|] eqn:Ht; [| |discriminate].
  - destruct (parse_loop input tokens fuel [] (PState 0 [])) as [l s|msg1 s|] eqn:Hl;
      [discriminate| |discriminate].
    exfalso. exact (parse_loop_catches _ _ _ _ _ _ _ Hl).
  - intros [= <-]. apply tokenize_error_inv, Ht.
Qed.

Lemma parse_throws_only_unterminated_string_witness :
  exists start,
    unterminated_string_at "say('hi" start
    /\ "Unterminated string at position 4" = unterminated_message start.
Proof.
  exact (parse_throws_only_unterminated_string 10 "say('hi"
           "Unterminated string at position 4" eq_refl).
Defined.

(** X9.  An expression statement or assignment that parses: either the
    next token was a [;], which is consumed and no error is recorded, or
    exactly one missing-semicolon error is recorded, whose range starts at
    the [end] of the node returned and ends at the end of that line, and the
    node is returned all the same. *)
Theorem parseExpressionStatement_semicolon (input : string) (tokens : list token)
    (fuel : nat) (s s' : pstate) (n : node) :
  parseExpressionStatement input tokens fuel s = Ok n s' ->
  (errors s' = errors s
   /\ exists t, tokens !! (position s' - 1) = Some t /\ tok_value t = ";")
  \/ (at_value tokens ";" s' = false
      /\ exists msg,
           errors s'
           = errors s ++ [SyntaxError msg (end_of n) (findEndOfLine input (end_of n))]
           /\ (msg = "Missing semicolon at end of statement"
               \/ msg = "Missing semicolon at end of assignment")).
Proof.
  intros H. unfold parseExpressionStatement in H.
  pose proof (parseExpression_advances tokens fuel s) as Hspec.
  destruct (parseExpression tokens fuel s) as [expr s1|msg s1|]; simpl in H;
    try discriminate.
  destruct Hspec as (_ & He1).
  destruct (is_Identifier expr && at_value tokens "=" s1) eqn:Hassign.
  - unfold parseAssignmentExpression in H.
    apply andb_true_iff in Hassign as [_ Heq]. rewrite Heq in H. simpl in H.
    apply at_value_Some in Heq as (eq & Heq & _).
    rewrite (nextToken_Some _ _ _ Heq) in H.
    pose proof (parseExpression_advances tokens fuel (PState (S (position s1)) (errors s1)))
      as Hspec.
    destruct (parseExpression tokens fuel (PState (S (position s1)) (errors s1)))
      as [right s2|msg s2|]; simpl in H; try discriminate.
    destruct Hspec as (_ & He2). simpl in He2.
    destruct (at_value tokens ";" s2) eqn:Hsemi.
    + apply at_value_Some in Hsemi as (c & Hc & Hv).
      rewrite (nextToken_Some _ _ _ Hc) in H. injection H as _ <-. left. simpl.
      split; [congruence|]. exists c. rewrite Nat.sub_0_r. auto.
    + injection H as <- <-. right. split; [exact Hsemi|].
      eexists. simpl. rewrite He2, He1. eauto.
  - destruct (at_value tokens ";" s1) eqn:Hsemi.
    + apply at_value_Some in Hsemi as (c & Hc & Hv).
      rewrite (nextToken_Some _ _ _ Hc) in H. injection H as _ <-. left. simpl.
      split; [congruence|]. exists c. rewrite Nat.sub_0_r. auto.
    + injection H as <- <-. right. split; [exact Hsemi|].
      eexists. simpl. rewrite He1. eauto.
Qed.

Lemma parseExpressionStatement_semicolon_witness :
  let tokens := [Token IDENTIFIER "f" 0 1; Token SYMBOL "(" 1 2; Token SYMBOL ")" 2 3;
                 Token IDENTIFIER "g" 4 5] in
  let n := ExpressionStatement (CallExpression (Identifier "f" 0 1) [] 0 3) 0 3 in
  let s' := PState 3 [SyntaxError "Missing semicolon at end of statement" 3 5] in
  (errors s' = []
   /\ exists t, tokens !! (position s' - 1) = Some t /\ tok_value t = ";")
  \/ (at_value tokens ";" s' = false
      /\ exists msg,
           errors s' = [] ++ [SyntaxError msg (end_of n) (findEndOfLine "f() g" (end_of n))]
           /\ (msg = "Missing semicolon at end of statement"
               \/ msg = "Missing semicolon at end of assignment")).
Proof.
  intros tokens n s'.
  exact (parseExpressionStatement_semicolon "f() g" tokens 20 (PState 0 []) s' n eq_refl).
Defined.

Section Blocks.

Variable input : string.
Variable tokens : list token.

Lemma parseBlock_eq (fuel : nat) (s : pstate) :
  parseBlock input tokens (S fuel) s
  = parseBlock_body tokens (parseStatement input tokens fuel)
      (parseBlock_loop input tokens fuel) s.
Proof. reflexivity. Qed.

Lemma parseBlock_loop_eq (fuel : nat) (body : list (option node)) (s : pstate) :
  parseBlock_loop input tokens (S fuel) body s
  = parseBlock_loop_body tokens (parseStatement input tokens fuel)
      (parseBlock_loop input tokens fuel) body s.
Proof. reflexivity. Qed.

Lemma parseBlock_loop_run (fuel : nat) (body : list (option node)) (s : pstate) :
  match parseBlock_loop input tokens fuel body s with
  | Ok body' s' =>
      exists results,
        block_run input tokens s results s'
        /\ body' = body ++ List.filter is_node results
  | Throw _ _ => False
  | OutOfFuel => True
  end.
Proof.
  revert body s; induction fuel as [|fuel IH]; intros body s; [exact I|].
  rewrite parseBlock_loop_eq. unfold parseBlock_loop_body.
  destruct (at_other_than tokens "}" s) eqn:Hat.
  - destruct (parseStatement input tokens fuel s) as [stmt s1|msg s1|] eqn:Hs; simpl;
      [|exact (parseStatement_catches input tokens _ _ _ _ Hs)|exact I].
    specialize (IH match stmt with Some n => body ++ [Some n] | None => body end s1).
    destruct (parseBlock_loop input tokens fuel _ s1) as [body' s'|msg s'|];
      [|exact IH|exact I].
    destruct IH as (results & Hrun & ->).
    exists (stmt :: results). split.
    + exact (block_run_next input tokens fuel s stmt s1 results s' Hat Hs Hrun).
    + destruct stmt as [n|]; simpl; [rewrite <- app_assoc|]; reflexivity.
  - exists []. split; [apply block_run_end; exact Hat|]. simpl.
    rewrite app_nil_r. reflexivity.
Qed.

Lemma block_run_stops (s : pstate) (results : list (option node)) (s' : pstate) :
  block_run input tokens s results s' ->
  at_value tokens "}" s' = true \/ currentToken tokens s' = None.
Proof.
  induction 1 as [s Hat|]; [|assumption].
  unfold at_other_than, at_value in *.
  destruct (currentToken tokens s) as [t|]; [|right; reflexivity].
  left. destruct (tok_value t =s "}"); [reflexivity|discriminate].
Qed.

End Blocks.

(** X10.  parseBlock never throws, and when it returns it returns a
    BlockStatement.  For a block in braces parseStatement is called again
    and again until a [}] or the end of the tokens; the body holds the
    nodes these calls returned, in order, a call that returned [null] adds
    nothing, and the closing [}] is consumed when there is one.  For a
    block without braces the body is the one result of parseStatement,
    [null] included. *)
Theorem parseBlock_shape (input : string) (tokens : list token) (fuel : nat)
    (s : pstate) :
  (forall msg s', parseBlock input tokens fuel s <> Throw msg s')
  /\ (forall n s', parseBlock input tokens fuel s = Ok n s' ->
       if at_value tokens "{" s
       then exists results s1,
              block_run input tokens (nextToken tokens s) results s1
              /\ n = BlockStatement (List.filter is_node results)
              /\ ((at_value tokens "}" s1 = true /\ s' = nextToken tokens s1)
                  \/ (currentToken tokens s1 = None /\ s' = s1))
       else exists fuel' stmt,
              parseStatement input tokens fuel' s = Ok stmt s'
              /\ n = BlockStatement [stmt]).
Proof.
  destruct fuel as [|fuel]; [split; intros; discriminate|].
  rewrite parseBlock_eq. unfold parseBlock_body.
  destruct (at_value tokens "{" s).
  - pose proof (parseBlock_loop_run input tokens fuel [] (nextToken tokens s)) as Hloop.
    destruct (parseBlock_loop input tokens fuel [] (nextToken tokens s))
      as [body s1|msg s1|]; simpl; [|destruct Hloop|split; intros; discriminate].
    destruct Hloop as (results & Hrun & ->).
    split; [intros; discriminate|]. intros n s' [= <- <-].
    exists results, s1. split; [exact Hrun|]. split; [reflexivity|].
    destruct (block_run_stops input tokens _ _ _ Hrun) as [Hclose|Hend].
    + left. split; [exact Hclose|].
      unfold at_value in Hclose. destruct (currentToken tokens s1); [reflexivity|discriminate].
    + right. rewrite Hend. split; reflexivity.
  - destruct (parseStatement input tokens fuel s) as [stmt s1|msg s1|] eqn:Hs; simpl.
    + split; [intros; discriminate|]. intros n s' [= <- <-].
      exists fuel, stmt. split; [exact Hs|reflexivity].
    + destruct (parseStatement_catches input tokens _ _ _ _ Hs).
    + split; intros; discriminate.
Qed.

Lemma parseBlock_shape_witness :
  let tokens := [Token SYMBOL "{" 0 1; Token IDENTIFIER "x" 2 3; Token SYMBOL ";" 3 4;
                 Token SYMBOL ")" 5 6; Token SYMBOL "}" 7 8] in
  let x := ExpressionStatement (Identifier "x" 2 3) 2 5 in
  parseBlock "{ x; ) }" tokens 20 (PState 0 []) = Ok (BlockStatement [Some x]) (PState 5 [])
  /\ exists results s1,
       block_run "{ x; ) }" tokens (PState 1 []) results s1
       /\ BlockStatement [Some x] = BlockStatement (List.filter is_node results)
       /\ ((at_value tokens "}" s1 = true /\ PState 5 [] = nextToken tokens s1)
           \/ (currentToken tokens s1 = None /\ PState 5 [] = s1)).
Proof.
  intros tokens x. split; [reflexivity|].
  exact (proj2 (parseBlock_shape "{ x; ) }" tokens 20 (PState 0 []))
           (BlockStatement [Some x]) (PState 5 []) eq_refl).
Defined.

(** ** Invariants of the statement parsers *)

Section Preservation.

Variable input : string.
Variable tokens : list token.

(** [Inv] is an invariant of the parser state: it survives consuming tokens,
    the error recorded by the [catch] of parseStatement and the
    missing-semicolon errors.  [Pre] is what is known before the first token
    of a statement is consumed.  [Fits a s] is what the invariant needs to
    know of an offset [a] at which a missing semicolon is reported in the
    state [s]; it holds of the end of a token consumed and of the end of an
    expression parsed. *)
Variables Inv Pre : pstate -> Prop.
Variable Fits : nat -> pstate -> Prop.

Hypothesis I_J : forall s, Inv s -> Pre s.
Hypothesis I_step : forall s s', forward s s' -> Inv s -> Inv s'.
Hypothesis J_next : forall s t,
  currentToken tokens s = Some t -> Pre s -> Inv (nextToken tokens s).
Hypothesis I_catch : forall s p token msg,
  tokens !! p = Some token -> Inv s ->
  Inv (addError msg (tok_start token) (tok_end token) s).
Hypothesis I_missing : forall s msg a,
  Fits a s -> Inv s -> Inv (addError msg a (findEndOfLine input a) s).
Hypothesis Fits_token : forall s t s',
  currentToken tokens s = Some t -> position s < position s' -> Fits (tok_end t) s'.
Hypothesis Fits_expression : forall fuel s,
  match parseExpression tokens fuel s with
  | Ok e s' => Fits (end_of e) s'
  | _ => True
  end.

Local Abbreviation keeps := (outcome_in Inv Inv).

Lemma I_next (s : pstate) : Inv s -> Inv (nextToken tokens s).
Proof. apply I_step, forward_next. Qed.

Lemma I_skip (s : pstate) : Inv s -> Inv (skipToNextStatement tokens s).
Proof.
  apply I_step. split; [apply skipToNextStatement_position|].
  apply skipToNextStatement_errors.
Qed.

Lemma keeps_throw_at {A : Type} (text : string) (s : pstate) :
  Inv s -> keeps (@throw_at tokens A text s).
Proof. apply outcome_in_throw_at. Qed.

Lemma keeps_bind {A B : Type} (r : result A) (k : A -> pstate -> result B) :
  keeps r -> (forall a s, Inv s -> keeps (k a s)) -> keeps (bind r k).
Proof. intros Hr Hk. eapply outcome_in_bind; [exact Hr|auto|exact Hk]. Qed.

(** What a run of parseExpression gives to the statement around it. *)
Lemma parseExpression_outcome (fuel : nat) (s : pstate) :
  Inv s ->
  match parseExpression tokens fuel s with
  | Ok e s' => Inv s' /\ position s <= position s' /\ Fits (end_of e) s'
  | Throw _ s' => Inv s'
  | OutOfFuel => True
  end.
Proof.
  intros Hs. pose proof (parseExpression_advances tokens fuel s) as H.
  pose proof (Fits_expression fuel s) as Hfit.
  destruct (parseExpression tokens fuel s) as [e s'|msg s'|]; simpl in H; [| |exact I].
  - split; [apply (I_step s); [rel|exact Hs]|]. split; [rel; lia|exact Hfit].
  - apply (I_step s); [exact H|exact Hs].
Qed.

Lemma parseExpression_keeps (fuel : nat) (s : pstate) :
  Inv s -> keeps (parseExpression tokens fuel s).
Proof.
  intros Hs. pose proof (parseExpression_outcome fuel s Hs) as H.
  destruct (parseExpression tokens fuel s); simpl; tauto.
Qed.

Lemma parseVariableDeclaration_keeps (fuel : nat) (s : pstate) (t : token) :
  currentToken tokens s = Some t -> Pre s ->
  keeps (parseVariableDeclaration input tokens fuel s).
Proof.
  intros Ht Hs. unfold parseVariableDeclaration. rewrite Ht.
  pose proof (J_next _ _ Ht Hs) as H1. set (s1 := nextToken tokens s) in *.
  set (annotation := match currentToken tokens s1 with
                     | Some t0 => if isTypeKeyword (tok_value t0)
                                  then (Some (tok_value t0), nextToken tokens s1)
                                  else (None, s1)
                     | None => (None, s1)
                     end).
  assert (H2 : Inv (snd annotation)).
  { subst annotation. destruct (currentToken tokens s1) as [t0|]; [|exact H1].
    destruct (isTypeKeyword _); [apply I_next|]; exact H1. }
  destruct annotation as [declaredType s2]. simpl in H2.
  destruct (currentToken tokens s2) as [nameToken|] eqn:Hname;
    [|apply keeps_throw_at, H2].
  destruct (token_type_eqb _ _); [|apply keeps_throw_at, H2].
  rewrite (nextToken_Some _ _ _ Hname).
  set (s3 := PState (S (position s2)) (errors s2)).
  assert (H3 : Inv s3) by (apply (I_step s2); [rel|exact H2]).
  cbv zeta.
  eapply outcome_in_bind with
    (P1 := fun s4 => Inv s4 /\ position s3 <= position s4) (P2 := Inv).
  - destruct (at_value tokens "=" s3).
    + pose proof (parseExpression_outcome fuel (nextToken tokens s3) (I_next _ H3)) as H.
      pose proof (forward_next tokens s3) as Hn.
      destruct (parseExpression tokens fuel (nextToken tokens s3)); simpl; [|tauto|exact I].
      destruct H as (H4 & Hp & _). split; [exact H4|]. rel. lia.
    + simpl. auto.
  - auto.
  - intros init s4 (H4 & Hp).
    destruct (at_value tokens ";" s4); simpl; [apply I_next, H4|].
    apply I_missing; [|exact H4].
    apply (Fits_token s2); [exact Hname|]. simpl in Hp. lia.
Qed.

(** The part of parseExpressionStatement after its call of
    parseExpression. *)
Lemma parseAssignmentExpression_keeps (fuel : nat) (left : node) (s : pstate) :
  Inv s -> keeps (parseAssignmentExpression input tokens fuel left s).
Proof.
  intros Hs. unfold parseAssignmentExpression.
  destruct (negb _); [apply keeps_throw_at, Hs|].
  pose proof (parseExpression_outcome fuel (nextToken tokens s) (I_next _ Hs)) as H.
  destruct (parseExpression tokens fuel (nextToken tokens s)) as [right s1|msg s1|];
    simpl; [|exact H|exact I].
  destruct H as (H1 & _ & Hend).
  destruct (at_value tokens ";" s1); simpl; [apply I_next, H1|].
  apply I_missing; assumption.
Qed.

Lemma expression_statement_rest (fuel : nat) (expr : node) (s1 : pstate) :
  Inv s1 -> Fits (end_of expr) s1 ->
  keeps
    (if is_Identifier expr && at_value tokens "=" s1
     then parseAssignmentExpression input tokens fuel expr s1
     else if at_value tokens ";" s1 then
       let s2 := nextToken tokens s1 in
       Ok (ExpressionStatement expr (start_of expr)
             match currentToken tokens s2 with
             | Some t => tok_start t
             | None => end_of expr + 1
             end) s2
     else
       let lineEnd := findEndOfLine input (end_of expr) in
       Ok (ExpressionStatement expr (start_of expr) (end_of expr))
          (addError "Missing semicolon at end of statement" (end_of expr)
             lineEnd s1)).
Proof.
  intros H1 Hend.
  destruct (_ && _); [apply parseAssignmentExpression_keeps, H1|].
  destruct (at_value tokens ";" s1); simpl; [apply I_next, H1|].
  apply I_missing; assumption.
Qed.

Lemma parseExpressionStatement_keeps (fuel : nat) (s : pstate) :
  Inv s -> keeps (parseExpressionStatement input tokens fuel s).
Proof.
  intros Hs. unfold parseExpressionStatement.
  pose proof (parseExpression_outcome fuel s Hs) as H.
  destruct (parseExpression tokens fuel s) as [expr s1|msg s1|]; simpl;
    [|exact H|exact I].
  destruct H as (H1 & _ & Hend). apply expression_statement_rest; assumption.
Qed.

Lemma parseReturnStatement_keeps (fuel : nat) (s : pstate) (t : token) :
  currentToken tokens s = Some t -> Pre s ->
  keeps (parseReturnStatement tokens fuel s).
Proof.
  intros Ht Hs. unfold parseReturnStatement. rewrite Ht.
  pose proof (J_next _ _ Ht Hs) as H1. cbv zeta.
  apply keeps_bind.
  - destruct (_ && _); [|exact H1].
    apply keeps_bind; [apply parseExpression_keeps, H1|]. intros e s' H'. exact H'.
  - intros argument s2 H2. simpl.
    destruct (at_value tokens ";" s2); [apply I_next|]; exact H2.
Qed.

Lemma parseParams_loop_errors (fuel : nat) (params : list string) (s : pstate) :
  errors (snd (parseParams_loop tokens fuel params s)) = errors s.
Proof.
  revert params s; induction fuel as [|fuel IH]; intros params s; simpl; [reflexivity|].
  destruct (at_value tokens "," s); [|reflexivity].
  pose proof (forward_next tokens s) as Hn.
  destruct (currentToken tokens (nextToken tokens s)) as [t|].
  - destruct (token_type_eqb _ _); rewrite IH.
    + pose proof (forward_next tokens (nextToken tokens s)). rel. congruence.
    + rel. congruence.
  - rewrite IH. rel. congruence.
Qed.

Lemma parseParams_forward (s : pstate) : forward s (snd (parseParams tokens s)).
Proof.
  split; [apply parseParams_position|].
  unfold parseParams. destruct (at_other_than tokens ")" s); [|reflexivity].
  destruct (currentToken tokens s) as [t|]; [|apply parseParams_loop_errors].
  destruct (token_type_eqb _ _); rewrite parseParams_loop_errors; [|reflexivity].
  apply forward_next.
Qed.

(** The statement that starts at an identifier; what is known of it depends
    on the invariant. *)
Hypothesis H_statement : forall fuel s t,
  currentToken tokens s = Some t ->
  token_type_eqb (tok_type t) IDENTIFIER = true -> Pre s ->
  keeps (parseExpressionStatement input tokens fuel s).

Lemma keeps_wrap (r : result node) :
  keeps r -> keeps (let* (n, s') := r in Ok (Some n) s').
Proof. intros H. apply keeps_bind; [exact H|]. intros n s' H'. exact H'. Qed.

Ltac keep :=
  repeat (cbv zeta;
          match goal with
          | |- _ => assumption
          | |- Inv (nextToken _ _) => apply I_next
          | |- outcome_in _ _ (Ok _ _) => simpl
          | |- outcome_in _ _ (Throw _ _) => simpl
          | |- outcome_in _ _ (throw_at _ _ _) => apply keeps_throw_at
          | |- outcome_in _ _ (bind _ _) => apply keeps_bind; [|intros ? ? ?]
          | |- outcome_in _ _ (if ?b then _ else _) => destruct b eqn:?
          | |- outcome_in _ _ (parseExpression _ _ _) => apply parseExpression_keeps
          end).

Section Bodies.

Variable fuel : nat.
Variable pStatement : pstate -> result (option node).
Variable pBlock : pstate -> result node.
Variable pBlock_loop : list (option node) -> pstate -> result (list (option node)).
Variable pIf pWhile pFor pFunction pClass : pstate -> result node.

Hypothesis H_pStatement : forall s, Inv s -> keeps (pStatement s).
Hypothesis H_pBlock : forall s, Inv s -> keeps (pBlock s).
Hypothesis H_pBlock_loop : forall body s, Inv s -> keeps (pBlock_loop body s).
Hypothesis H_pIf : forall s t, currentToken tokens s = Some t -> Pre s -> keeps (pIf s).
Hypothesis H_pWhile : forall s t, currentToken tokens s = Some t -> Pre s -> keeps (pWhile s).
Hypothesis H_pFor : forall s t, currentToken tokens s = Some t -> Pre s -> keeps (pFor s).
Hypothesis H_pFunction :
  forall s t, currentToken tokens s = Some t -> Pre s -> keeps (pFunction s).
Hypothesis H_pClass :
  forall s t, currentToken tokens s = Some t -> Pre s -> keeps (pClass s).

(** The [try] block of parseStatement at a token that starts a statement. *)
Lemma statement_attempt_keeps (token : token) (s : pstate) :
  currentToken tokens s = Some token -> Pre s ->
  isStatementStart token = true ->
  keeps (statement_attempt input tokens fuel pIf pWhile pFor pFunction pClass token s).
Proof.
  intros Ht Hs Hstart. unfold statement_attempt.
  destruct (_ =s "var") eqn:H1;
    [eapply keeps_wrap, parseVariableDeclaration_keeps; eassumption|].
  destruct (_ =s "if") eqn:H2; [eapply keeps_wrap, H_pIf; eassumption|].
  destruct (_ =s "while") eqn:H3; [eapply keeps_wrap, H_pWhile; eassumption|].
  destruct (_ =s "for") eqn:H4; [eapply keeps_wrap, H_pFor; eassumption|].
  destruct (_ =s "fun") eqn:H5; [eapply keeps_wrap, H_pFunction; eassumption|].
  destruct (_ =s "class") eqn:H6; [eapply keeps_wrap, H_pClass; eassumption|].
  destruct (_ =s "return") eqn:H7;
    [eapply keeps_wrap, parseReturnStatement_keeps; eassumption|].
  destruct (token_type_eqb _ _) eqn:Hid;
    [eapply keeps_wrap, H_statement; eassumption|].
  exfalso. unfold isStatementStart, statementStarters, includes in Hstart.
  cbv [existsb] in Hstart. rewrite !(String.eqb_sym _ (tok_value token)) in Hstart.
  rewrite H1, H2, H3, H4, H5, H6, H7, Hid in Hstart. discriminate.
Qed.

Lemma parseStatement_body_start (token : token) (s : pstate) :
  currentToken tokens s = Some token -> Pre s ->
  isStatementStart token = true ->
  keeps (parseStatement_body input tokens fuel pIf pWhile pFor pFunction pClass s).
Proof.
  intros Ht Hs Hstart. unfold parseStatement_body. rewrite Ht.
  pose proof (statement_attempt_keeps token s Ht Hs Hstart) as H.
  destruct (statement_attempt _ _ _ _ _ _ _ _ _ _) as [stmt s'|msg s'|];
    simpl in *; [exact H| |exact I].
  apply I_skip. eapply I_catch; [exact Ht|exact H].
Qed.

Lemma parseStatement_body_keeps (s : pstate) :
  Inv s ->
  keeps (parseStatement_body input tokens fuel pIf pWhile pFor pFunction pClass s).
Proof.
  intros Hs. destruct (currentToken tokens s) as [token|] eqn:Ht.
  - destruct (isStatementStart token) eqn:Hstart.
    + eapply parseStatement_body_start; eauto.
    + unfold parseStatement_body. rewrite Ht.
      rewrite statement_attempt_unrecognised by exact Hstart.
      simpl. apply I_skip, Hs.
  - unfold parseStatement_body. rewrite Ht. exact Hs.
Qed.

Ltac keep' :=
  repeat first [progress keep | apply H_pBlock | apply H_pStatement
               | apply H_pBlock_loop].

Lemma parseBlock_body_keeps (s : pstate) :
  Inv s -> keeps (parseBlock_body tokens pStatement pBlock_loop s).
Proof.
  intros Hs. unfold parseBlock_body. keep'.
  destruct (currentToken tokens _); keep.
Qed.

Lemma parseBlock_loop_body_keeps (body : list (option node)) (s : pstate) :
  Inv s -> keeps (parseBlock_loop_body tokens pStatement pBlock_loop body s).
Proof. intros Hs. unfold parseBlock_loop_body. keep'. Qed.

Lemma parseIfStatement_body_keeps (s : pstate) (t : token) :
  currentToken tokens s = Some t -> Pre s ->
  keeps (parseIfStatement_body tokens fuel pBlock pIf s).
Proof.
  intros Ht Hs. unfold parseIfStatement_body. rewrite Ht.
  pose proof (J_next _ _ Ht Hs) as H1. keep'.
  match goal with H : at_value tokens "if" _ = true |- _ =>
    apply at_value_Some in H as (t' & Ht' & _) end.
  eapply H_pIf; [exact Ht'|]. apply I_J. keep.
Qed.

Lemma parseWhileStatement_body_keeps (s : pstate) (t : token) :
  currentToken tokens s = Some t -> Pre s ->
  keeps (parseWhileStatement_body tokens fuel pBlock s).
Proof.
  intros Ht Hs. unfold parseWhileStatement_body. rewrite Ht.
  pose proof (J_next _ _ Ht Hs) as H1. keep'.
Qed.

Lemma for_clause_keeps (stop : string) (p : pstate -> result (option node))
    (s : pstate) :
  Inv s -> keeps (p s) ->
  keeps match currentToken tokens s with
        | None => Throw (null_read "value") s
        | Some t => if tok_value t =s stop then Ok None s else p s
        end.
Proof.
  intros Hs Hp. destruct (currentToken tokens s) as [t|] eqn:Ht; [|exact Hs].
  destruct (_ =s _); [exact Hs|exact Hp].
Qed.

Lemma keeps_wrap_expression (s : pstate) :
  Inv s -> keeps (let* (n, s') := parseExpression tokens fuel s in Ok (Some n) s').
Proof. intros Hs. apply keeps_wrap, parseExpression_keeps, Hs. Qed.

Lemma parseForStatement_body_keeps (s : pstate) (t : token) :
  currentToken tokens s = Some t -> Pre s ->
  keeps (parseForStatement_body input tokens fuel pBlock s).
Proof.
  intros Ht Hs. unfold parseForStatement_body. rewrite Ht.
  pose proof (J_next _ _ Ht Hs) as H1. cbv zeta.
  destruct (negb _); [apply keeps_throw_at, H1|].
  pose proof (I_next _ H1) as H2.
  apply keeps_bind.
  { destruct (currentToken tokens (nextToken tokens (nextToken tokens s)))
      as [t0|] eqn:Ht0; [|exact H2].
    destruct (_ =s ";"); [exact H2|].
    destruct (_ =s "var").
    - eapply keeps_wrap, parseVariableDeclaration_keeps; [exact Ht0|apply I_J, H2].
    - apply keeps_wrap_expression, H2. }
  intros init s3 H3.
  destruct (negb _); [apply keeps_throw_at, H3|]. cbv zeta.
  apply keeps_bind.
  { apply (for_clause_keeps ";"
             (fun s => let* (n, s') := parseExpression tokens fuel s in Ok (Some n) s')
             (nextToken tokens s3)); [keep|].
    apply keeps_wrap_expression. keep. }
  intros test s5 H5.
  destruct (negb _); [apply keeps_throw_at, H5|]. cbv zeta.
  apply keeps_bind.
  { apply (for_clause_keeps ")"
             (fun s => let* (n, s') := parseExpression tokens fuel s in Ok (Some n) s')
             (nextToken tokens s5)); [keep|].
    apply keeps_wrap_expression. keep. }
  intros update s7 H7. keep'.
Qed.

Lemma parseFunctionDeclaration_body_keeps (s : pstate) (t : token) :
  currentToken tokens s = Some t -> Pre s ->
  keeps (parseFunctionDeclaration_body tokens pBlock s).
Proof.
  intros Ht Hs. unfold parseFunctionDeclaration_body. rewrite Ht.
  pose proof (J_next _ _ Ht Hs) as H1. cbv zeta.
  destruct (currentToken tokens (nextToken tokens s)) as [nameToken|];
    [|apply keeps_throw_at, H1].
  destruct (token_type_eqb _ _); [|apply keeps_throw_at, H1].
  pose proof (I_next _ H1) as H2.
  destruct (negb _); [apply keeps_throw_at, H2|].
  pose proof (parseParams_forward (nextToken tokens (nextToken tokens (nextToken tokens s))))
    as Hp.
  destruct (parseParams tokens _) as [params s3]. simpl in Hp.
  assert (H3 : Inv s3) by (apply (I_step _ _ Hp); keep).
  keep'.
Qed.

Lemma parseClassDeclaration_body_keeps (s : pstate) (t : token) :
  currentToken tokens s = Some t -> Pre s ->
  keeps (parseClassDeclaration_body tokens pBlock s).
Proof.
  intros Ht Hs. unfold parseClassDeclaration_body. rewrite Ht.
  pose proof (J_next _ _ Ht Hs) as H1. cbv zeta.
  destruct (currentToken tokens (nextToken tokens s)) as [nameToken|];
    [|apply keeps_throw_at, H1].
  destruct (token_type_eqb _ _); [|apply keeps_throw_at, H1].
  keep'.
Qed.

End Bodies.

Lemma statement_parsers_keep (fuel : nat) :
  (forall s, Inv s -> keeps (parseStatement input tokens fuel s))
  /\ (forall s, Inv s -> keeps (parseBlock input tokens fuel s))
  /\ (forall body s, Inv s -> keeps (parseBlock_loop input tokens fuel body s))
  /\ (forall s t, currentToken tokens s = Some t -> Pre s ->
        keeps (parseIfStatement input tokens fuel s))
  /\ (forall s t, currentToken tokens s = Some t -> Pre s ->
        keeps (parseWhileStatement input tokens fuel s))
  /\ (forall s t, currentToken tokens s = Some t -> Pre s ->
        keeps (parseForStatement input tokens fuel s))
  /\ (forall s t, currentToken tokens s = Some t -> Pre s ->
        keeps (parseFunctionDeclaration input tokens fuel s))
  /\ (forall s t, currentToken tokens s = Some t -> Pre s ->
        keeps (parseClassDeclaration input tokens fuel s)).
Proof.
  induction fuel as [|fuel IH].
  - repeat split; intros; exact I.
  - destruct IH as (H1 & H2 & H3 & H4 & H5 & H6 & H7 & H8).
    repeat split; intros; simpl.
    + apply parseStatement_body_keeps; assumption.
    + apply parseBlock_body_keeps; assumption.
    + apply parseBlock_loop_body_keeps; assumption.
    + eapply parseIfStatement_body_keeps; eassumption.
    + eapply parseWhileStatement_body_keeps; eassumption.
    + eapply parseForStatement_body_keeps; eassumption.
    + eapply parseFunctionDeclaration_body_keeps; eassumption.
    + eapply parseClassDeclaration_body_keeps; eassumption.
Qed.

(** parseStatement at a token that starts a statement. *)
Lemma parseStatement_start (fuel : nat) (s : pstate) (token : token) :
  currentToken tokens s = Some token -> Pre s ->
  isStatementStart token = true ->
  keeps (parseStatement input tokens fuel s).
Proof.
  intros Ht Hs Hstart. destruct fuel as [|fuel]; [exact I|].
  destruct (statement_parsers_keep fuel) as (H1 & H2 & H3 & H4 & H5 & H6 & H7 & H8).
  simpl. eapply parseStatement_body_start; eassumption.
Qed.

Lemma parse_loop_keeps (fuel : nat) (statements : list node) (s : pstate) :
  Inv s -> keeps (parse_loop input tokens fuel statements s).
Proof.
  revert statements s; induction fuel as [|fuel IH]; intros statements s Hs; [exact I|].
  rewrite parse_loop_eq. destruct (_ <? _); [|exact Hs].
  apply keeps_bind; [apply (statement_parsers_keep fuel), Hs|].
  intros stmt s1 H1. apply IH, H1.
Qed.

End Preservation.

(** ** Error ranges, and progress of parseStatement *)

Lemma frontier_le (tokens : list token) (bound p : nat) :
  Forall (fun t => tok_end t <= bound) tokens -> frontier tokens p <= bound.
Proof.
  intros H. unfold frontier. apply list_max_le. apply List.Forall_map.
  apply Forall_take. exact H.
Qed.

Lemma tokenize_within (input : string) (tokens : list token) :
  tokenize input = Tokens tokens ->
  Forall (fun t => tok_end t <= String.length input) tokens.
Proof.
  intros H. apply (tokenize_Forall input); [|exact H].
  intros cur c t' next Hc Hs. apply (tokenize_step_token _ _ _ _ _ Hc Hs).
Qed.

Section ErrorRanges.

Variable input : string.
Variable tokens : list token.
Hypothesis tokens_ordered : ordered tokens.
Hypothesis tokens_within : Forall (fun t => tok_end t <= String.length input) tokens.

Lemma errors_in_text_step (s s' : pstate) :
  forward s s' -> (errors_in_text input) s -> (errors_in_text input) s'.
Proof. unfold errors_in_text. intros [_ ->]. auto. Qed.

Lemma errors_in_text_next (s : pstate) (t : token) :
  currentToken tokens s = Some t -> (errors_in_text input) s ->
  (errors_in_text input) (nextToken tokens s).
Proof. intros _. apply errors_in_text_step, forward_next. Qed.

Lemma errors_in_text_catch (s : pstate) (p : nat) (token : token) (msg : string) :
  tokens !! p = Some token -> (errors_in_text input) s ->
  (errors_in_text input) (addError msg (tok_start token) (tok_end token) s).
Proof.
  intros Ht Hs. unfold errors_in_text, addError. simpl.
  apply Forall_app. split; [exact Hs|]. apply List.Forall_cons; [|apply List.Forall_nil].
  destruct (ordered_lookup _ _ _ tokens_ordered Ht) as (_ & Hlt & _).
  pose proof (Forall_lookup_1 _ _ _ _ tokens_within Ht) as Hend. cbv beta in Hend.
  unfold error_in_text. simpl. lia.
Qed.

Lemma errors_in_text_missing (s : pstate) (msg : string) (a : nat) :
  a <= frontier tokens (position s) -> (errors_in_text input) s ->
  (errors_in_text input) (addError msg a (findEndOfLine input a) s).
Proof.
  intros Ha Hs. unfold errors_in_text, addError. simpl.
  apply Forall_app. split; [exact Hs|]. apply List.Forall_cons; [|apply List.Forall_nil].
  pose proof (frontier_le tokens _ (position s) tokens_within) as Hf.
  destruct (findEndOfLine_bounds input a) as (H1 & H2).
  unfold error_in_text. simpl. split; [apply H2; lia|exact H1].
Qed.

Lemma before_frontier_token (s : pstate) (t : token) (s' : pstate) :
  currentToken tokens s = Some t -> position s < position s' ->
  tok_end t <= frontier tokens (position s').
Proof.
  intros Ht Hp. destruct (ordered_lookup _ _ _ tokens_ordered Ht) as (_ & _ & <-).
  apply frontier_mono. lia.
Qed.

Lemma before_frontier_expression (fuel : nat) (s : pstate) :
  match parseExpression tokens fuel s with
  | Ok e s' => end_of e <= frontier tokens (position s')
  | _ => True
  end.
Proof.
  pose proof (parseExpression_spec tokens tokens_ordered fuel s) as H.
  destruct (parseExpression tokens fuel s) as [e s'|msg s'|]; simpl in H; try exact I.
  destruct H as (_ & _ & _ & _ & _ & _ & Hend). exact Hend.
Qed.

Lemma parse_loop_errors_in_text (fuel : nat) (statements : list node) (s : pstate) :
  (errors_in_text input) s ->
  outcome_in (errors_in_text input) (errors_in_text input)
    (parse_loop input tokens fuel statements s).
Proof.
  apply (parse_loop_keeps input tokens (errors_in_text input) (errors_in_text input)
           (fun a s' => a <= frontier tokens (position s'))).
  - auto.
  - exact errors_in_text_step.
  - exact errors_in_text_next.
  - exact errors_in_text_catch.
  - exact errors_in_text_missing.
  - exact before_frontier_token.
  - exact before_frontier_expression.
  - intros fuel' s' t _ _.
    apply (parseExpressionStatement_keeps input tokens (errors_in_text input)
             (fun a s' => a <= frontier tokens (position s'))
             errors_in_text_step errors_in_text_missing before_frontier_expression).
Qed.

End ErrorRanges.

(** X11.  Every syntax error that parse returns has its range inside the
    text, with [start <= end]. *)
Theorem parse_errors_in_text (fuel : nat) (input : string) (body : list node)
    (errs : list syntaxError) :
  parse fuel input = Returned (Program body (Some errs)) ->
  Forall (error_in_text input) errs.
Proof.
  unfold parse. destruct (blank input); [discriminate|].
  destruct (tokenize input) as [tokens|msg|] eqn:Ht; try discriminate.
  pose proof (parse_loop_errors_in_text input tokens (tokenize_ordered _ _ Ht)
                (tokenize_within _ _ Ht) fuel [] (PState 0 []) (List.Forall_nil _)) as H.
  destruct (parse_loop input tokens fuel [] (PState 0 [])) as [l s|msg s|];
    try discriminate.
  intros [= _ <-]. exact H.
Qed.

Lemma parse_errors_in_text_witness :
  Forall (error_in_text "if (x ; y
z;")
    [SyntaxError "Expected ')' after if condition at position 6" 0 2;
     SyntaxError "Missing semicolon at end of statement" 9 9].
Proof.
  apply (parse_errors_in_text 30 "if (x ; y
z;" [ExpressionStatement (Identifier "y" 8 9) 8 9;
     ExpressionStatement (Identifier "z" 10 11) 10 12]).
  reflexivity.
Defined.

Section StatementProgress.

Variable input : string.
Variable tokens : list token.
Variable p0 : nat.

Lemma passed_step (s s' : pstate) : forward s s' -> (passed p0) s -> (passed p0) s'.
Proof. unfold passed. intros [H _]. lia. Qed.

Lemma reached_next (s : pstate) (t : token) :
  currentToken tokens s = Some t -> (reached p0) s -> (passed p0) (nextToken tokens s).
Proof.
  unfold reached, passed. intros Ht H. rewrite (nextToken_Some _ _ _ Ht). simpl. lia.
Qed.

Lemma passed_addError (s : pstate) (msg : string) (a b : nat) :
  (passed p0) s -> (passed p0) (addError msg a b s).
Proof. exact (fun H => H). Qed.

Lemma parseExpressionStatement_passed (fuel : nat) (s : pstate) (t : token) :
  currentToken tokens s = Some t ->
  token_type_eqb (tok_type t) IDENTIFIER = true -> (reached p0) s ->
  outcome_in (passed p0) (passed p0) (parseExpressionStatement input tokens fuel s).
Proof.
  intros Ht Hid Hs. unfold parseExpressionStatement.
  assert (Hat : at_type tokens IDENTIFIER s = true) by (unfold at_type; rewrite Ht; exact Hid).
  pose proof (parseLevel_identifier tokens fuel LOr s Hat) as Hadv.
  change (parseLevel tokens fuel LOr s) with (parseExpression tokens fuel s) in Hadv.
  destruct (parseExpression tokens fuel s) as [expr s1|msg s1|]; simpl in *;
    [| |exact I].
  - apply (expression_statement_rest input tokens (passed p0) (fun _ _ => True)
             passed_step).
    + intros s' msg a _. apply passed_addError.
    + intros fuel' s'. destruct (parseExpression tokens fuel' s'); exact I.
    + unfold passed, reached in *. destruct Hadv. lia.
    + exact I.
  - unfold passed, reached in *. destruct Hadv. lia.
Qed.

Lemma parseStatement_start_passed (fuel : nat) (s : pstate) (token : token) :
  currentToken tokens s = Some token -> (reached p0) s ->
  isStatementStart token = true ->
  outcome_in (passed p0) (passed p0) (parseStatement input tokens fuel s).
Proof.
  apply (parseStatement_start input tokens (passed p0) (reached p0) (fun _ _ => True)).
  - unfold passed, reached. intros s'. lia.
  - exact passed_step.
  - exact reached_next.
  - intros s' p token' msg _. apply passed_addError.
  - intros s' msg a _. apply passed_addError.
  - intros s' t s'' _ _. exact I.
  - intros fuel' s'. destruct (parseExpression tokens fuel' s'); exact I.
  - exact parseExpressionStatement_passed.
Qed.

End StatementProgress.

Lemma recovers_progress (tokens : list token) (s s' : pstate) (t : token) :
  recovers tokens s s' ->
  currentToken tokens s = Some t ->
  tok_value t <> "{" -> tok_value t <> "}" -> isStatementStart t = false ->
  position s < position s'.
Proof.
  intros H Ht Hopen Hclose Hstart.
  destruct H as [s Hnone|s t' Ht' Hsemi|s t' Ht' Hbrace|s t' Ht' Hs|s s' t' Ht' _ _ _ _ Hrest];
    try (rewrite Ht in *; simplify_eq); simpl; try lia.
  - destruct Hbrace; contradiction.
  - congruence.
  - apply recovers_position in Hrest. simpl in Hrest. lia.
Qed.

Lemma parseStatement_moves (input : string) (tokens : list token) (fuel : nat)
    (s s' : pstate) (token : token) (stmt : option node) :
  currentToken tokens s = Some token ->
  tok_value token <> "{" -> tok_value token <> "}" ->
  parseStatement input tokens fuel s = Ok stmt s' ->
  position s < position s'.
Proof.
  intros Ht Hopen Hclose H.
  destruct (isStatementStart token) eqn:Hstart.
  - pose proof (parseStatement_start_passed input tokens (position s) fuel s token
                  Ht (Nat.le_refl _) Hstart) as Hp.
    rewrite H in Hp. exact Hp.
  - destruct fuel as [|fuel]; [discriminate|].
    rewrite parseStatement_eq, Ht in H. unfold statement_try in H.
    rewrite statement_attempt_unrecognised in H by exact Hstart.
    injection H as _ <-.
    eapply recovers_progress; eauto. apply skipToNextStatement_recovers.
Qed.

(** X12.  Unless it stands at a brace, parseStatement consumes at least
    one token, whether the statement parses, fails or is skipped. *)
Theorem parseStatement_consumes (input : string) (tokens : list token) (fuel : nat)
    (s s' : pstate) (token : token) (stmt : option node) :
  currentToken tokens s = Some token ->
  tok_value token <> "{" -> tok_value token <> "}" ->
  parseStatement input tokens fuel s = Ok stmt s' ->
  position s < position s'.
Proof.
  intros Ht Hopen Hclose H.
  exact (parseStatement_moves input tokens fuel s s' token stmt Ht Hopen Hclose H).
Qed.

Lemma parseStatement_consumes_witness :
  position (PState 0 []) < position (PState 4 []).
Proof.
  exact (parseStatement_consumes "x = 1;"
           [Token IDENTIFIER "x" 0 1; Token SYMBOL "=" 2 3; Token NUMBER "1" 4 5;
            Token SYMBOL ";" 5 6] 20 (PState 0 []) (PState 4 [])
           (Token IDENTIFIER "x" 0 1)
           (Some (AssignmentExpression "=" (Identifier "x" 0 1)
                    (Literal (LNumber (Some 1%N)) "1" 4 5) 0 6))
           eq_refl ltac:(discriminate) ltac:(discriminate) eq_refl).
Defined.

(** ** Termination on texts without braces *)

Section StatementTermination.

Variable input : string.
Variable tokens : list token.
Hypothesis no_braces : brace_free tokens.

Ltac count :=
  unfold enough, remaining, forward, onward, ahead in *; simpl in *;
  repeat match goal with
         | H : _ /\ _ |- _ => destruct H
         | H : currentToken tokens ?s = Some _ |- _ =>
             apply currentToken_remaining in H
         | H : at_value tokens _ ?s = true |- _ =>
             apply at_value_Some in H as (? & H & _)
         end;
  solve [repeat split; first [lia | congruence]].

Lemma ahead_next (s : pstate) : ahead s (nextToken tokens s).
Proof. apply forward_next. Qed.

Lemma finishes_ahead_throw_at {A : Type} (text : string) (s0 s : pstate) :
  ahead s0 s -> finishes (ahead s0) (ahead s0) (@throw_at tokens A text s).
Proof. apply finishes_throw_at. Qed.

(** A call of parseExpression inside a statement. *)
Lemma expression_call (fuel : nat) (s0 s : pstate) :
  ahead s0 s -> enough tokens 9 fuel s ->
  finishes (fun s' => ahead s0 s' /\ position s < position s') (ahead s0)
    (parseExpression tokens fuel s).
Proof.
  intros H0 Hf.
  eapply finishes_weaken; [apply parseExpression_finishes, Hf| |]; intros s' H'; count.
Qed.

Lemma parseVariableDeclaration_finishes (fuel : nat) (s : pstate) :
  enough tokens 0 fuel s ->
  finishes (ahead s) (ahead s) (parseVariableDeclaration input tokens fuel s).
Proof.
  intros H. unfold parseVariableDeclaration.
  destruct (currentToken tokens s) as [startToken|] eqn:Hstart; [|count].
  pose proof (ahead_next s) as H1. set (s1 := nextToken tokens s) in *.
  set (annotation := match currentToken tokens s1 with
                     | Some t0 => if isTypeKeyword (tok_value t0)
                                  then (Some (tok_value t0), nextToken tokens s1)
                                  else (None, s1)
                     | None => (None, s1)
                     end).
  assert (H2 : position s1 <= position (snd annotation)).
  { subst annotation. destruct (currentToken tokens s1) as [t0|]; [|simpl; lia].
    destruct (isTypeKeyword _); simpl; [apply ahead_next|lia]. }
  destruct annotation as [declaredType s2]. simpl in H2.
  assert (Hs1 : position s1 = S (position s)) by (subst s1; count).
  destruct (currentToken tokens s2) as [nameToken|] eqn:Hname;
    [|apply finishes_ahead_throw_at; count].
  destruct (token_type_eqb _ _); [|apply finishes_ahead_throw_at; count].
  cbv zeta.
  eapply finishes_bind with (P1 := ahead s) (P2 := ahead s).
  - destruct (at_value tokens "=" (nextToken tokens s2)) eqn:Heq.
    + eapply finishes_bind with (P1 := ahead s) (P2 := ahead s).
      * eapply finishes_weaken; [apply (expression_call fuel s)| |].
        -- count.
        -- count.
        -- intros s' Hs'. count.
        -- auto.
      * auto.
      * intros e s' Hs'. exact Hs'.
    + count.
  - auto.
  - intros init s4 H4. destruct (at_value tokens ";" s4) eqn:Hsemi; count.
Qed.

Lemma parseAssignmentExpression_finishes (fuel : nat) (left : node) (s0 s : pstate) :
  ahead s0 s -> enough tokens 0 fuel s ->
  finishes (ahead s0) (ahead s0) (parseAssignmentExpression input tokens fuel left s).
Proof.
  intros H0 H. unfold parseAssignmentExpression.
  destruct (negb _) eqn:Heq; [apply finishes_ahead_throw_at; count|].
  apply negb_false_iff in Heq.
  eapply finishes_bind with (P1 := ahead s0) (P2 := ahead s0).
  - eapply finishes_weaken; [apply (expression_call fuel s0)| |].
    + count.
    + count.
    + intros s' Hs'. count.
    + auto.
  - auto.
  - intros right s1 H1. destruct (at_value tokens ";" s1) eqn:Hsemi; count.
Qed.

Lemma parseExpressionStatement_finishes (fuel : nat) (s : pstate) :
  enough tokens 9 fuel s ->
  finishes (ahead s) (ahead s) (parseExpressionStatement input tokens fuel s).
Proof.
  intros H. unfold parseExpressionStatement.
  eapply finishes_bind with (P1 := fun s' => position s < position s') (P2 := ahead s).
  - eapply finishes_weaken; [apply (expression_call fuel s s)| |].
    + count.
    + exact H.
    + intros s' Hs'. count.
    + auto.
  - auto.
  - intros expr s1 H1.
    destruct (is_Identifier expr && at_value tokens "=" s1).
    + apply parseAssignmentExpression_finishes; count.
    + destruct (at_value tokens ";" s1) eqn:Hsemi; count.
Qed.

Lemma parseReturnStatement_finishes (fuel : nat) (s : pstate) :
  enough tokens 0 fuel s ->
  finishes (ahead s) (ahead s) (parseReturnStatement tokens fuel s).
Proof.
  intros H. unfold parseReturnStatement.
  destruct (currentToken tokens s) as [startToken|] eqn:Hstart; [|count]. cbv zeta.
  eapply finishes_bind with (P1 := ahead s) (P2 := ahead s).
  - destruct (_ && _).
    + eapply finishes_bind with (P1 := ahead s) (P2 := ahead s).
      * eapply finishes_weaken; [apply (expression_call fuel s)| |].
        -- count.
        -- count.
        -- intros s' Hs'. count.
        -- auto.
      * auto.
      * intros e s' Hs'. exact Hs'.
    + count.
  - auto.
  - intros argument s2 H2. simpl.
    destruct (at_value tokens ";" s2) eqn:Hsemi; count.
Qed.

Lemma finishes_wrap (s0 : pstate) (r : result node) :
  finishes (ahead s0) (ahead s0) r ->
  finishes (ahead s0) (ahead s0) (let* (n, s') := r in Ok (Some n) s').
Proof. destruct r; simpl; auto. Qed.

Lemma at_brace_false (s : pstate) : at_value tokens "{" s = false.
Proof.
  destruct (at_value tokens "{" s) eqn:H; [|reflexivity].
  apply at_value_Some in H as (t & Ht & Hv). destruct (no_braces _ _ Ht). contradiction.
Qed.

Section Bodies.

Variable fuel : nat.
Variable pStatement : pstate -> result (option node).
Variable pBlock : pstate -> result node.
Variable pBlock_loop : list (option node) -> pstate -> result (list (option node)).
Variable pIf pWhile pFor pFunction pClass : pstate -> result node.

Hypothesis H_pStatement : forall s, enough tokens 10 fuel s ->
  finishes (ahead s) (ahead s) (pStatement s).
Hypothesis H_pBlock : forall s, enough tokens 11 fuel s ->
  finishes (ahead s) (ahead s) (pBlock s).
Hypothesis H_pIf : forall s, enough tokens 1 fuel s ->
  finishes (ahead s) (ahead s) (pIf s).
Hypothesis H_pWhile : forall s, enough tokens 1 fuel s ->
  finishes (ahead s) (ahead s) (pWhile s).
Hypothesis H_pFor : forall s, enough tokens 1 fuel s ->
  finishes (ahead s) (ahead s) (pFor s).
Hypothesis H_pFunction : forall s, enough tokens 1 fuel s ->
  finishes (ahead s) (ahead s) (pFunction s).
Hypothesis H_pClass : forall s, enough tokens 1 fuel s ->
  finishes (ahead s) (ahead s) (pClass s).

(** A call from a later state. *)
Ltac later Hf :=
  eapply finishes_weaken; [apply Hf|intros ? ?|intros ? ?]; count.

Lemma statement_attempt_finishes (token : token) (s : pstate) :
  enough tokens 9 fuel s ->
  finishes (ahead s) (ahead s)
    (statement_attempt input tokens fuel pIf pWhile pFor pFunction pClass token s).
Proof.
  intros H. unfold statement_attempt.
  destruct (_ =s "var"); [apply finishes_wrap, parseVariableDeclaration_finishes; count|].
  destruct (_ =s "if"); [apply finishes_wrap, H_pIf; count|].
  destruct (_ =s "while"); [apply finishes_wrap, H_pWhile; count|].
  destruct (_ =s "for"); [apply finishes_wrap, H_pFor; count|].
  destruct (_ =s "fun"); [apply finishes_wrap, H_pFunction; count|].
  destruct (_ =s "class"); [apply finishes_wrap, H_pClass; count|].
  destruct (_ =s "return"); [apply finishes_wrap, parseReturnStatement_finishes; count|].
  destruct (token_type_eqb _ _);
    [apply finishes_wrap, parseExpressionStatement_finishes; exact H|].
  simpl. apply skipToNextStatement_position.
Qed.

Lemma parseStatement_body_finishes (s : pstate) :
  enough tokens 10 (S fuel) s ->
  finishes (ahead s) (ahead s)
    (parseStatement_body input tokens fuel pIf pWhile pFor pFunction pClass s).
Proof.
  intros H. unfold parseStatement_body.
  destruct (currentToken tokens s) as [token|] eqn:Ht; [|count].
  assert (H9 : enough tokens 9 fuel s) by count.
  pose proof (statement_attempt_finishes token s H9) as Ha.
  destruct (statement_attempt _ _ _ _ _ _ _ _ _ _) as [stmt s'|msg s'|]; simpl in *;
    [exact Ha| |exact Ha].
  pose proof (skipToNextStatement_position tokens
                (addError msg (tok_start token) (tok_end token) s')) as Hskip.
  unfold ahead in *. simpl in Hskip. lia.
Qed.

Lemma parseBlock_body_finishes (s : pstate) :
  enough tokens 11 (S fuel) s ->
  finishes (ahead s) (ahead s) (parseBlock_body tokens pStatement pBlock_loop s).
Proof.
  intros H. unfold parseBlock_body. rewrite at_brace_false.
  eapply finishes_bind with (P1 := ahead s) (P2 := ahead s).
  - apply H_pStatement. count.
  - auto.
  - intros stmt s1 H1. exact H1.
Qed.

Lemma parseIfStatement_body_finishes (s : pstate) :
  enough tokens 1 (S fuel) s ->
  finishes (ahead s) (ahead s) (parseIfStatement_body tokens fuel pBlock pIf s).
Proof.
  intros H. unfold parseIfStatement_body.
  destruct (currentToken tokens s) as [startToken|] eqn:Hstart; [|count]. cbv zeta.
  destruct (negb _) eqn:Hopen; [apply finishes_ahead_throw_at; count|].
  apply negb_false_iff in Hopen.
  eapply finishes_bind with
    (P1 := fun s2 => position s + 2 < position s2) (P2 := ahead s).
  - eapply finishes_weaken; [apply (expression_call fuel s)|intros ? ?|auto]; count.
  - auto.
  - intros test s2 H2.
    destruct (negb _) eqn:Hclose; [apply finishes_ahead_throw_at; count|].
    apply negb_false_iff in Hclose.
    eapply finishes_bind with
      (P1 := fun s3 => position s + 3 < position s3) (P2 := ahead s).
    + later H_pBlock.
    + auto.
    + intros consequent s3 H3.
      eapply finishes_bind with (P1 := ahead s) (P2 := ahead s).
      * destruct (at_value tokens "else" s3) eqn:Helse; [|count].
        destruct (at_value tokens "if" (nextToken tokens s3)) eqn:Hif.
        -- apply finishes_wrap. later H_pIf.
        -- apply finishes_wrap. later H_pBlock.
      * auto.
      * intros alternate s4 H4. exact H4.
Qed.

Lemma parseWhileStatement_body_finishes (s : pstate) :
  enough tokens 1 (S fuel) s ->
  finishes (ahead s) (ahead s) (parseWhileStatement_body tokens fuel pBlock s).
Proof.
  intros H. unfold parseWhileStatement_body.
  destruct (currentToken tokens s) as [startToken|] eqn:Hstart; [|count]. cbv zeta.
  destruct (negb _) eqn:Hopen; [apply finishes_ahead_throw_at; count|].
  apply negb_false_iff in Hopen.
  eapply finishes_bind with
    (P1 := fun s2 => position s + 2 < position s2) (P2 := ahead s).
  - eapply finishes_weaken; [apply (expression_call fuel s)|intros ? ?|auto]; count.
  - auto.
  - intros test s2 H2.
    destruct (negb _) eqn:Hclose; [apply finishes_ahead_throw_at; count|].
    apply negb_false_iff in Hclose.
    eapply finishes_bind with (P1 := ahead s) (P2 := ahead s).
    + later H_pBlock.
    + auto.
    + intros body s3 H3. exact H3.
Qed.

(** A clause of a [for] header: absent, or an expression. *)
Lemma for_clause_finishes (stop : string) (s0 s : pstate) :
  position s0 < position s -> enough tokens 1 (S fuel) s0 ->
  finishes (fun s' => position s0 < position s') (ahead s0)
    match currentToken tokens s with
    | None => Throw (null_read "value") s
    | Some t =>
        if tok_value t =s stop then Ok None s
        else let* (n, s') := parseExpression tokens fuel s in Ok (Some n) s'
    end.
Proof.
  intros H0 H. destruct (currentToken tokens s) as [t|] eqn:Ht; [|count].
  destruct (_ =s _); [count|].
  eapply finishes_bind with (P1 := fun s' => position s0 < position s') (P2 := ahead s0).
  - eapply finishes_weaken; [apply (expression_call fuel s0)|intros ? ?|auto]; count.
  - auto.
  - intros n s' H'. exact H'.
Qed.

Lemma parseForStatement_body_finishes (s : pstate) :
  enough tokens 1 (S fuel) s ->
  finishes (ahead s) (ahead s) (parseForStatement_body input tokens fuel pBlock s).
Proof.
  intros H. unfold parseForStatement_body.
  destruct (currentToken tokens s) as [startToken|] eqn:Hstart; [|count]. cbv zeta.
  destruct (negb _) eqn:Hopen; [apply finishes_ahead_throw_at; count|].
  apply negb_false_iff in Hopen.
  eapply finishes_bind with
    (P1 := fun s3 => position s < position s3) (P2 := ahead s).
  - destruct (currentToken tokens (nextToken tokens (nextToken tokens s)))
      as [t0|] eqn:Ht0; [|count].
    destruct (_ =s ";"); [count|].
    destruct (_ =s "var").
    + eapply finishes_bind with
        (P1 := fun s3 => position s < position s3) (P2 := ahead s).
      * eapply finishes_weaken;
          [apply parseVariableDeclaration_finishes|intros ? ?|intros ? ?]; count.
      * auto.
      * intros n s' H'. exact H'.
    + eapply finishes_bind with
        (P1 := fun s3 => position s < position s3) (P2 := ahead s).
      * eapply finishes_weaken; [apply (expression_call fuel s)|intros ? ?|auto]; count.
      * auto.
      * intros n s' H'. exact H'.
  - auto.
  - intros init s3 H3.
    destruct (negb _) eqn:Hsemi1; [apply finishes_ahead_throw_at; count|].
    apply negb_false_iff in Hsemi1.
    eapply finishes_bind with
      (P1 := fun s5 => position s < position s5) (P2 := ahead s).
    + apply for_clause_finishes; count.
    + auto.
    + intros test s5 H5.
      destruct (negb _) eqn:Hsemi2; [apply finishes_ahead_throw_at; count|].
      apply negb_false_iff in Hsemi2.
      eapply finishes_bind with
        (P1 := fun s7 => position s < position s7) (P2 := ahead s).
      * apply for_clause_finishes; count.
      * auto.
      * intros update s7 H7.
        destruct (negb _) eqn:Hclose; [apply finishes_ahead_throw_at; count|].
        apply negb_false_iff in Hclose.
        eapply finishes_bind with (P1 := ahead s) (P2 := ahead s).
        -- later H_pBlock.
        -- auto.
        -- intros body s8 H8. exact H8.
Qed.

Lemma parseFunctionDeclaration_body_finishes (s : pstate) :
  enough tokens 1 (S fuel) s ->
  finishes (ahead s) (ahead s) (parseFunctionDeclaration_body tokens pBlock s).
Proof.
  intros H. unfold parseFunctionDeclaration_body.
  destruct (currentToken tokens s) as [startToken|] eqn:Hstart; [|count]. cbv zeta.
  destruct (currentToken tokens (nextToken tokens s)) as [nameToken|] eqn:Hname;
    [|apply finishes_ahead_throw_at; count].
  destruct (token_type_eqb _ _); [|apply finishes_ahead_throw_at; count].
  destruct (negb _) eqn:Hopen; [apply finishes_ahead_throw_at; count|].
  apply negb_false_iff in Hopen.
  pose proof (parseParams_position tokens
                (nextToken tokens (nextToken tokens (nextToken tokens s)))) as Hp.
  destruct (parseParams tokens _) as [params s3]. simpl in Hp.
  destruct (negb _) eqn:Hclose; [apply finishes_ahead_throw_at; count|].
  apply negb_false_iff in Hclose.
  eapply finishes_bind with (P1 := ahead s) (P2 := ahead s).
  - later H_pBlock.
  - auto.
  - intros body s4 H4. exact H4.
Qed.

Lemma parseClassDeclaration_body_finishes (s : pstate) :
  enough tokens 1 (S fuel) s ->
  finishes (ahead s) (ahead s) (parseClassDeclaration_body tokens pBlock s).
Proof.
  intros H. unfold parseClassDeclaration_body.
  destruct (currentToken tokens s) as [startToken|] eqn:Hstart; [|count]. cbv zeta.
  destruct (currentToken tokens (nextToken tokens s)) as [nameToken|] eqn:Hname;
    [|apply finishes_ahead_throw_at; count].
  destruct (token_type_eqb _ _); [|apply finishes_ahead_throw_at; count].
  rewrite at_brace_false. simpl. apply finishes_ahead_throw_at. count.
Qed.

End Bodies.

Lemma statement_parsers_finish (fuel : nat) :
  (forall s, enough tokens 10 fuel s ->
     finishes (ahead s) (ahead s) (parseStatement input tokens fuel s))
  /\ (forall s, enough tokens 11 fuel s ->
        finishes (ahead s) (ahead s) (parseBlock input tokens fuel s))
  /\ (forall s, enough tokens 1 fuel s ->
        finishes (ahead s) (ahead s) (parseIfStatement input tokens fuel s))
  /\ (forall s, enough tokens 1 fuel s ->
        finishes (ahead s) (ahead s) (parseWhileStatement input tokens fuel s))
  /\ (forall s, enough tokens 1 fuel s ->
        finishes (ahead s) (ahead s) (parseForStatement input tokens fuel s))
  /\ (forall s, enough tokens 1 fuel s ->
        finishes (ahead s) (ahead s) (parseFunctionDeclaration input tokens fuel s))
  /\ (forall s, enough tokens 1 fuel s ->
        finishes (ahead s) (ahead s) (parseClassDeclaration input tokens fuel s)).
Proof.
  induction fuel as [|fuel IH].
  - repeat split; intros; exfalso; unfold enough in *; lia.
  - destruct IH as (H1 & H2 & H3 & H4 & H5 & H6 & H7).
    repeat split; intros; simpl.
    + apply (parseStatement_body_finishes fuel); assumption.
    + apply (parseBlock_body_finishes fuel); assumption.
    + apply (parseIfStatement_body_finishes fuel); assumption.
    + apply (parseWhileStatement_body_finishes fuel); assumption.
    + apply (parseForStatement_body_finishes fuel); assumption.
    + apply (parseFunctionDeclaration_body_finishes fuel); assumption.
    + apply (parseClassDeclaration_body_finishes fuel); assumption.
Qed.

Lemma parse_loop_finishes (fuel : nat) (statements : list node) (s : pstate) :
  enough tokens 12 fuel s ->
  exists l s', parse_loop input tokens fuel statements s = Ok l s'.
Proof.
  revert statements s; induction fuel as [|fuel IH]; intros statements s H.
  - exfalso. unfold enough in H. lia.
  - rewrite parse_loop_eq. destruct (position s <? length tokens) eqn:Hlt; [|eauto].
    apply Nat.ltb_lt in Hlt.
    destruct (lookup_lt_is_Some_2 tokens (position s) Hlt) as [token Ht].
    destruct (no_braces _ _ Ht) as [Hopen Hclose].
    pose proof (proj1 (statement_parsers_finish fuel) s) as Hf.
    pose proof (parseStatement_moves input tokens fuel s) as Hc.
    destruct (parseStatement input tokens fuel s) as [stmt s1|msg s1|] eqn:Hs.
    + unfold bind. apply IH.
      specialize (Hc s1 token stmt Ht Hopen Hclose eq_refl). count.
    + exfalso. exact (parseStatement_catches _ _ _ _ _ _ Hs).
    + exfalso. apply Hf. count.
Qed.

End StatementTermination.

(** X13.  On a text without braces parse always returns: ten units of
    fuel for each token and twelve more are enough. *)
Theorem parse_terminates_without_braces (fuel : nat) (input : string)
    (tokens : list token) :
  tokenize input = Tokens tokens ->
  brace_free tokens ->
  10 * length tokens + 12 <= fuel ->
  exists body errs, parse fuel input = Returned (Program body errs).
Proof.
  intros Ht Hfree Hfuel. unfold parse.
  destruct (blank input); [eauto|]. rewrite Ht.
  destruct (parse_loop_finishes input tokens Hfree fuel []
              (PState 0 [])) as (l & s' & ->).
  - unfold enough, remaining. simpl. lia.
  - eauto.
Qed.

Lemma parse_terminates_without_braces_witness :
  exists body errs, parse 62 "var x = 1;" = Returned (Program body errs).
Proof.
  apply (parse_terminates_without_braces 62 "var x = 1;"
           [Token KEYWORD "var" 0 3; Token IDENTIFIER "x" 4 5; Token SYMBOL "=" 6 7;
            Token NUMBER "1" 8 9; Token SYMBOL ";" 9 10] eq_refl).
  - intros p t H. do 5 (destruct p as [|p]; [injection H as <-; split; discriminate|]).
    discriminate.
  - simpl. lia.
Defined.

(* ================================================================== *)
(** * Further properties of the type checker *)

(** A relation between the state before and after that holds of the three
    places where checkNode touches the state holds of checkNode. *)
Section Traversal.

Variable document : string.
Variable guard : node -> bool.
Variable R : cstate -> cstate -> Prop.

Hypothesis R_refl : forall st, R st st.
Hypothesis R_trans : forall a b c, R a b -> R b c -> R a c.
Hypothesis R_any : forall name st, R st (set_type name "any" st).
Hypothesis R_typed : forall t name init a b st,
  guard (VariableDeclaration (Some t) name init a b) = true ->
  R st (checkTypedDeclaration document t name init st).
Hypothesis R_assigned : forall name rhs st, R st (checkAssignedType document name rhs st).

Lemma fold_left_related {B : Type} (f : cstate -> B -> cstate) (l : list B) :
  Forall (fun x => forall st, R st (f st x)) l ->
  forall st, R st (fold_left f l st).
Proof.
  induction 1 as [|x l Hx _ IH]; simpl; intros st; [apply R_refl|].
  eapply R_trans; [apply Hx|apply IH].
Qed.

Lemma related_step (f : cstate -> cstate) :
  (forall st, R st (f st)) -> forall st0 st, R st0 st -> R st0 (f st).
Proof. intros Hf st0 st H. eapply R_trans; [exact H|apply Hf]. Qed.

Lemma checkNode_related (n : node) :
  all_nodes guard n = true -> forall st, R st (checkNode document n st).
Proof.
  induction n using node_deep_ind; simpl; intros Hall st;
    repeat match goal with
           | H : _ && _ = true |- _ => apply andb_true_iff in H as [? ?]
           end;
    try match goal with
        | H : forallb _ _ = true |- _ => rewrite forallb_forall in H
        end;
    try match goal with
        | H : Forall _ _ |- _ => rewrite List.Forall_forall in H
        end;
    try solve [repeat (apply related_step; [solve [auto]|]); apply R_refl].
  - (* CallExpression *)
    apply related_step; [|auto].
    intros st0. apply fold_left_related. apply List.Forall_forall. auto.
  - (* ArrayExpression *)
    apply fold_left_related. apply List.Forall_forall. auto.
  - (* ObjectExpression *)
    apply fold_left_related. apply List.Forall_forall. auto.
  - (* VariableDeclaration *)
    assert (Hinit : forall st', R st' match init with
                                      | Some c => checkNode document c st'
                                      | None => st'
                                      end).
    { intros st'. destruct init as [c|]; [|apply R_refl]. simpl in *. auto. }
    assert (Hany : R st match init with
                        | Some c =>
                            checkNode document c
                              (if name =s "" then st else set_type name "any" st)
                        | None => if name =s "" then st else set_type name "any" st
                        end).
    { eapply R_trans; [|apply Hinit]. destruct (name =s ""); auto. }
    destruct t as [t|]; [|exact Hany].
    destruct (t =s ""); [exact Hany|]. eapply R_typed. eassumption.
  - (* IfStatement *)
    destruct alt as [c|]; simpl in *;
      repeat (apply related_step; [solve [auto]|]); apply R_refl.
  - (* ForStatement *)
    destruct i, t, u; simpl in *;
      repeat (apply related_step; [solve [auto]|]); apply R_refl.
  - (* BlockStatement *)
    apply fold_left_related. apply List.Forall_forall. intros o Ho st0.
    specialize (H o Ho).
    match goal with Hb : forall x, In x body -> _ = true |- _ => specialize (Hb o Ho) end.
    destruct o as [c|]; simpl in *; auto.
  - (* ReturnStatement *)
    destruct e as [c|]; simpl in *; auto.
  - (* AssignmentExpression *)
    destruct n1; auto. apply related_step; auto.
Qed.

Lemma check_from_related (body : list node) :
  Forall (fun n => all_nodes guard n = true) body ->
  forall st, R st (check_from document body st).
Proof.
  intros H. unfold check_from. apply fold_left_related.
  eapply List.Forall_impl; [|exact H]. intros n Hn st. apply checkNode_related, Hn.
Qed.

End Traversal.

Lemma all_nodes_true (n : node) : all_nodes (fun _ => true) n = true.
Proof.
  induction n using node_deep_ind; simpl;
    repeat match goal with H : _ = true |- _ => rewrite H end;
    simpl; try reflexivity.
  - apply forallb_forall. rewrite List.Forall_forall in H. auto.
  - apply forallb_forall. rewrite List.Forall_forall in H. auto.
  - apply forallb_forall. rewrite List.Forall_forall in H. auto.
  - destruct init; simpl in *; auto.
  - destruct alt; simpl in *; auto.
  - destruct i, t, u; simpl in *;
      repeat match goal with H : _ = true |- _ => rewrite H end; reflexivity.
  - apply forallb_forall. rewrite List.Forall_forall in H.
    intros o Ho. specialize (H o Ho). destruct o; simpl in *; auto.
  - destruct e; simpl in *; auto.
Qed.

Lemma reports_after_refl (st : cstate) : reports_after st st.
Proof. exists []. rewrite app_nil_r. split; [reflexivity|constructor]. Qed.

Lemma reports_after_trans (a b c : cstate) :
  reports_after a b -> reports_after b c -> reports_after a c.
Proof.
  intros (n1 & H1 & F1) (n2 & H2 & F2). exists (n1 ++ n2).
  rewrite H2, H1, app_assoc. split; [reflexivity|]. apply Forall_app. auto.
Qed.

Lemma reports_after_push (d : diagnostic) (st : cstate) :
  type_mismatch d -> reports_after st (push_diagnostic d st).
Proof.
  intros H. exists [d]. split; [reflexivity|].
  apply List.Forall_cons; [exact H|apply List.Forall_nil].
Qed.

Lemma declaration_mismatch_is_mismatch (document T actual name : string) (init : node) :
  type_mismatch (declaration_mismatch document T actual name init).
Proof. split; [reflexivity|]. simpl. eexists. reflexivity. Qed.

Lemma assignment_mismatch_is_mismatch (document T actual name : string) (rhs : node) :
  type_mismatch (assignment_mismatch document T actual name rhs).
Proof. split; [reflexivity|]. simpl. eexists. reflexivity. Qed.

Lemma reports_after_same (st st' : cstate) :
  diagnostics st' = diagnostics st -> reports_after st st'.
Proof.
  intros H. exists []. rewrite app_nil_r. split; [exact H|apply List.Forall_nil].
Qed.

Lemma checkTypedDeclaration_reports_after (document t name : string)
    (init : option node) (st : cstate) :
  reports_after st (checkTypedDeclaration document t name init st).
Proof.
  unfold checkTypedDeclaration.
  destruct init as [i|]; [|apply reports_after_same; reflexivity].
  destruct (negb _); [|apply reports_after_same; reflexivity].
  apply reports_after_push, declaration_mismatch_is_mismatch.
Qed.

Lemma checkAssignedType_reports_after (document name : string) (rhs : node)
    (st : cstate) :
  reports_after st (checkAssignedType document name rhs st).
Proof.
  unfold checkAssignedType.
  destruct (symbolTable st !! name); [|apply reports_after_refl].
  destruct (_ && _); [|apply reports_after_refl].
  destruct (negb _); [|apply reports_after_refl].
  apply reports_after_push, assignment_mismatch_is_mismatch.
Qed.

Lemma check_from_reports_after (document : string) (body : list node) (st : cstate) :
  reports_after st (check_from document body st).
Proof.
  apply (check_from_related document (fun _ => true) reports_after).
  - apply reports_after_refl.
  - apply reports_after_trans.
  - intros name st0. apply reports_after_same. reflexivity.
  - intros t name init a b st0 _. apply checkTypedDeclaration_reports_after.
  - apply checkAssignedType_reports_after.
  - apply List.Forall_forall. intros n _. apply all_nodes_true.
Qed.

(** X14.  The diagnostics of analyzeTypeSafety are the syntax errors of
    the parser, in the order recorded, followed by the diagnostics of the
    type checker, each a "Type mismatch" of severity 1: checking only ever
    appends. *)
Theorem analyzeTypeSafety_syntax_errors_first (fuel : nat) (text : string)
    (body : list node) (errs : list syntaxError) :
  parse fuel text = Returned (Program body (Some errs)) ->
  exists new,
    analyzeTypeSafety fuel text = Some (map (syntax_diagnostic text) errs ++ new)
    /\ Forall type_mismatch new.
Proof.
  intros H. unfold analyzeTypeSafety, check. rewrite H. simpl.
  destruct (check_from_reports_after text body
              (CState ∅ (map (syntax_diagnostic text) errs))) as (new & Hnew & Hall).
  exists new. simpl in Hnew. rewrite Hnew. auto.
Qed.

Lemma analyzeTypeSafety_syntax_errors_first_witness :
  exists new,
    analyzeTypeSafety 40 "var int x = 'a'
x = 1;"
    = Some (map (syntax_diagnostic "var int x = 'a'
x = 1;") [SyntaxError "Missing semicolon at end of variable declaration" 9 15] ++ new)
    /\ Forall type_mismatch new.
Proof.
  eapply (analyzeTypeSafety_syntax_errors_first 40 "var int x = 'a'
x = 1;"). reflexivity.
Defined.

Lemma all_any_insert (table : gmap string string) (name : string) :
  all_any table -> all_any (<[name := "any"]> table).
Proof.
  intros Htable k v H. destruct (decide (name = k)) as [<-|Hne].
  - rewrite lookup_insert_eq in H. congruence.
  - rewrite lookup_insert_ne in H by exact Hne. eapply Htable, H.
Qed.

Lemma all_any_empty : all_any ∅.
Proof. intros name t H. rewrite lookup_empty in H. discriminate. Qed.

(** X15.  A program in which no declaration carries a type annotation
    gets no diagnostic from the type checker. *)
Theorem check_untyped_program (document : string) (body : list node)
    (errors : option (list syntaxError)) (errs : list diagnostic) :
  Forall (fun n => all_nodes untyped n = true) body ->
  check (Program body errors) document errs = errs.
Proof.
  intros Hbody. unfold check. simpl.
  destruct (check_from_related document untyped stays_untyped) with
    (body := body) (st := CState ∅ errs) as (_ & Hd).
  - intros st H. auto.
  - intros a b c Hab Hbc Ha. destruct (Hab Ha) as (Hb & Hd1).
    destruct (Hbc Hb) as (Hc & Hd2). split; [exact Hc|congruence].
  - intros name st H. split; [|reflexivity]. simpl. apply all_any_insert, H.
  - intros t name init a b st Hg. discriminate.
  - intros name rhs st H. unfold checkAssignedType.
    destruct (symbolTable st !! name) as [T|] eqn:HT; [|auto].
    rewrite (H _ _ HT). simpl. auto.
  - exact Hbody.
  - apply all_any_empty.
  - exact Hd.
Qed.

Lemma check_untyped_program_witness :
  let body := [VariableDeclaration None "x" (Some (Literal (LNumber (Some 5%N)) "5" 8 9)) 0 11;
               AssignmentExpression "=" (Identifier "x" 11 12)
                 (Literal (LString "'a'") "'a'" 15 18) 11 19] in
  parse 40 "var x = 5; x = 'a';" = Returned (Program body (Some []))
  /\ check (Program body (Some [])) "var x = 5; x = 'a';" [] = [].
Proof.
  intros body. split; [reflexivity|].
  apply (check_untyped_program "var x = 5; x = 'a';" body (Some []) []).
  repeat constructor.
Defined.

(** X16.  A declaration [var T name] or [var T name = init] that is
    accepted registers [name] with type [T], and a later assignment to
    [name] is reported exactly when the type inferred for its right-hand
    side is incompatible with [T]; the assignment leaves the table alone. *)
Theorem declared_type_is_checked_on_assignment (document T name op : string)
    (init : option node) (v : node) (a b c d e f : nat) (st : cstate) :
  T <> "" -> T <> "any" ->
  match init with
  | Some i => isCompatibleType T (inferType (symbolTable st) i) = true
  | None => True
  end ->
  expression v = true ->
  let st1 := checkNode document (VariableDeclaration (Some T) name init a b) st in
  let st2 := checkNode document (AssignmentExpression op (Identifier name c d) v e f) st1 in
  let actual := inferType (symbolTable st1) v in
  symbolTable st1 !! name = Some T
  /\ symbolTable st2 = symbolTable st1
  /\ diagnostics st2
     = diagnostics st
       ++ (if isCompatibleType T actual then []
           else [assignment_mismatch document T actual name v]).
Proof.
  intros HT Hany Hinit Hv st1 st2 actual.
  assert (H1 : st1 = set_type name T st).
  { subst st1. rewrite checkNode_typed_declaration by exact HT.
    unfold checkTypedDeclaration. destruct init as [i|]; [|reflexivity].
    rewrite Hinit. reflexivity. }
  assert (Hlook : symbolTable st1 !! name = Some T).
  { rewrite H1. simpl. apply lookup_insert_eq. }
  split; [exact Hlook|].
  assert (H2 : st2 = checkAssignedType document name v st1).
  { subst st2. simpl. apply checkNode_expression. auto. }
  rewrite H2. split; [apply checkAssignedType_table|].
  unfold checkAssignedType. rewrite Hlook.
  apply String.eqb_neq in HT, Hany. rewrite HT, Hany. simpl.
  fold actual. destruct (isCompatibleType T actual); simpl.
  - rewrite H1. simpl. rewrite app_nil_r. reflexivity.
  - rewrite H1. reflexivity.
Qed.

Lemma declared_type_is_checked_on_assignment_witness :
  let document := "var int x; x = 'a';" in
  let v := Literal (LString "'a'") "'a'" 15 18 in
  let st1 := checkNode document (VariableDeclaration (Some "int") "x" None 0 10)
               (CState ∅ []) in
  let st2 := checkNode document (AssignmentExpression "=" (Identifier "x" 11 12) v 11 19)
               st1 in
  symbolTable st1 !! "x" = Some "int"
  /\ symbolTable st2 = symbolTable st1
  /\ diagnostics st2 = [assignment_mismatch document "int" "string" "x" v].
Proof.
  intros document v st1 st2.
  exact (declared_type_is_checked_on_assignment document "int" "x" "=" None v
           0 10 11 12 11 19 (CState ∅ []) ltac:(discriminate) ltac:(discriminate) I eq_refl).
Defined.

(** X17.  A declaration without type annotation tracks its variable as
    [any], replacing what was tracked before, so that no later assignment to
    it is reported. *)
Theorem untyped_declaration_resets_tracking (document name op : string)
    (init : option node) (v : node) (a b c d e f : nat) (st : cstate) :
  name <> "" ->
  match init with
  | Some i => expression i = true
  | None => True
  end ->
  expression v = true ->
  let st1 := checkNode document (VariableDeclaration None name init a b) st in
  st1 = set_type name "any" st
  /\ checkNode document (AssignmentExpression op (Identifier name c d) v e f) st1 = st1.
Proof.
  intros Hname Hinit Hv st1.
  assert (H1 : st1 = set_type name "any" st).
  { subst st1. simpl. apply String.eqb_neq in Hname. rewrite Hname.
    destruct init as [i|]; [|reflexivity]. apply checkNode_expression. auto. }
  split; [exact H1|]. simpl. rewrite checkNode_expression by auto.
  unfold checkAssignedType. rewrite H1. simpl. rewrite lookup_insert_eq. reflexivity.
Qed.

Lemma untyped_declaration_resets_tracking_witness :
  let document := "var int x = 1; var x = 2; x = 'a';" in
  let st := CState {["x" := "int"]} [] in
  let st1 := checkNode document
               (VariableDeclaration None "x" (Some (Literal (LNumber (Some 2%N)) "2" 23 24))
                  15 26) st in
  st1 = set_type "x" "any" st
  /\ checkNode document
       (AssignmentExpression "=" (Identifier "x" 26 27)
          (Literal (LString "'a'") "'a'" 30 33) 26 34) st1 = st1.
Proof.
  intros document st st1.
  exact (untyped_declaration_resets_tracking document "x" "="
           (Some (Literal (LNumber (Some 2%N)) "2" 23 24))
           (Literal (LString "'a'") "'a'" 30 33) 15 26 26 27 26 34 st
           ltac:(discriminate) eq_refl eq_refl).
Defined.

(** X18.  Whatever the program parsed, the types held in the symbol table
    during a check are type keywords. *)
Theorem check_symbol_table_holds_type_tags (fuel : nat) (input : string) (ast : program)
    (errs : list diagnostic) (name t : string) :
  parse fuel input = Returned ast ->
  symbolTable (check_from input (prog_body ast) (CState ∅ errs)) !! name = Some t ->
  isTypeKeyword t = true.
Proof.
  intros Hparse Hlook.
  pose proof (parse_check_tagged fuel input ast errs Hparse name t Hlook) as Hin.
  simpl in Hin. decompose [or] Hin; subst; try reflexivity. contradiction.
Qed.

Lemma check_symbol_table_holds_type_tags_witness :
  isTypeKeyword "float" = true.
Proof.
  apply (check_symbol_table_holds_type_tags 40 "var float y = 1;"
           (Program [VariableDeclaration (Some "float") "y"
                       (Some (Literal (LNumber (Some 1%N)) "1" 14 15)) 0 12] (Some []))
           [] "y" "float" eq_refl).
  reflexivity.
Defined.
